(** * Sermon Note: the paginated, annotated note model of [src/index.tsx]

    A shallow embedding of the data model and the operations of the
    note-taking application: the stroke model and its JSON encoding, the
    canvas renderer [drawOnCanvas], stroke capture in [EditablePage], the
    page store handlers of [App], the pagination effect, the migration run
    on load and [importNotes].

    Conventions.
    - A JavaScript string is the list of its UTF-16 code units ([jsstring]).
    - A JavaScript number is a member of an abstract type (class
      [JSNumber]): the coordinates and widths of strokes are inputs, which
      the program stores, prints and parses through JSON.
    - An untyped value ([note: any], the result of [JSON.parse]) is a
      [value]; [undefined] is [None] in an [option value].
    - The file is an ES module, hence strict-mode code: assigning a
      property on a primitive throws a [TypeError]. *)

From Stdlib Require Import String Ascii.
From stdpp Require Import base decidable option list numbers.

#[local] Set Warnings "-register-all".
Local Open Scope N_scope.
Local Open Scope list_scope.

(** ** Strings as code-unit sequences *)

Abbreviation jsstring := (list N).

(** The code units of an ASCII literal. *)
Definition js (s : string) : jsstring :=
  map N_of_ascii (list_ascii_of_string s).

Definition is_empty {A} (l : list A) : bool :=
  match l with [] => true | _ => false end.

(** ECMAScript WhiteSpace and LineTerminator code points, the characters
    [String.prototype.trim] removes. *)
Definition is_js_space (c : N) : bool :=
  (c =? 9) || (c =? 10) || (c =? 11) || (c =? 12) || (c =? 13) || (c =? 32)
  || (c =? 160) || (c =? 5760) || ((8192 <=? c) && (c <=? 8202))
  || (c =? 8232) || (c =? 8233) || (c =? 8239) || (c =? 8287)
  || (c =? 12288) || (c =? 65279).

Fixpoint trim_start (s : jsstring) : jsstring :=
  match s with
  | c :: r => if is_js_space c then trim_start r else s
  | [] => []
  end.

Definition js_trim (s : jsstring) : jsstring :=
  rev (trim_start (rev (trim_start s))).

(** Decimal digits of a natural number, as [String(i)] prints an index. *)
Fixpoint nat_digits (fuel n : nat) (acc : jsstring) : jsstring :=
  match fuel with
  | O => acc
  | S fuel =>
      let acc' := (48 + N.of_nat (n `mod` 10)%nat) :: acc in
      if (n <? 10)%nat then acc' else nat_digits fuel (n `div` 10)%nat acc'
  end.

Definition nat_to_string (n : nat) : jsstring := nat_digits (S n) n [].

(** ** Numbers

    The operations of the platform on numbers that the program reaches
    through [JSON.parse], [JSON.stringify] and truthiness tests. *)
Class JSNumber := {
  number : Type;
  (** [+0], [-0] (and [NaN]) are falsy. *)
  num_is_falsy : number -> bool;
  (** Infinities and [NaN] are not finite; [JSON.stringify] prints them
      as [null]. *)
  num_is_finite : number -> bool;
  (** The value of a JSON number token (StringToNumber on the token). *)
  num_of_literal : jsstring -> number;
  (** [Number::toString] in radix 10. *)
  num_to_string : number -> jsstring;
}.

(** ** The JSON number grammar

    An optional minus sign; an integer part, either a single zero or a
    non-zero digit followed by digits; an optional fraction, a point
    followed by at least one digit; an optional exponent, [e] or [E], an
    optional sign and at least one digit. *)

Definition is_digit (c : N) : bool := (48 <=? c) && (c <=? 57).

Fixpoint span_digits (s : jsstring) : jsstring * jsstring :=
  match s with
  | c :: r =>
      if is_digit c then let '(ds, r') := span_digits r in (c :: ds, r')
      else ([], s)
  | [] => ([], [])
  end.

Definition scan_int (s : jsstring) : option (jsstring * jsstring) :=
  match s with
  | c :: r =>
      if c =? 48 then Some ([c], r)
      else if is_digit c then
        let '(ds, r') := span_digits r in Some (c :: ds, r')
      else None
  | [] => None
  end.

Definition scan_frac (s : jsstring) : option (jsstring * jsstring) :=
  match s with
  | c :: r =>
      if c =? 46 then
        match span_digits r with
        | ([], _) => None
        | (ds, r') => Some (c :: ds, r')
        end
      else Some ([], s)
  | [] => Some ([], [])
  end.

Definition scan_sign (s : jsstring) : jsstring * jsstring :=
  match s with
  | c :: r => if (c =? 43) || (c =? 45) then ([c], r) else ([], s)
  | [] => ([], [])
  end.

Definition scan_exp (s : jsstring) : option (jsstring * jsstring) :=
  match s with
  | c :: r =>
      if (c =? 101) || (c =? 69) then
        let '(sg, r1) := scan_sign r in
        match span_digits r1 with
        | ([], _) => None
        | (ds, r') => Some (c :: sg ++ ds, r')
        end
      else Some ([], s)
  | [] => Some ([], [])
  end.

Definition scan_minus (s : jsstring) : jsstring * jsstring :=
  match s with
  | c :: r => if c =? 45 then ([c], r) else ([], s)
  | [] => ([], [])
  end.

(** The longest prefix of [s] that is a JSON number token, and the rest. *)
Definition scan_number (s : jsstring) : option (jsstring * jsstring) :=
  let '(m, r0) := scan_minus s in
  '(i, r1) ← scan_int r0;
  '(f, r2) ← scan_frac r1;
  '(e, r3) ← scan_exp r2;
  Some (m ++ i ++ f ++ e, r3).

Definition is_number_token (t : jsstring) : bool :=
  match scan_number t with
  | Some (t', []) => bool_decide (t' = t)
  | _ => false
  end.

(** A number token ends where the next character cannot continue it. *)
Definition ends_number (rest : jsstring) : bool :=
  match rest with
  | c :: _ => negb (is_digit c || (c =? 46) || (c =? 101) || (c =? 69))
  | [] => true
  end.

Definition not_digit_head (rest : jsstring) : Prop :=
  match rest with c :: _ => is_digit c = false | [] => True end.

(** *** An instance: the integers

    The integers, printed in decimal, are the numbers the examples below
    are run with. A token with a fraction or an exponent is read as its
    integer part. *)

Definition digits_value (ds : jsstring) : N :=
  fold_left (fun acc d => acc * 10 + (d - 48)) ds 0.

Definition int_of_literal (t : jsstring) : Z :=
  let '(m, r0) := scan_minus t in
  let '(ds, _) := span_digits r0 in
  let n := Z.of_N (digits_value ds) in
  if is_empty m then n else (- n)%Z.

Definition int_to_string (z : Z) : jsstring :=
  (if (z <? 0)%Z then [45] else []) ++ nat_to_string (Z.abs_nat z).

#[global] Instance IntNumber : JSNumber := {|
  number := Z;
  num_is_falsy z := (z =? 0)%Z;
  num_is_finite _ := true;
  num_of_literal := int_of_literal;
  num_to_string := int_to_string;
|}.

(** JSON text written with an apostrophe for each double quote. *)
Definition json_text (s : string) : jsstring :=
  map (fun c => if c =? 39 then 34 else c) (js s).

(** ** JSON strings *)

Definition hex_digit (d : N) : N := if d <? 10 then 48 + d else 87 + d.

(** [\uXXXX] with four lower-case hexadecimal digits. *)
Definition unicode_escape (c : N) : jsstring :=
  [92; 117; hex_digit ((c / 4096) `mod` 16); hex_digit ((c / 256) `mod` 16);
   hex_digit ((c / 16) `mod` 16); hex_digit (c `mod` 16)].

Definition is_high_surrogate (c : N) : bool := (55296 <=? c) && (c <=? 56319).
Definition is_low_surrogate (c : N) : bool := (56320 <=? c) && (c <=? 57343).

(** One code unit that is not the first half of a surrogate pair, as
    QuoteJSONString prints it. *)
Definition escape_unit (c : N) : jsstring :=
  if c =? 8 then [92; 98]
  else if c =? 9 then [92; 116]
  else if c =? 10 then [92; 110]
  else if c =? 12 then [92; 102]
  else if c =? 13 then [92; 114]
  else if c =? 34 then [92; 34]
  else if c =? 92 then [92; 92]
  else if (c <? 32) || is_high_surrogate c || is_low_surrogate c
       then unicode_escape c
  else [c].

(** The string is read by code points: a high surrogate followed by a low
    one is printed as it is, a lone surrogate is escaped. *)
Fixpoint quote_body (s : jsstring) : jsstring :=
  match s with
  | [] => []
  | c :: r =>
      if is_high_surrogate c then
        match r with
        | d :: r' =>
            if is_low_surrogate d then c :: d :: quote_body r'
            else unicode_escape c ++ quote_body r
        | [] => unicode_escape c
        end
      else escape_unit c ++ quote_body r
  end.

Definition quote (s : jsstring) : jsstring := 34 :: quote_body s ++ [34].

Definition hex_value (c : N) : option N :=
  if is_digit c then Some (c - 48)
  else if (97 <=? c) && (c <=? 102) then Some (c - 87)
  else if (65 <=? c) && (c <=? 70) then Some (c - 55)
  else None.

Definition hex4 (a b c d : N) : option N :=
  x ← hex_value a; y ← hex_value b; z ← hex_value c; w ← hex_value d;
  Some (x * 4096 + y * 256 + z * 16 + w).

Definition simple_escape (e : N) : option N :=
  if e =? 34 then Some 34
  else if e =? 92 then Some 92
  else if e =? 47 then Some 47
  else if e =? 98 then Some 8
  else if e =? 102 then Some 12
  else if e =? 110 then Some 10
  else if e =? 114 then Some 13
  else if e =? 116 then Some 9
  else None.

(** The characters of a JSON string after its opening quote, up to and
    including the closing quote. *)
Fixpoint parse_string_body (s : jsstring) : option (jsstring * jsstring) :=
  match s with
  | [] => None
  | c :: r =>
      if c =? 34 then Some ([], r)
      else if c =? 92 then
        match r with
        | e :: r1 =>
            if e =? 117 then
              match r1 with
              | h1 :: h2 :: h3 :: h4 :: r2 =>
                  u ← hex4 h1 h2 h3 h4;
                  '(str, rest) ← parse_string_body r2;
                  Some (u :: str, rest)
              | _ => None
              end
            else
              u ← simple_escape e;
              '(str, rest) ← parse_string_body r1;
              Some (u :: str, rest)
        | [] => None
        end
      else if c <? 32 then None
      else
        '(str, rest) ← parse_string_body r;
        Some (c :: str, rest)
  end.

(** ** Property lists

    The own properties of an object, in creation order. *)

Fixpoint lookup_prop {A} (k : jsstring) (props : list (jsstring * A)) : option A :=
  match props with
  | [] => None
  | (k', v) :: ps => if bool_decide (k' = k) then Some v else lookup_prop k ps
  end.

(** [o[k] = v]: an existing property keeps its place, a new one is added
    last. *)
Fixpoint set_prop {A} (k : jsstring) (v : A) (props : list (jsstring * A))
  : list (jsstring * A) :=
  match props with
  | [] => [(k, v)]
  | (k', v') :: ps =>
      if bool_decide (k' = k) then (k, v) :: ps else (k', v') :: set_prop k v ps
  end.

Definition has_prop {A} (k : jsstring) (props : list (jsstring * A)) : bool :=
  match lookup_prop k props with Some _ => true | None => false end.

(** An array index is the canonical decimal form of an integer below
    [2^32 - 1]. *)
Definition array_index (k : jsstring) : option N :=
  match k with
  | [] => None
  | c :: r =>
      if forallb is_digit k && ((negb (c =? 48)) || is_empty r)
         && (N.of_nat (length k) <=? 10) && (digits_value k <=? 4294967294)
      then Some (digits_value k) else None
  end.

Fixpoint insert_indexed {A} (i : N) (p : jsstring * A)
    (l : list (N * (jsstring * A))) : list (N * (jsstring * A)) :=
  match l with
  | [] => [(i, p)]
  | (j, q) :: l' =>
      if i <? j then (i, p) :: l else (j, q) :: insert_indexed i p l'
  end.

Fixpoint indexed_props {A} (props : list (jsstring * A)) : list (N * (jsstring * A)) :=
  match props with
  | [] => []
  | p :: ps =>
      match array_index p.1 with
      | Some i => insert_indexed i p (indexed_props ps)
      | None => indexed_props ps
      end
  end.

Definition named_props {A} (props : list (jsstring * A)) : list (jsstring * A) :=
  filter (fun p => array_index p.1 = None) props.

(** OrdinaryOwnPropertyKeys: array indices in ascending order, then the
    other keys in creation order. *)
Definition own_order {A} (props : list (jsstring * A)) : list (jsstring * A) :=
  map snd (indexed_props props) ++ named_props props.

(** ** Errors and results *)

Inductive error :=
| TypeError
| SyntaxError
| Error (message : jsstring).

(** The outcome of running a piece of code: a value, a thrown error, or
    [Exotic] when the run leaves what is modelled here: reading the
    [length] of a plain object that has a property of that name, and a
    caret position outside the editor. *)
Inductive result (A : Type) :=
| Ok (a : A)
| Throw (e : error)
| Exotic.
Arguments Ok {A} a.
Arguments Throw {A} e.
Arguments Exotic {A}.

Definition bind {A B} (m : result A) (k : A -> result B) : result B :=
  match m with
  | Ok a => k a
  | Throw e => Throw e
  | Exotic => Exotic
  end.

Notation "'do' x <- m ; k" := (bind m (fun x => k))
  (at level 10, x name, m at level 100, k at level 200,
   format "'do'  x  <-  m ;  '/' k").

Fixpoint map_each {A B} (f : A -> result B) (l : list A) : result (list B) :=
  match l with
  | [] => Ok []
  | x :: l' => do y <- f x; do ys <- map_each f l'; Ok (y :: ys)
  end.

Section Model.
Context {NUM : JSNumber}.

(** ** Values *)

(** An array is an object too: besides its elements it can carry named
    properties ([note.content = ...] on a note that is an array). *)
#[local] Unset Elimination Schemes.
Inductive value :=
| VNull
| VBool (b : bool)
| VNum (n : number)
| VStr (s : jsstring)
| VArr (elems : list value) (props : list (jsstring * value))
| VObj (props : list (jsstring * value)).
#[local] Set Elimination Schemes.

(** The induction principle of [value]: the property holds of the
    elements and of the property values of what it is shown for. *)
Section value_induction.
Variable P : value -> Prop.
Hypothesis Hnull : P VNull.
Hypothesis Hbool : forall b, P (VBool b).
Hypothesis Hnum : forall n, P (VNum n).
Hypothesis Hstr : forall s, P (VStr s).
Hypothesis Harr : forall elems props,
  Forall P elems -> Forall (fun p => P p.2) props -> P (VArr elems props).
Hypothesis Hobj : forall props, Forall (fun p => P p.2) props -> P (VObj props).

Fixpoint value_ind (v : value) : P v :=
  let fix elems_ind (l : list value) : Forall P l :=
    match l with
    | [] => Forall_nil_2 P
    | v :: l' => Forall_cons_2 P v l' (value_ind v) (elems_ind l')
    end in
  let fix props_ind (l : list (jsstring * value)) : Forall (fun p => P p.2) l :=
    match l with
    | [] => Forall_nil_2 _
    | p :: l' => Forall_cons_2 (fun p => P p.2) p l' (value_ind p.2) (props_ind l')
    end in
  match v with
  | VNull => Hnull
  | VBool b => Hbool b
  | VNum n => Hnum n
  | VStr s => Hstr s
  | VArr elems props => Harr elems props (elems_ind elems) (props_ind props)
  | VObj props => Hobj props (props_ind props)
  end.
End value_induction.

Definition truthy (v : value) : bool :=
  match v with
  | VNull => false
  | VBool b => b
  | VNum n => negb (num_is_falsy n)
  | VStr s => negb (is_empty s)
  | VArr _ _ | VObj _ => true
  end.

(** Truthiness of a possibly undefined value. *)
Definition truthy_opt (o : option value) : bool :=
  match o with Some v => truthy v | None => false end.

(** [o || ''] *)
Definition or_empty (o : option value) : value :=
  match o with
  | Some v => if truthy v then v else VStr []
  | None => VStr []
  end.

Definition is_string (o : option value) : bool :=
  match o with Some (VStr _) => true | _ => false end.

(** [o === s] for a string [s]. *)
Definition is_the_string (o : option value) (s : jsstring) : bool :=
  match o with Some (VStr s') => bool_decide (s' = s) | _ => false end.

Definition is_array (v : value) : bool :=
  match v with VArr _ _ => true | _ => false end.

(** ** JSON.stringify *)

Fixpoint join_comma (l : list jsstring) : jsstring :=
  match l with
  | [] => []
  | [x] => x
  | x :: l' => x ++ 44 :: join_comma l'
  end.

Definition print_member (p : jsstring * jsstring) : jsstring :=
  quote p.1 ++ 58 :: p.2.

Fixpoint JSON_stringify (v : value) : jsstring :=
  match v with
  | VNull => js "null"
  | VBool b => if b then js "true" else js "false"
  | VNum n => if num_is_finite n then num_to_string n else js "null"
  | VStr s => quote s
  | VArr elems _ => 91 :: join_comma (map JSON_stringify elems) ++ [93]
  | VObj props =>
      123 :: join_comma (map print_member
               (own_order (map (fun p => (p.1, JSON_stringify p.2)) props)))
          ++ [125]
  end.

(** ** JSON.parse *)

Definition is_json_ws (c : N) : bool :=
  (c =? 9) || (c =? 10) || (c =? 13) || (c =? 32).

Fixpoint skip_ws (s : jsstring) : jsstring :=
  match s with
  | c :: r => if is_json_ws c then skip_ws r else s
  | [] => []
  end.

Fixpoint strip_prefix (p s : jsstring) : option jsstring :=
  match p, s with
  | [], _ => Some s
  | a :: p', b :: s' => if a =? b then strip_prefix p' s' else None
  | _ :: _, [] => None
  end.

Definition parse_literal (word : string) (v : value) (s : jsstring)
  : option (value * jsstring) :=
  r ← strip_prefix (js word) s; Some (v, r).

Fixpoint parse_value (fuel : nat) (s : jsstring) : option (value * jsstring) :=
  match fuel with
  | O => None
  | S fuel =>
      match skip_ws s with
      | [] => None
      | c :: r =>
          if c =? 110 then parse_literal "null" VNull (c :: r)
          else if c =? 116 then parse_literal "true" (VBool true) (c :: r)
          else if c =? 102 then parse_literal "false" (VBool false) (c :: r)
          else if c =? 34 then
            '(str, rest) ← parse_string_body r; Some (VStr str, rest)
          else if c =? 91 then
            match skip_ws r with
            | d :: r' =>
                if d =? 93 then Some (VArr [] [], r')
                else parse_elements fuel r []
            | [] => None
            end
          else if c =? 123 then
            match skip_ws r with
            | d :: r' =>
                if d =? 125 then Some (VObj [], r')
                else parse_members fuel r []
            | [] => None
            end
          else if (c =? 45) || is_digit c then
            '(tok, rest) ← scan_number (c :: r);
            Some (VNum (num_of_literal tok), rest)
          else None
      end
  end
with parse_elements (fuel : nat) (s : jsstring) (acc : list value)
  : option (value * jsstring) :=
  match fuel with
  | O => None
  | S fuel =>
      '(v, r) ← parse_value fuel s;
      match skip_ws r with
      | c :: r' =>
          if c =? 44 then parse_elements fuel r' (acc ++ [v])
          else if c =? 93 then Some (VArr (acc ++ [v]) [], r')
          else None
      | [] => None
      end
  end
with parse_members (fuel : nat) (s : jsstring) (acc : list (jsstring * value))
  : option (value * jsstring) :=
  match fuel with
  | O => None
  | S fuel =>
      match skip_ws s with
      | q :: r0 =>
          if q =? 34 then
            '(k, r1) ← parse_string_body r0;
            match skip_ws r1 with
            | c :: r2 =>
                if c =? 58 then
                  '(v, r3) ← parse_value fuel r2;
                  match skip_ws r3 with
                  | d :: r4 =>
                      if d =? 44 then parse_members fuel r4 (set_prop k v acc)
                      else if d =? 125 then Some (VObj (set_prop k v acc), r4)
                      else None
                  | [] => None
                  end
                else None
            | [] => None
            end
          else None
      | [] => None
      end
  end.

(** [JSON.parse(text)]: one value between optional white space; anything
    else is a [SyntaxError]. No call of the parser needs more fuel than
    twice the length of the text (see [parse_value_fuel]). *)
Definition JSON_parse (text : jsstring) : result value :=
  match parse_value (2 * length text + 2) text with
  | Some (v, rest) => if is_empty (skip_ws rest) then Ok v else Throw SyntaxError
  | None => Throw SyntaxError
  end.

(** The platform prints a finite number as a JSON number token that
    reads back as the same number (numbers are compared with [===],
    which does not tell the two zeros apart). *)
Definition number_round_trip : Prop :=
  forall n, num_is_finite n = true ->
    is_number_token (num_to_string n) = true /\
    num_of_literal (num_to_string n) = n.

(** Values that [JSON.stringify] prints in full: finite numbers, arrays
    without named properties, objects whose keys are distinct and are
    not array indices. *)
Inductive json_clean : value -> Prop :=
| clean_null : json_clean VNull
| clean_bool b : json_clean (VBool b)
| clean_num n : num_is_finite n = true -> json_clean (VNum n)
| clean_str s : json_clean (VStr s)
| clean_arr elems : Forall json_clean elems -> json_clean (VArr elems [])
| clean_obj props :
    NoDup (map fst props) ->
    Forall (fun p => array_index p.1 = None) props ->
    Forall (fun p => json_clean p.2) props ->
    json_clean (VObj props).

(** The first character of a printed value is not white space and
    closes neither an array nor an object. *)
Definition value_start (c : N) : Prop :=
  is_json_ws c = false /\ c <> 93 /\ c <> 125.

(** The members of an object as they are printed, in creation order. *)
Definition members (props : list (jsstring * value)) : list jsstring :=
  map print_member (map (fun p => (p.1, JSON_stringify p.2)) props).

(** ** Reading and writing properties of untyped values

    [get_field], [set_field] and [has_field] are used with the property
    names the program spells out ([content], [drawingData], [id], [title],
    [points], [tool], [color], [thickness], [x], [y]): none of them is an
    array index or [length], and no built-in prototype defines one. *)

(** [v.k] *)
Definition get_field (v : value) (k : jsstring) : result (option value) :=
  match v with
  | VNull => Throw TypeError
  | VBool _ | VNum _ | VStr _ => Ok None
  | VArr _ props | VObj props => Ok (lookup_prop k props)
  end.

(** [v.k = x] in strict mode. *)
Definition set_field (v : value) (k : jsstring) (x : value) : result value :=
  match v with
  | VNull | VBool _ | VNum _ | VStr _ => Throw TypeError
  | VArr elems props => Ok (VArr elems (set_prop k x props))
  | VObj props => Ok (VObj (set_prop k x props))
  end.

(** [k in v] *)
Definition has_field (k : jsstring) (v : value) : result bool :=
  match v with
  | VNull | VBool _ | VNum _ | VStr _ => Throw TypeError
  | VArr _ props | VObj props => Ok (has_prop k props)
  end.

(** [v[i]] for a value that is neither [null] nor [undefined]. *)
Definition index_value (v : value) (i : nat) : option value :=
  match v with
  | VArr elems _ => elems !! i
  | VStr s => (fun c => VStr [c]) <$> s !! i
  | VObj props => lookup_prop (nat_to_string i) props
  | VNull | VBool _ | VNum _ => None
  end.

(** [v.length] for a value that is neither [null] nor [undefined]:
    [Ok None] is [undefined]; an own property named [length] of a plain
    object is not followed. *)
Definition length_of (v : value) : result (option nat) :=
  match v with
  | VArr elems _ => Ok (Some (length elems))
  | VStr s => Ok (Some (length s))
  | VObj props => if has_prop (js "length") props then Exotic else Ok None
  | VNull | VBool _ | VNum _ => Ok None
  end.

(** ** Stroke model *)

Inductive DrawingTool := pen | eraser.

Definition tool_name (t : DrawingTool) : jsstring :=
  match t with pen => js "pen" | eraser => js "eraser" end.

Record Point := { x : number; y : number }.

(** [tool] is [None] for a legacy stroke stored without the field. *)
Record Stroke := {
  tool : option DrawingTool;
  points : list Point;
  color : jsstring;
  thickness : number;
}.

Definition point_value (p : Point) : value :=
  VObj [(js "x", VNum (x p)); (js "y", VNum (y p))].

(** The object [startDrawing] builds and [draw] extends. *)
Definition stroke_value (s : Stroke) : value :=
  VObj (match tool s with
        | Some t => [(js "tool", VStr (tool_name t))]
        | None => []
        end ++
        [(js "points", VArr (map point_value (points s)) []);
         (js "color", VStr (color s));
         (js "thickness", VNum (thickness s))]).

Definition lines_value (strokes : list Stroke) : value :=
  VArr (map stroke_value strokes) [].

(** Coordinates and width of a well-formed stroke are finite numbers. *)
Definition point_wf (p : Point) : Prop :=
  num_is_finite (x p) = true /\ num_is_finite (y p) = true.

Definition stroke_wf (s : Stroke) : Prop :=
  Forall point_wf (points s) /\ num_is_finite (thickness s) = true.

(** ** Stroke capture ([EditablePage]) *)

Record PageState := { isDrawing : bool; lines : value }.

(** The effect on [drawingData] (lines 363-369):
    [setLines(drawingData ? JSON.parse(drawingData) : [])], and [[]] when
    the parse throws. *)
Definition deserialize (drawingData : jsstring) : value :=
  if is_empty drawingData then VArr [] []
  else match JSON_parse drawingData with
       | Ok v => v
       | _ => VArr [] []
       end.

(** [JSON.stringify(lines)] (line 441). *)
Definition serialize (lines : value) : jsstring := JSON_stringify lines.

(** The code points of a string, each as a string: what iterating a
    string yields. *)
Fixpoint code_points (s : jsstring) : list jsstring :=
  match s with
  | [] => []
  | c :: r =>
      match r with
      | d :: r' =>
          if is_high_surrogate c && is_low_surrogate d
          then [c; d] :: code_points r'
          else [c] :: code_points r
      | [] => [[c]]
      end
  end.

(** [[...v]]: arrays and strings are iterable, nothing else that JSON
    yields is. *)
Definition spread (v : value) : result (list value) :=
  match v with
  | VArr elems _ => Ok elems
  | VStr s => Ok (map VStr (code_points s))
  | VNull | VBool _ | VNum _ | VObj _ => Throw TypeError
  end.

Definition startDrawing (drawingTool : option DrawingTool) (penColor : jsstring)
    (penThickness : number) (at_ : Point) (st : PageState) : result PageState :=
  match drawingTool with
  | None => Ok st
  | Some t =>
      let newLine := stroke_value
        {| tool := Some t; points := [at_]; color := penColor;
           thickness := penThickness |} in
      do prevLines <- spread (lines st);
      Ok {| isDrawing := true; lines := VArr (prevLines ++ [newLine]) [] |}
  end.

(** [line.points.push(p)] *)
Definition push_point (p : Point) (line : value) : result value :=
  do pts <- get_field line (js "points");
  match pts with
  | Some (VArr elems props) =>
      set_field line (js "points") (VArr (elems ++ [point_value p]) props)
  | _ => Throw TypeError
  end.

Definition draw (drawingTool : option DrawingTool) (at_ : Point) (st : PageState)
  : result PageState :=
  if negb (isDrawing st) || negb (bool_decide (is_Some drawingTool)) then Ok st
  else
    do newLines <- spread (lines st);
    match newLines !! (length newLines - 1)%nat with
    | Some l =>
        do l' <- push_point at_ l;
        Ok {| isDrawing := isDrawing st;
              lines := VArr (<[(length newLines - 1)%nat := l']> newLines) [] |}
    | None => Ok {| isDrawing := isDrawing st; lines := VArr newLines [] |}
    end.

(** The second component is the call [onDrawingChange(pageIndex,
    newDrawingData)], when it is made. *)
Definition stopDrawing (pageIndex : nat) (drawingData : jsstring) (st : PageState)
  : PageState * option (nat * jsstring) :=
  if negb (isDrawing st) then (st, None)
  else
    let st' := {| isDrawing := false; lines := lines st |} in
    let newDrawingData := JSON_stringify (lines st) in
    if bool_decide (drawingData <> newDrawingData)
    then (st', Some (pageIndex, newDrawingData))
    else (st', None).

(** ** Canvas renderer ([drawOnCanvas])

    The renderer is modelled by the calls it makes on the 2D context, in
    order. *)

Inductive canvas_op :=
| clearRect
| set_globalCompositeOperation (op : jsstring)
| set_strokeStyle (v : option value)
| set_lineWidth (v : option value)
| set_lineCap (v : jsstring)
| set_lineJoin (v : jsstring)
| beginPath
| moveTo (px py : option value)
| lineTo (px py : option value)
| stroke.

(** Code that draws: the calls made so far, and how the run ended. *)
Definition drawing (A : Type) : Type := list canvas_op * result A.

Definition emit (op : canvas_op) : drawing unit := ([op], Ok tt).

Definition lift {A} (r : result A) : drawing A := ([], r).

Definition then_ {A B} (m : drawing A) (k : A -> drawing B) : drawing B :=
  match m with
  | (ops, Ok a) => let '(ops', r) := k a in (ops ++ ops', r)
  | (ops, Throw e) => (ops, Throw e)
  | (ops, Exotic) => (ops, Exotic)
  end.

Notation "'run' x <- m ; k" := (then_ m (fun x => k))
  (at level 10, x name, m at level 100, k at level 200,
   format "'run'  x  <-  m ;  '/' k").
Notation "'exec' m ; k" := (then_ m (fun _ => k))
  (at level 10, m at level 100, k at level 200,
   format "'exec'  m ;  '/' k").

(** [line.points[i].k]: reading a property of [undefined] or [null]
    throws. *)
Definition coord (pts : value) (i : nat) (k : jsstring) : result (option value) :=
  match index_value pts i with
  | None => Throw TypeError
  | Some p => get_field p k
  end.

(** The iterations [i, i + 1, ...] of the loop over the points, [count]
    of them. *)
Fixpoint line_tos (pts : value) (i count : nat) : drawing unit :=
  match count with
  | O => lift (Ok tt)
  | S count =>
      run px <- lift (coord pts i (js "x"));
      run py <- lift (coord pts i (js "y"));
      exec emit (lineTo px py);
      line_tos pts (S i) count
  end.

(** The body of [lines.forEach(line => ...)] (lines 94-117). *)
Definition draw_line (line : value) : drawing unit :=
  if negb (truthy line) then lift (Ok tt)
  else
    run pts <- lift (get_field line (js "points"));
    match pts with
    | None => lift (Ok tt)
    | Some pts =>
        if negb (truthy pts) then lift (Ok tt)
        else
          run len <- lift (length_of pts);
          if match len with Some n => (n <? 2)%nat | None => false end
          then lift (Ok tt)
          else
            run t <- lift (get_field line (js "tool"));
            let tool := if truthy_opt t then t else Some (VStr (js "pen")) in
            exec (if is_the_string tool (js "pen") then
                   exec emit (set_globalCompositeOperation (js "source-over"));
                   run c <- lift (get_field line (js "color"));
                   emit (set_strokeStyle c)
                 else
                   exec emit (set_globalCompositeOperation (js "destination-out"));
                   emit (set_strokeStyle (Some (VStr (js "rgba(0,0,0,1)")))));
            run w <- lift (get_field line (js "thickness"));
            exec emit (set_lineWidth w);
            exec emit (set_lineCap (js "round"));
            exec emit (set_lineJoin (js "round"));
            exec emit beginPath;
            run px <- lift (coord pts 0 (js "x"));
            run py <- lift (coord pts 0 (js "y"));
            exec emit (moveTo px py);
            exec line_tos pts 1 (match len with Some n => n - 1 | None => 0 end)%nat;
            emit stroke
    end.

Fixpoint forEach (f : value -> drawing unit) (l : list value) : drawing unit :=
  match l with
  | [] => lift (Ok tt)
  | v :: l' => exec f v; forEach f l'
  end.

(** What follows [JSON.parse] inside the [try] block. *)
Definition render_lines (lines : value) : drawing unit :=
  match lines with
  | VArr elems _ =>
      exec forEach draw_line elems;
      emit (set_globalCompositeOperation (js "source-over"))
  | _ => lift (Ok tt)
  end.

(** [drawOnCanvas(canvas, drawingData)]: [has_context] tells whether
    [canvas.getContext('2d')] returned a context. A result [Throw e]
    is an error caught by the handler, which prints it with
    [console.error]. *)
Definition drawOnCanvas (has_context : bool) (drawingData : option jsstring)
  : drawing unit :=
  if negb has_context then lift (Ok tt)
  else
    exec emit clearRect;
    match drawingData with
    | None => lift (Ok tt)
    | Some data =>
        if is_empty data then lift (Ok tt)
        else run lines <- lift (JSON_parse data); render_lines lines
    end.

(** *** What the calls do to the surface

    The rasteriser is the platform's: [covers path width p] tells whether
    stroking [path] with line width [width] (round caps and joins) covers
    pixel [p]. A context ignores the assignment of a line width or a
    stroke style it cannot use. A pixel is transparent ([None]) or holds
    ink of the stroke style that painted it. *)

Class Raster := {
  pixel : Type;
  covers : list canvas_op -> option value -> pixel -> bool;
  valid_lineWidth : option value -> bool;
  valid_strokeStyle : option value -> bool;
}.
Context {RASTER : Raster}.

Record canvas := {
  globalCompositeOperation : jsstring;
  strokeStyle : option value;
  lineWidth : option value;
  path : list canvas_op;
  surface : pixel -> option (option value);
}.

(** In mode [destination-out] an opaque stroke makes the pixels it covers
    transparent; the renderer never strokes in that mode with another
    style than the opaque [rgba(0,0,0,1)]. In mode [source-over] the
    stroke paints them. *)
Definition stroke_pixel (c : canvas) (p : pixel) : option (option value) :=
  if covers (path c) (lineWidth c) p then
    if bool_decide (globalCompositeOperation c = js "destination-out")
    then None else Some (strokeStyle c)
  else surface c p.

Definition apply_op (c : canvas) (op : canvas_op) : canvas :=
  match op with
  | clearRect =>
      {| globalCompositeOperation := globalCompositeOperation c;
         strokeStyle := strokeStyle c; lineWidth := lineWidth c;
         path := path c; surface := fun _ => None |}
  | set_globalCompositeOperation m =>
      {| globalCompositeOperation := m;
         strokeStyle := strokeStyle c; lineWidth := lineWidth c;
         path := path c; surface := surface c |}
  | set_strokeStyle v =>
      {| globalCompositeOperation := globalCompositeOperation c;
         strokeStyle := if valid_strokeStyle v then v else strokeStyle c;
         lineWidth := lineWidth c; path := path c; surface := surface c |}
  | set_lineWidth v =>
      {| globalCompositeOperation := globalCompositeOperation c;
         strokeStyle := strokeStyle c;
         lineWidth := if valid_lineWidth v then v else lineWidth c;
         path := path c; surface := surface c |}
  | set_lineCap _ | set_lineJoin _ => c
  | beginPath =>
      {| globalCompositeOperation := globalCompositeOperation c;
         strokeStyle := strokeStyle c; lineWidth := lineWidth c;
         path := []; surface := surface c |}
  | moveTo _ _ | lineTo _ _ =>
      {| globalCompositeOperation := globalCompositeOperation c;
         strokeStyle := strokeStyle c; lineWidth := lineWidth c;
         path := path c ++ [op]; surface := surface c |}
  | stroke =>
      {| globalCompositeOperation := globalCompositeOperation c;
         strokeStyle := strokeStyle c; lineWidth := lineWidth c;
         path := path c; surface := stroke_pixel c |}
  end.

Definition apply_ops (c : canvas) (ops : list canvas_op) : canvas :=
  fold_left apply_op ops c.

(** The path a stroke with these points traces. *)
Definition stroke_path (pts : list Point) : list canvas_op :=
  match pts with
  | [] => []
  | p :: ps =>
      moveTo (Some (VNum (x p))) (Some (VNum (y p)))
      :: map (fun q => lineTo (Some (VNum (x q))) (Some (VNum (y q)))) ps
  end.

(** The calls that draw a stroke of at least two points. *)
Definition stroke_ops (s : Stroke) : list canvas_op :=
  (match tool s with
   | Some eraser =>
       [set_globalCompositeOperation (js "destination-out");
        set_strokeStyle (Some (VStr (js "rgba(0,0,0,1)")))]
   | Some pen | None =>
       [set_globalCompositeOperation (js "source-over");
        set_strokeStyle (Some (VStr (color s)))]
   end) ++
  [set_lineWidth (Some (VNum (thickness s)));
   set_lineCap (js "round"); set_lineJoin (js "round"); beginPath] ++
  stroke_path (points s) ++ [stroke].

(** The calls the renderer makes for a stroke: none for a stroke of
    fewer than two points. *)
Definition rendered_ops (s : Stroke) : list canvas_op :=
  if (length (points s) <? 2)%nat then [] else stroke_ops s.

Definition is_path_op (op : canvas_op) : bool :=
  match op with moveTo _ _ | lineTo _ _ => true | _ => false end.

Definition mode_of (s : Stroke) : jsstring :=
  match tool s with
  | Some eraser => js "destination-out"
  | _ => js "source-over"
  end.

Definition style_of (s : Stroke) : option value :=
  match tool s with
  | Some eraser => Some (VStr (js "rgba(0,0,0,1)"))
  | _ => Some (VStr (color s))
  end.

(** The context when [stroke()] is called for a stroke. *)
Definition context_at_stroke (c : canvas) (s : Stroke) : canvas :=
  {| globalCompositeOperation := mode_of s;
     strokeStyle := if valid_strokeStyle (style_of s) then style_of s
                    else strokeStyle c;
     lineWidth := if valid_lineWidth (Some (VNum (thickness s)))
                  then Some (VNum (thickness s)) else lineWidth c;
     path := stroke_path (points s);
     surface := surface c |}.

(** The stroke with the same points, colour and thickness, drawn with the
    pen. *)
Definition as_pen (s : Stroke) : Stroke :=
  {| tool := Some pen; points := points s; color := color s;
     thickness := thickness s |}.

(** ** Notes *)

(** The labels are Korean; they are given by their code units
    (the first one reads 주일오전예배). *)
Definition SERVICE_TYPES : list jsstring :=
  [ [51452; 51068; 50724; 51204; 50696; 48176];
    [51452; 51068; 50724; 54980; 50696; 48176];
    [49688; 50836; 51068; 51200; 45377; 50696; 48176];
    [49352; 48317; 44592; 46020];
    [53945; 48324; 49444; 44368] ].

(** [createNewNote()]: [now] is [Date.now().toString()] and [today] is
    [new Date().toISOString().split('T')[0]], both read from the clock. *)
Definition createNewNote (now today : jsstring) : value :=
  VObj [(js "id", VStr now);
        (js "title", VStr []);
        (js "date", VStr today);
        (js "serviceType", VStr (nth 0 SERVICE_TYPES []));
        (js "passage", VStr []);
        (js "content", VArr [VStr []] []);
        (js "styles",
          VObj [(js "fontSize", VStr (js "16px"));
                (js "fontFamily", VStr (js "Noto Sans KR"));
                (js "fontWeight", VStr (js "400"))]);
        (js "drawingData", VArr [VStr []] [])].

(** The state of [App] that the page store and the collection live in.
    At run time a note is whatever was loaded or imported ([value]); the
    handlers are written for [SermonNote]. *)
Record AppState (note : Type) := {
  notes : list note;
  currentNote : option note;
  activePageIndex : nat;
}.
#[global] Arguments notes {note} _.
#[global] Arguments currentNote {note} _.
#[global] Arguments activePageIndex {note} _.

(** *** Migration of legacy notes *)

(** Lines 520-523 and 785-788: a note whose [content] is a string or is
    missing gets one page. *)
Definition wrap_legacy (note : value) : result value :=
  do c <- get_field note (js "content");
  if is_string c || negb (truthy_opt c) then
    do note1 <- set_field note (js "content") (VArr [or_empty c] []);
    do d <- get_field note1 (js "drawingData");
    set_field note1 (js "drawingData") (VArr [or_empty d] [])
  else Ok note.

(** [d?.[i]] *)
Definition optional_index (d : option value) (i : nat) : option value :=
  match d with
  | None | Some VNull => None
  | Some v => index_value v i
  end.

(** [v.length] for a value that may be [undefined]. *)
Definition length_of_opt (o : option value) : result (option nat) :=
  match o with
  | None | Some VNull => Throw TypeError
  | Some v => length_of v
  end.

(** Lines 524-530: the drawing data gets one entry for each page. *)
Definition reconcile_drawing (note : value) : result value :=
  do d <- get_field note (js "drawingData");
  do c <- get_field note (js "content");
  do differ <-
    (if negb (truthy_opt d) then Ok true
     else do ld <- length_of_opt d; do lc <- length_of_opt c;
          Ok (negb (bool_decide (ld = lc))));
  if differ : bool then
    do lc <- length_of_opt c;
    let newDrawingData :=
      map (fun i => or_empty (optional_index d i)) (seq 0 (default 0%nat lc)) in
    set_field note (js "drawingData") (VArr newDrawingData [])
  else Ok note.

(** The function mapped over the stored notes on load (lines 518-532). *)
Definition migrate (note : value) : result value :=
  do note1 <- wrap_legacy note;
  reconcile_drawing note1.

(** [x.map(f)] for the result of [JSON.parse]. *)
Definition map_method (f : value -> result value) (x : value) : result (list value) :=
  match x with
  | VArr elems _ => map_each f elems
  | _ => Throw TypeError
  end.

(** [try { ... } catch (error) { ... }] *)
Definition try_catch {A} (body : result A) (handler : error -> A) : result A :=
  match body with
  | Ok a => Ok a
  | Throw e => Ok (handler e)
  | Exotic => Exotic
  end.

(** The effect that loads the notes (lines 514-552); [savedNotes] is
    [localStorage.getItem(LOCAL_STORAGE_KEY)]. The boolean tells whether
    an error was printed with [console.error]. *)
Definition loadNotes (now today : jsstring) (savedNotes : option jsstring)
  : result (AppState value * bool) :=
  let fresh :=
    {| notes := [createNewNote now today];
       currentNote := Some (createNewNote now today);
       activePageIndex := 0%nat |} in
  try_catch
    (match savedNotes with
     | Some (c :: text) =>
         do parsed <- JSON_parse (c :: text);
         do parsedNotes <- map_method migrate parsed;
         Ok ({| notes := parsedNotes;
                currentNote :=
                  Some (match parsedNotes with
                        | n :: _ => n
                        | [] => createNewNote now today
                        end);
                activePageIndex := 0%nat |}, false)
     | Some [] | None => Ok (fresh, false)
     end)
    (fun _ => (fresh, true)).

(** *** Import *)

(** The message shown with [alert]: 유효하지 않은 파일입니다. (the file
    is not valid), or the number of notes imported. *)
Inductive alert :=
| InvalidFile
| Imported (count : nat).

(** The body of the [try] block of [reader.onload] (lines 782-806), up
    to the state updates: the notes to store. *)
Definition imported_notes (text : jsstring) : result (list value) :=
  do importedData <- JSON_parse text;
  if is_array importedData then
    do importedNotes <- map_method wrap_legacy importedData;
    do bad <-
      match importedNotes with
      | first :: _ =>
          do has_id <- has_field (js "id") first;
          if has_id : bool then
            do has_title <- has_field (js "title") first; Ok (negb has_title)
          else Ok true
      | [] => Ok false
      end;
    if bad : bool then Throw (Error (js "Invalid note format"))
    else Ok importedNotes
  else Throw (Error (js "Not an array")).

(** [reader.onload] of [importNotes]; [text] is the content of the chosen
    file. *)
Definition importNotes (now today : jsstring) (text : jsstring)
    (st : AppState value) : result (AppState value * alert) :=
  try_catch
    (do importedNotes <- imported_notes text;
     Ok (match importedNotes with
         | first :: _ =>
             {| notes := importedNotes; currentNote := Some first;
                activePageIndex := 0%nat |}
         | [] =>
             {| notes := [createNewNote now today];
                currentNote := Some (createNewNote now today);
                activePageIndex := 0%nat |}
         end, Imported (length importedNotes)))
    (fun _ => (st, InvalidFile)).

(** The page store invariant on a note as it is at run time: [content]
    and [drawingData] are arrays of the same, non-zero length. *)
Definition aligned (note : value) : bool :=
  match get_field note (js "content"), get_field note (js "drawingData") with
  | Ok (Some (VArr c _)), Ok (Some (VArr d _)) =>
      bool_decide (length c = length d) && bool_decide (1 <= length c)%nat
  | _, _ => false
  end.

(** Values that can carry properties. *)
Definition is_object (v : value) : bool :=
  match v with VObj _ | VArr _ _ => true | _ => false end.

Definition props_of (v : value) : list (jsstring * value) :=
  match v with VObj props | VArr _ props => props | _ => [] end.

Definition elements (v : value) : list value :=
  match v with VArr elems _ => elems | _ => [] end.

(** What [wrap_legacy] makes of an object. *)
Definition wrapped (v : value) : value :=
  let c := lookup_prop (js "content") (props_of v) in
  if is_string c || negb (truthy_opt c) then
    let d := lookup_prop (js "drawingData") (props_of v) in
    let props' :=
      set_prop (js "drawingData") (VArr [or_empty d] [])
        (set_prop (js "content") (VArr [or_empty c] []) (props_of v)) in
    match v with
    | VArr elems _ => VArr elems props'
    | _ => VObj props'
    end
  else v.

(** The parsed payloads that [importNotes] accepts: an array whose
    elements are all objects (or arrays) and whose first element, when
    there is one, has an [id] and a [title]. *)
Definition acceptable (v : value) : bool :=
  match v with
  | VArr elems _ =>
      forallb is_object elems &&
      match elems with
      | first :: _ =>
          has_prop (js "id") (props_of first) && has_prop (js "title") (props_of first)
      | [] => true
      end
  | _ => false
  end.

(** The state an accepted import leaves. *)
Definition imported_state (now today : jsstring) (importedNotes : list value)
  : AppState value :=
  match importedNotes with
  | first :: _ =>
      {| notes := importedNotes; currentNote := Some first; activePageIndex := 0%nat |}
  | [] =>
      {| notes := [createNewNote now today];
         currentNote := Some (createNewNote now today);
         activePageIndex := 0%nat |}
  end.

(** ** The page store of a typed note *)

Record Styles := {
  fontSize : jsstring;
  fontFamily : jsstring;
  fontWeight : jsstring;
}.

(** [interface SermonNote]. An array of strings is a list of slots: a
    slot is [None] where the array has a hole, which an assignment past
    the end of the array leaves behind. *)
Record SermonNote := {
  id : jsstring;
  title : jsstring;
  date : jsstring;
  serviceType : jsstring;
  passage : jsstring;
  content : list (option jsstring);
  styles : Styles;
  drawingData : list (option jsstring);
}.

Definition with_pages (n : SermonNote) (c d : list (option jsstring)) : SermonNote :=
  {| id := id n; title := title n; date := date n;
     serviceType := serviceType n; passage := passage n;
     content := c; styles := styles n; drawingData := d |}.

(** [a[i] = v] on a copy of [a]. *)
Definition array_set {A} (a : list (option A)) (i : nat) (v : A) : list (option A) :=
  if (i <? length a)%nat then <[i := Some v]> a
  else a ++ replicate (i - length a) None ++ [Some v].

(** [s + a[i]] for a slot that exists: a hole reads [undefined]. *)
Definition concat_slot (s : jsstring) (slot : option jsstring) : jsstring :=
  s ++ match slot with Some t => t | None => js "undefined" end.

Definition pages_aligned (n : SermonNote) : Prop :=
  length (content n) = length (drawingData n) /\ (1 <= length (content n))%nat.

(** The typed view of a run-time note ([note as SermonNote], when the
    cast is right). *)
Definition as_string (o : option value) : option jsstring :=
  match o with Some (VStr s) => Some s | _ => None end.

Definition as_pages (o : option value) : option (list (option jsstring)) :=
  match o with
  | Some (VArr elems _) =>
      mapM (fun v => match v with VStr s => Some (Some s) | _ => None end) elems
  | _ => None
  end.

Definition as_note (v : value) : option SermonNote :=
  match v with
  | VObj props =>
      i ← as_string (lookup_prop (js "id") props);
      t ← as_string (lookup_prop (js "title") props);
      d ← as_string (lookup_prop (js "date") props);
      sv ← as_string (lookup_prop (js "serviceType") props);
      p ← as_string (lookup_prop (js "passage") props);
      c ← as_pages (lookup_prop (js "content") props);
      st ← match lookup_prop (js "styles") props with
           | Some (VObj sp) =>
               fs ← as_string (lookup_prop (js "fontSize") sp);
               ff ← as_string (lookup_prop (js "fontFamily") sp);
               fw ← as_string (lookup_prop (js "fontWeight") sp);
               Some {| fontSize := fs; fontFamily := ff; fontWeight := fw |}
           | _ => None
           end;
      dd ← as_pages (lookup_prop (js "drawingData") props);
      Some {| id := i; title := t; date := d; serviceType := sv; passage := p;
              content := c; styles := st; drawingData := dd |}
  | _ => None
  end.

(** [notes.map(n => n.id === currentNote.id ? updatedNote : n)] *)
Definition replace_note (cur updated : SermonNote) (l : list SermonNote)
  : list SermonNote :=
  map (fun n => if bool_decide (id n = id cur) then updated else n) l.

Definition handleContentChange (pageIndex : nat) (value : jsstring)
    (st : AppState SermonNote) : AppState SermonNote :=
  match currentNote st with
  | None => st
  | Some cur =>
      let updatedNote :=
        with_pages cur (array_set (content cur) pageIndex value) (drawingData cur) in
      {| notes := replace_note cur updatedNote (notes st);
         currentNote := Some updatedNote;
         activePageIndex := activePageIndex st |}
  end.

Definition handleDrawingChange (index : nat) (value : jsstring)
    (st : AppState SermonNote) : AppState SermonNote :=
  match currentNote st with
  | None => st
  | Some cur =>
      let updatedNote :=
        with_pages cur (content cur) (array_set (drawingData cur) index value) in
      {| notes := replace_note cur updatedNote (notes st);
         currentNote := Some updatedNote;
         activePageIndex := activePageIndex st |}
  end.

(** [confirmed] is the answer to [window.confirm]. *)
Definition clearDrawing (confirmed : bool) (st : AppState SermonNote)
  : AppState SermonNote :=
  if confirmed then handleDrawingChange (activePageIndex st) [] st else st.

(** The call [onDrawingChange(pageIndex, newDrawingData)] that
    [stopDrawing] may make, as [App] serves it. *)
Definition commit (write : option (nat * jsstring)) (app : AppState SermonNote)
  : AppState SermonNote :=
  match write with
  | Some (index, data) => handleDrawingChange index data app
  | None => app
  end.

(** ** Pagination *)

(** The content of the editable region: text nodes and elements. *)
#[local] Unset Elimination Schemes.
Inductive node :=
| Text (data : jsstring)
| Element (tag : jsstring) (attributes : list (jsstring * jsstring))
    (children : list node).
#[local] Set Elimination Schemes.

(** A boundary point inside a list of nodes: [At k] is offset [k] of the
    container itself (before its child number [k], or before code unit
    [k] of a text node); [Inside j b] is the point [b] of child
    number [j]. *)
Inductive boundary :=
| At (offset : nat)
| Inside (child : nat) (b : boundary).

(** [range.extractContents()] for the range from the boundary point to
    the end of the container, on the children of the container: what
    stays, and the fragment. The node the point lies in is split; the
    elements around the point are cloned into the fragment. [None] when
    the point is not a point of this tree. *)
Fixpoint extractContents (b : boundary) (kids : list node)
  : option (list node * list node) :=
  match b with
  | At k =>
      if (k <=? length kids)%nat then Some (take k kids, drop k kids) else None
  | Inside j b' =>
      match kids !! j with
      | Some (Text data) =>
          match b' with
          | At k =>
              if (k <=? length data)%nat
              then Some (take j kids ++ [Text (take k data)],
                         Text (drop k data) :: drop (S j) kids)
              else None
          | Inside _ _ => None
          end
      | Some (Element tag attrs children) =>
          '(stay, frag) ← extractContents b' children;
          Some (take j kids ++ [Element tag attrs stay],
                Element tag attrs frag :: drop (S j) kids)
      | None => None
      end
  end.

Fixpoint textContent (n : node) : jsstring :=
  match n with
  | Text data => data
  | Element _ _ children => concat (map textContent children)
  end.

(** The characters of a list of nodes, in document order. *)
Definition text_of (kids : list node) : jsstring :=
  concat (map textContent kids).

(** The serialisation of a list of nodes that reading [innerHTML]
    returns is the platform's. The model is run with [serialize_nodes]:
    the HTML fragment serialisation of text nodes and elements. *)
Definition escape_text (data : jsstring) : jsstring :=
  concat (map (fun c =>
    if c =? 38 then js "&amp;"
    else if c =? 160 then js "&nbsp;"
    else if c =? 60 then js "&lt;"
    else if c =? 62 then js "&gt;"
    else [c]) data).

Definition escape_attribute (data : jsstring) : jsstring :=
  concat (map (fun c =>
    if c =? 38 then js "&amp;"
    else if c =? 160 then js "&nbsp;"
    else if c =? 34 then js "&quot;"
    else [c]) data).

Definition void_elements : list jsstring :=
  map js ["area"; "base"; "br"; "col"; "embed"; "hr"; "img"; "input";
          "link"; "meta"; "source"; "track"; "wbr"]%string.

Fixpoint serialize_node (n : node) : jsstring :=
  match n with
  | Text data => escape_text data
  | Element tag attrs children =>
      60 :: tag
      ++ concat (map (fun a => 32 :: a.1 ++ 61 :: 34 :: escape_attribute a.2 ++ [34]) attrs)
      ++ 62 ::
      (if bool_decide (tag ∈ void_elements) then []
       else concat (map serialize_node children) ++ 60 :: 47 :: tag ++ [62])
  end.

Definition serialize_nodes (kids : list node) : jsstring :=
  concat (map serialize_node kids).

Class Serializer := { innerHTML : list node -> jsstring }.
Context {HTML : Serializer}.

(** The editor of the active page, as the effect measures it. *)
Record Editor := {
  scrollHeight : N;
  clientHeight : N;
  childNodes : list node;
}.

(** What one run of the effect leaves: the state, the children of the
    editor (when there is an editor), and whether a warning was
    printed. *)
Record Paginated := {
  state : AppState SermonNote;
  dom : option (list node);
  warned : bool;
}.

(** The update passed to [setCurrentNote] (lines 600-615). *)
Definition split_pages (activePageIndex : nat)
    (currentPageHtml overflowingHtml : jsstring) (prevNote : SermonNote)
  : SermonNote :=
  let newContent := array_set (content prevNote) activePageIndex currentPageHtml in
  match newContent !! S activePageIndex with
  | Some next =>
      with_pages prevNote
        (<[S activePageIndex := Some (concat_slot overflowingHtml next)]> newContent)
        (drawingData prevNote)
  | None =>
      with_pages prevNote
        (newContent ++ [Some overflowingHtml])
        (drawingData prevNote ++ [Some []])
  end.

(** The layout effect (lines 565-620). [editor] is
    [editorRefs.current.get(activePageIndex)] and [caret] the boundary
    point, relative to the editor, of the range that
    [document.caretRangeFromPoint] returns ([None] when it returns
    nothing or does not exist). *)
Definition paginate (editor : option Editor) (caret : option boundary)
    (st : AppState SermonNote) : result Paginated :=
  match currentNote st with
  | None => Ok {| state := st; dom := childNodes <$> editor; warned := false |}
  | Some cur =>
      match editor with
      | None => Ok {| state := st; dom := None; warned := false |}
      | Some ed =>
          if scrollHeight ed <=? clientHeight ed
          then Ok {| state := st; dom := Some (childNodes ed); warned := false |}
          else
            match caret with
            | None => Ok {| state := st; dom := Some (childNodes ed); warned := true |}
            | Some b =>
                match extractContents b (childNodes ed) with
                | None => Exotic
                | Some (stay, fragment) =>
                    let overflowingHtml := innerHTML fragment in
                    if is_empty (js_trim overflowingHtml)
                    then Ok {| state := st; dom := Some stay; warned := false |}
                    else
                      let currentPageHtml := innerHTML stay in
                      Ok {| state :=
                              {| notes := notes st;
                                 currentNote :=
                                   Some (split_pages (activePageIndex st)
                                           currentPageHtml overflowingHtml cur);
                                 activePageIndex := S (activePageIndex st) |};
                            dom := Some stay; warned := false |}
                end
            end
      end
  end.

(** The test for [json_clean], to run on examples. *)
Fixpoint clean (v : value) : bool :=
  match v with
  | VNull | VBool _ | VStr _ => true
  | VNum n => num_is_finite n
  | VArr elems props => is_empty props && forallb clean elems
  | VObj props =>
      bool_decide (NoDup (map fst props))
      && forallb (fun p => bool_decide (array_index p.1 = None)) props
      && forallb (fun p => clean p.2) props
  end.

(** ** Saving and exporting the collection *)

(** The effect that saves the notes (lines 555-563): the text it stores
    under [LOCAL_STORAGE_KEY], none while the initial load is running. *)
Definition autosave (isInitialLoad : bool) (notes : list value) : option jsstring :=
  if isInitialLoad then None else Some (JSON_stringify (VArr notes [])).

Fixpoint join_with (sep : jsstring) (l : list jsstring) : jsstring :=
  match l with
  | [] => []
  | [x] => x
  | x :: l' => x ++ sep ++ join_with sep l'
  end.

(** A member of an object printed with a gap: the key, a colon, a space
    and the value. *)
Definition print_member_spaced (p : jsstring * jsstring) : jsstring :=
  quote p.1 ++ 58 :: 32 :: p.2.

(** What stands between two elements or members printed with a gap: a
    comma, a line break and the indentation. *)
Definition separator (inner : jsstring) : jsstring := 44 :: 10 :: inner.

(** [JSON.stringify(v, null, space)] for a [space] that gives a
    non-empty [gap]; [indent] is the indentation of the line the value
    starts on. The elements of an array and the members of an object
    are printed one on a line, a gap further to the right. *)
Fixpoint stringify_indented (gap indent : jsstring) (v : value) : jsstring :=
  match v with
  | VNull => js "null"
  | VBool b => if b then js "true" else js "false"
  | VNum n => if num_is_finite n then num_to_string n else js "null"
  | VStr s => quote s
  | VArr elems _ =>
      if is_empty elems then js "[]"
      else
        91 :: 10 :: (indent ++ gap)
        ++ join_with (separator (indent ++ gap))
             (map (stringify_indented gap (indent ++ gap)) elems)
        ++ 10 :: indent ++ [93]
  | VObj props =>
      if is_empty props then js "{}"
      else
        123 :: 10 :: (indent ++ gap)
        ++ join_with (separator (indent ++ gap))
             (map print_member_spaced
                (own_order
                   (map (fun p => (p.1, stringify_indented gap (indent ++ gap) p.2))
                      props)))
        ++ 10 :: indent ++ [125]
  end.

(** The members of an object as they are printed with a gap. *)
Definition members_indented (gap inner : jsstring) (props : list (jsstring * value))
  : list jsstring :=
  map print_member_spaced (map (fun p => (p.1, stringify_indented gap inner p.2)) props).

(** The parser reads the indented text of [v] back as [v], whatever
    follows it. *)
Definition reads_back (gap indent : jsstring) (v : value) : Prop :=
  forall fuel rest,
    (2 * length (stringify_indented gap indent v) <= fuel)%nat ->
    ends_number rest = true ->
    parse_value fuel (stringify_indented gap indent v ++ rest) = Some (v, rest).

(** What [exportNotes] does (lines 756-769): it tells that there is
    nothing to export, or offers a file for download. *)
Inductive exported :=
| NothingToExport
| Download (fileName text : jsstring).

Definition exportNotes (notes : list value) : exported :=
  if is_empty notes then NothingToExport
  else Download (js "sermon-notes-backup.json")
         (stringify_indented (js "  ") [] (VArr notes [])).

(** The collection of one fresh note that the load effect and
    [importNotes] fall back on. *)
Definition fresh_collection (now today : jsstring) : AppState value :=
  {| notes := [createNewNote now today];
     currentNote := Some (createNewNote now today);
     activePageIndex := 0%nat |}.

(** The state the load effect leaves for the notes it read. *)
Definition loaded_state (now today : jsstring) (parsedNotes : list value)
  : AppState value :=
  {| notes := parsedNotes;
     currentNote := Some (match parsedNotes with
                          | first :: _ => first
                          | [] => createNewNote now today
                          end);
     activePageIndex := 0%nat |}.

(** ** The handlers of [App] on a typed note *)

(** [createNewNote()] as a [SermonNote]. *)
Definition createdNote (now today : jsstring) : SermonNote :=
  {| id := now; title := []; date := today;
     serviceType := nth 0 SERVICE_TYPES []; passage := [];
     content := [Some []];
     styles := {| fontSize := js "16px"; fontFamily := js "Noto Sans KR";
                  fontWeight := js "400" |};
     drawingData := [Some []] |}.

(** [keyof Omit<SermonNote, 'styles' | 'content' | 'drawingData'>] *)
Inductive NoteField :=
| field_id | field_title | field_date | field_serviceType | field_passage.

(** [{ ...note, [field]: value }] *)
Definition with_field (n : SermonNote) (field : NoteField) (value : jsstring)
  : SermonNote :=
  {| id := match field with field_id => value | _ => id n end;
     title := match field with field_title => value | _ => title n end;
     date := match field with field_date => value | _ => date n end;
     serviceType := match field with field_serviceType => value | _ => serviceType n end;
     passage := match field with field_passage => value | _ => passage n end;
     content := content n; styles := styles n; drawingData := drawingData n |}.

Definition handleNoteChange (field : NoteField) (value : jsstring)
    (st : AppState SermonNote) : AppState SermonNote :=
  match currentNote st with
  | None => st
  | Some cur =>
      let updatedNote := with_field cur field value in
      {| notes := replace_note cur updatedNote (notes st);
         currentNote := Some updatedNote;
         activePageIndex := activePageIndex st |}
  end.

(** The second component is the drawing tool the handler sets. *)
Definition handleNewNote (now today : jsstring) (st : AppState SermonNote)
  : AppState SermonNote * option DrawingTool :=
  let newNote := createdNote now today in
  ({| notes := newNote :: notes st; currentNote := Some newNote;
      activePageIndex := 0%nat |}, None).

(** [notes.find(n => n.id === noteId)] *)
Fixpoint find_note (noteId : jsstring) (l : list SermonNote) : option SermonNote :=
  match l with
  | [] => None
  | n :: l' => if bool_decide (id n = noteId) then Some n else find_note noteId l'
  end.

Definition handleSelectNote (noteId : jsstring) (st : AppState SermonNote)
  : AppState SermonNote :=
  match find_note noteId (notes st) with
  | Some note =>
      {| notes := notes st; currentNote := Some note; activePageIndex := 0%nat |}
  | None => st
  end.

(** The two buttons under the page (lines 927-929). A disabled button
    does nothing; the state is rendered with a current note. *)
Definition previousPage (st : AppState SermonNote) : AppState SermonNote :=
  if bool_decide (activePageIndex st = 0%nat) then st
  else {| notes := notes st; currentNote := currentNote st;
          activePageIndex := (0 `max` (activePageIndex st - 1))%nat |}.

Definition nextPage (st : AppState SermonNote) : AppState SermonNote :=
  match currentNote st with
  | None => st
  | Some cur =>
      if bool_decide (length (content cur) - 1 <= activePageIndex st)%nat then st
      else {| notes := notes st; currentNote := currentNote st;
              activePageIndex :=
                ((length (content cur) - 1) `min` (activePageIndex st + 1))%nat |}
  end.

(** [a[i] || ''] and [a?.[i] || ''] for an array of strings: what
    [EditablePage] receives as [content] and [drawingData] (lines
    911-912). *)
Definition slot_or_empty (a : list (option jsstring)) (i : nat) : jsstring :=
  match a !! i with
  | Some (Some s) => s
  | _ => []
  end.

(** *** What the user can do to the page store

    One step is one call of a handler as the rendered page wires it:
    typing on the active page and ending a stroke on it (the page passes
    its own index, lines 909-918), clearing the drawing, editing a field
    of the note, creating and selecting a note, turning the page, and a
    run of the pagination effect. *)
Inductive ui_step : AppState SermonNote -> AppState SermonNote -> Prop :=
| step_input st html :
    ui_step st (handleContentChange (activePageIndex st) html st)
| step_stroke st data :
    ui_step st (handleDrawingChange (activePageIndex st) data st)
| step_clear st confirmed :
    ui_step st (clearDrawing confirmed st)
| step_field st field value :
    ui_step st (handleNoteChange field value st)
| step_new st now today :
    ui_step st (handleNewNote now today st).1
| step_select st noteId :
    ui_step st (handleSelectNote noteId st)
| step_previous st :
    ui_step st (previousPage st)
| step_next st :
    ui_step st (nextPage st)
| step_paginate st editor caret out :
    paginate editor caret st = Ok out -> ui_step st (state out).

(** Any number of steps, one after the other. *)
Inductive ui_steps : AppState SermonNote -> AppState SermonNote -> Prop :=
| steps_none st : ui_steps st st
| steps_more st st1 st2 : ui_step st st1 -> ui_steps st1 st2 -> ui_steps st st2.

(** The page store as the handlers expect it: every note has as many
    drawings as pages and at least one page, and the active page is a
    page of the current note. *)
Definition store_ok (st : AppState SermonNote) : Prop :=
  Forall pages_aligned (notes st) /\
  exists cur, currentNote st = Some cur /\ pages_aligned cur /\
    (activePageIndex st < length (content cur))%nat.

(** ** A stroke, from pointer down to pointer up *)

Fixpoint fold_each {A S} (f : A -> S -> result S) (l : list A) (s : S) : result S :=
  match l with
  | [] => Ok s
  | a :: l' => do s' <- f a s; fold_each f l' s'
  end.

(** The handlers [EditablePage] runs for a press at [start], a move to
    each point of [moves] and a release (lines 471-477). *)
Definition stroke_gesture (drawingTool : option DrawingTool) (penColor : jsstring)
    (penThickness : number) (pageIndex : nat) (drawingData : jsstring)
    (start : Point) (moves : list Point) (st : PageState)
  : result (PageState * option (nat * jsstring)) :=
  do st1 <- startDrawing drawingTool penColor penThickness start st;
  do st2 <- fold_each (draw drawingTool) moves st1;
  Ok (stopDrawing pageIndex drawingData st2).

(** The stroke such a gesture draws. *)
Definition captured_stroke (t : DrawingTool) (penColor : jsstring)
    (penThickness : number) (start : Point) (moves : list Point) : Stroke :=
  {| tool := Some t; points := start :: moves; color := penColor;
     thickness := penThickness |}.

(** *** Gestures on the active page

    What the user chose in the toolbar and did with the pointer. *)
Record Gesture := {
  drawingTool : DrawingTool;
  penColor : jsstring;
  penThickness : number;
  start : Point;
  moves : list Point;
}.

Definition stroke_of (g : Gesture) : Stroke :=
  captured_stroke (drawingTool g) (penColor g) (penThickness g) (start g) (moves g).

(** One gesture on the active page, through [EditablePage] and back to
    [App]. The page holds the strokes that its effect read from the
    drawing data it was given (lines 363-369 and 912); the gesture runs
    on them; [onDrawingChange] is [handleDrawingChange] (line 918). *)
Definition draw_on_page (g : Gesture) (app : AppState SermonNote)
  : result (AppState SermonNote) :=
  match currentNote app with
  | None => Ok app
  | Some cur =>
      let given := slot_or_empty (drawingData cur) (activePageIndex app) in
      do r <- stroke_gesture (Some (drawingTool g)) (penColor g) (penThickness g)
                (activePageIndex app) given (start g) (moves g)
                {| isDrawing := false; lines := deserialize given |};
      Ok (commit r.2 app)
  end.

(** The effect of [EditablePage] on [content] (lines 379-383): the HTML
    it assigns to the editor, if it assigns any; [editorHtml] is what the
    editor holds, when there is an editor. *)
Definition sync_editor (content : jsstring) (editorHtml : option jsstring)
  : option jsstring :=
  match editorHtml with
  | Some html => if bool_decide (html <> content) then Some content else None
  | None => None
  end.

(** *** The picture of a list of strokes

    What a pixel holds when the strokes have been drawn in order on a
    cleared surface: the ink of the last pen stroke that covers it, or
    nothing when no stroke covers it or an eraser stroke covered it
    last. *)
Definition painted (s : Stroke) (p : pixel) (below : option (option value))
  : option (option value) :=
  if (length (points s) <? 2)%nat then below
  else if covers (stroke_path (points s)) (Some (VNum (thickness s))) p then
    match tool s with
    | Some eraser => None
    | Some pen | None => Some (Some (VStr (color s)))
    end
  else below.

Definition picture (strokes : list Stroke) (p : pixel) : option (option value) :=
  fold_left (fun below s => painted s p below) strokes None.

(** The strokes the context can draw as they are stored. *)
Definition drawable (s : Stroke) : Prop :=
  valid_lineWidth (Some (VNum (thickness s))) = true /\
  valid_strokeStyle (style_of s) = true.

(** ** Presentation mode *)

Fixpoint map_indexed {A B} (f : nat -> A -> result B) (i : nat) (l : list A)
  : result (list B) :=
  match l with
  | [] => Ok []
  | a :: l' => do b <- f i a; do bs <- map_indexed f (S i) l'; Ok (b :: bs)
  end.

(** [{ content, drawingData: note.drawingData[index] || '' }] *)
Definition page_of (note : value) (index : nat) (content : value) : result value :=
  do d <- get_field note (js "drawingData");
  match d with
  | None | Some VNull => Throw TypeError
  | Some all =>
      Ok (VObj [(js "content", content);
                (js "drawingData", or_empty (index_value all index))])
  end.

(** [paginateContent] of [PresentationMode] (lines 240-250): the pages
    passed to [setPages]. Only an array has a [map] method. *)
Definition paginateContent (note : value) : result (list value) :=
  if negb (truthy note) then Ok []
  else
    do c <- get_field note (js "content");
    if negb (truthy_opt c) then Ok []
    else
      match c with
      | Some (VArr pages _) => map_indexed (page_of note) 0 pages
      | _ => Throw TypeError
      end.

(** [goToNext] and [goToPrev] (lines 256-262); [count] is
    [pages.length]. *)
Definition goToNext (count : Z) (p : Z) : Z := ((p + 1) `min` (count - 1))%Z.

Definition goToPrev (p : Z) : Z := ((p - 1) `max` 0)%Z.

(** The state of the presentation: the page shown, and whether the
    presentation is still open. *)
Record Presentation := { currentPage : Z; open : bool }.

(** [handleKeyDown] (lines 265-269); [onClose] closes the
    presentation. *)
Definition handleKeyDown (count : Z) (key : jsstring) (s : Presentation)
  : Presentation :=
  let s1 := if bool_decide (key = js "ArrowRight")
            then {| currentPage := goToNext count (currentPage s); open := open s |}
            else s in
  let s2 := if bool_decide (key = js "ArrowLeft")
            then {| currentPage := goToPrev (currentPage s1); open := open s1 |}
            else s1 in
  if bool_decide (key = js "Escape")
  then {| currentPage := currentPage s2; open := false |}
  else s2.

(** ** The font menu *)

(** The options of the font menu, each a label and a value
    [family,weight]. The labels are Korean; they are given by their code
    units (the first one reads 고딕 (기본)). *)
Definition FONT_FAMILIES : list (jsstring * jsstring) :=
  [ ([44256; 46357; 32; 40; 44592; 48376; 41], js "Noto Sans KR,400");
    ([44256; 46357; 32; 40; 50567; 44172; 41], js "Noto Sans KR,300");
    ([44256; 46357; 32; 40; 44405; 44172; 41], js "Noto Sans KR,700");
    ([47749; 51312; 32; 40; 44592; 48376; 41], js "Nanum Myeongjo,400");
    ([47749; 51312; 32; 40; 44405; 44172; 41], js "Nanum Myeongjo,700");
    ([49569; 47749], js "Song Myung,400");
    ([48148; 53461; 32; 40; 44592; 48376; 41], js "Gowun Batang,400");
    ([48148; 53461; 32; 40; 44405; 44172; 41], js "Gowun Batang,700") ].

(** The first segment of [s] and the segments after it. *)
Fixpoint segments (sep : N) (s : jsstring) : jsstring * list jsstring :=
  match s with
  | [] => ([], [])
  | c :: r =>
      let '(seg, segs) := segments sep r in
      if c =? sep then ([], seg :: segs) else (c :: seg, segs)
  end.

(** [s.split(',')] *)
Definition split_comma (s : jsstring) : list jsstring :=
  let '(seg, segs) := segments 44 s in seg :: segs.

(** [Partial<SermonNote['styles']>] *)
Record ActiveStyles := {
  activeFontSize : option jsstring;
  activeFontFamily : option jsstring;
  activeFontWeight : option jsstring;
}.

(** [a || b] for a string [a] that may be [undefined]. *)
Definition or_else (a : option jsstring) (b : jsstring) : jsstring :=
  match a with
  | Some (c :: s) => c :: s
  | Some [] | None => b
  end.

(** The values the two menus of [Toolbar] show (lines 146-152). *)
Definition currentFontValue (styles : Styles) (activeStyles : ActiveStyles) : jsstring :=
  or_else (activeFontFamily activeStyles) (fontFamily styles)
  ++ 44 :: or_else (activeFontWeight activeStyles) (fontWeight styles).

Definition currentSizeValue (styles : Styles) (activeStyles : ActiveStyles) : jsstring :=
  or_else (activeFontSize activeStyles) (fontSize styles).

Inductive StyleKind := font | size.

(** The values [handleApplyStyle] assigns to the style of the new span
    (lines 660-667): [const [family, weight] = value.split(',')] for a
    font, the value itself for a size. *)
Definition span_style (type : StyleKind) (v : jsstring) : ActiveStyles :=
  match type with
  | font =>
      {| activeFontSize := None;
         activeFontFamily := split_comma v !! 0%nat;
         activeFontWeight := split_comma v !! 1%nat |}
  | size =>
      {| activeFontSize := Some v; activeFontFamily := None;
         activeFontWeight := None |}
  end.

(** What [window.getComputedStyle] tells of the element the selection is
    anchored in. *)
Record ComputedStyle := {
  computedFontFamily : jsstring;
  computedFontWeight : jsstring;
  computedFontSize : jsstring;
}.

(** What [handleSelectionChange] finds: no selection (or no range, or no
    anchor node), an anchor outside the editor, or an anchor in the
    editor and the computed style of its element. *)
Inductive Selected :=
| NoSelection
| OutsideEditor
| InEditor (computedStyle : ComputedStyle).

(** [f.replace(..., '')] with the pattern of a double quote, global:
    every double quote is removed. *)
Definition unquote (f : jsstring) : jsstring :=
  filter (fun c => c <> 34) f.

Definition computedFamilies (computedStyle : ComputedStyle) : list jsstring :=
  map (fun f => js_trim (unquote f)) (split_comma (computedFontFamily computedStyle)).

Fixpoint find_first {A} (p : A -> bool) (l : list A) : option A :=
  match l with
  | [] => None
  | a :: l' => if p a then Some a else find_first p l'
  end.

(** [const [familyName] = f.value.split(',')] *)
Definition familyName (f : jsstring * jsstring) : option jsstring :=
  split_comma f.2 !! 0%nat.

Definition matchedFamily (computedStyle : ComputedStyle) : option (jsstring * jsstring) :=
  find_first
    (fun f => match familyName f with
              | Some name => bool_decide (name ∈ computedFamilies computedStyle)
              | None => false
              end)
    FONT_FAMILIES.

(** [handleSelectionChange] (lines 685-731): the new value of
    [activeStyles]. *)
Definition handleSelectionChange (selected : Selected) (prev : ActiveStyles)
  : ActiveStyles :=
  match selected with
  | NoSelection | OutsideEditor =>
      {| activeFontSize := None; activeFontFamily := None; activeFontWeight := None |}
  | InEditor computedStyle =>
      let newStyles :=
        match matchedFamily computedStyle with
        | Some f =>
            {| activeFontSize := Some (computedFontSize computedStyle);
               activeFontFamily := split_comma f.2 !! 0%nat;
               activeFontWeight := split_comma f.2 !! 1%nat |}
        | None =>
            {| activeFontSize := Some (computedFontSize computedStyle);
               activeFontFamily := computedFamilies computedStyle !! 0%nat;
               activeFontWeight := Some (computedFontWeight computedStyle) |}
        end in
      if bool_decide (activeFontFamily prev <> activeFontFamily newStyles \/
                      activeFontWeight prev <> activeFontWeight newStyles \/
                      activeFontSize prev <> activeFontSize newStyles)
      then newStyles else prev
  end.

(** ** The day of the week

    Dates are the platform's. A time value is a number of milliseconds
    since the epoch; the offset of the local time zone is taken to be a
    whole number of minutes. *)
Class Dates := {
  (** The time value of [new Date(s)], [None] for an invalid date. *)
  parse_date : jsstring -> option Z;
  (** [getTimezoneOffset()] of the date with this time value: the minutes
      that UTC is ahead of local time. *)
  timezoneOffset : Z -> Z;
}.
Context {DATES : Dates}.

Definition msPerDay : Z := 86400000.

(** [new Date(t)] for a number [t] of milliseconds: a date out of range
    is invalid. *)
Definition time_clip (t : Z) : option Z :=
  if bool_decide (-8640000000000000 <= t <= 8640000000000000)%Z then Some t else None.

(** The day of the week of a time value read as UTC: day 0 of the epoch
    was a Thursday. *)
Definition week_day (t : Z) : Z := ((t `div` msPerDay + 4) `mod` 7)%Z.

(** [getDay()]: the day of the week in local time. *)
Definition getDay (t : Z) : Z := week_day (t - timezoneOffset t * 60000)%Z.

(** The names of the days, Sunday first: 일, 월, 화, 수, 목, 금, 토. *)
Definition days : list jsstring :=
  [[51068]; [50900]; [54868]; [49688]; [47785]; [44552]; [53664]].

(** [getDayOfWeek(dateString)] (lines 69-81); [None] is [undefined]. No
    call in the [try] block throws. *)
Definition getDayOfWeek (dateString : jsstring) : option jsstring :=
  if is_empty dateString then Some []
  else
    match parse_date dateString with
    | None => None
    | Some t =>
        match time_clip (t + timezoneOffset t * 60000)%Z with
        | None => None
        | Some adjusted => days !! Z.to_nat (getDay adjusted)
        end
    end.

(** ** The list of notes

    [String.prototype.toLowerCase] is the platform's. *)
Class Casing := { toLowerCase : jsstring -> jsstring }.
Context {CASING : Casing}.

(** [s.includes(sub)] *)
Fixpoint includes (s sub : jsstring) : bool :=
  bool_decide (is_Some (strip_prefix sub s))
  || match s with
     | [] => false
     | _ :: s' => includes s' sub
     end.

(** [a.join(' ')] for an array of strings; a hole gives the empty
    string. *)
Definition join_space (a : list (option jsstring)) : jsstring :=
  join_with [32] (map (default []) a).

(** The test of the filter (lines 826-831), on a typed note. *)
Definition matches (searchTerm : jsstring) (note : SermonNote) : bool :=
  includes (toLowerCase (title note)) (toLowerCase searchTerm)
  || includes (toLowerCase (passage note)) (toLowerCase searchTerm)
  || includes (toLowerCase (join_space (content note))) (toLowerCase searchTerm).

(** [new Date(note.date).getTime()], when the date is valid. *)
Definition time_of (note : SermonNote) : option Z := parse_date (date note).

(** The comparison function does not put [a] after [b]:
    [time(b) - time(a) <= 0], and also when the difference is [NaN],
    which [sort] reads as zero. *)
Definition not_after (a b : SermonNote) : bool :=
  match time_of a, time_of b with
  | Some ta, Some tb => bool_decide (tb <= ta)%Z
  | _, _ => true
  end.

Fixpoint insert_note (a : SermonNote) (l : list SermonNote) : list SermonNote :=
  match l with
  | [] => [a]
  | b :: l' => if not_after a b then a :: l else b :: insert_note a l'
  end.

(** A stable sort: the order [Array.prototype.sort] gives for a
    consistent comparison function. *)
Definition sort_notes (l : list SermonNote) : list SermonNote :=
  foldr insert_note [] l.

(** Every note of the list is followed only by notes that the
    comparison function does not put before it. *)
Fixpoint newest_first (l : list SermonNote) : Prop :=
  match l with
  | [] => True
  | a :: l' => Forall (fun b => not_after a b = true) l' /\ newest_first l'
  end.

(** [filteredNotes] (lines 826-831), the notes the list of notes shows.
    The comparison function is consistent when every date is valid and
    when none is; otherwise the order is the implementation's, and the
    result is [None]. *)
Definition filteredNotes (searchTerm : jsstring) (notes : list SermonNote)
  : option (list SermonNote) :=
  let found := List.filter (matches searchTerm) notes in
  if forallb (fun n => bool_decide (is_Some (time_of n))) found
     || forallb (fun n => bool_decide (time_of n = None)) found
  then Some (sort_notes found) else None.

(** ** Applying a style to the selection *)

#[global] Instance boundary_eq_dec : EqDecision boundary.
Proof. solve_decision. Defined.

(** The boundary point a range collapses to when its contents have been
    extracted and its first point was [s]: [s] itself when [s] is a
    point of the container, the point after the child that [s] lies in
    otherwise. *)
Definition collapsed_at (s : boundary) : boundary :=
  match s with
  | At k => At k
  | Inside j _ => At (S j)
  end.

(** The two points are points of two different children of the
    container, or of the container itself. The tree is split at the
    second point and what comes before it at the first. A first point
    of the container does not lie behind the child the second lies
    in. *)
Definition extract_across (s e : boundary) (kids : list node)
  : option (list node * list node * boundary) :=
  if match s, e with
     | At i, Inside j _ => bool_decide (i <= j)%nat
     | _, _ => true
     end
  then
    '(upto, after) ← extractContents e kids;
    '(before, selected) ← extractContents s upto;
    Some (before ++ after, selected, collapsed_at s)
  else None.

(** The two points lie in the same child: in a text node, whose
    characters between them are taken out, or in an element, whose
    children the extraction goes on with. *)
Fixpoint extract_between (s e : boundary) (kids : list node)
  : option (list node * list node * boundary) :=
  match s, e with
  | Inside a s', Inside b e' =>
      if bool_decide (a = b) then
        match kids !! a with
        | Some (Text data) =>
            match s', e' with
            | At so, At eo =>
                if bool_decide (so <= eo <= length data)%nat
                then Some (<[a := Text (take so data ++ drop eo data)]> kids,
                           [Text (take (eo - so) (drop so data))],
                           Inside a (At so))
                else None
            | _, _ => None
            end
        | Some (Element tag attrs children) =>
            '(children', fragment, at_) ← extract_between s' e' children;
            Some (<[a := Element tag attrs children']> kids, fragment, Inside a at_)
        | None => None
        end
      else extract_across s e kids
  | _, _ => extract_across s e kids
  end.

(** [range.extractContents()] for the range from [s] to [e], two
    boundary points of the container with the children [kids]: what
    stays, the fragment, and the point the range is collapsed to.
    [None] when the points are not points of this tree in this order. *)
Definition extractRange (s e : boundary) (kids : list node)
  : option (list node * list node * boundary) :=
  if bool_decide (s = e) then Some (kids, [], s) else extract_between s e kids.

(** [range.insertNode(n)] for a range collapsed at the point [at_]: a
    text node the point lies in is split in two. *)
Fixpoint insertNode (at_ : boundary) (n : node) (kids : list node)
  : option (list node) :=
  match at_ with
  | At k =>
      if (k <=? length kids)%nat then Some (take k kids ++ n :: drop k kids) else None
  | Inside j at' =>
      match kids !! j with
      | Some (Text data) =>
          match at' with
          | At k =>
              if (k <=? length data)%nat
              then Some (take j kids
                         ++ [Text (take k data); n; Text (drop k data)]
                         ++ drop (S j) kids)
              else None
          | Inside _ _ => None
          end
      | Some (Element tag attrs children) =>
          children' ← insertNode at' n children;
          Some (<[j := Element tag attrs children']> kids)
      | None => None
      end
  end.

(** The characters of the tree before a boundary point, and those after
    it. *)
Definition text_before (b : boundary) (kids : list node) : option jsstring :=
  (fun parts => text_of parts.1) <$> extractContents b kids.

Definition text_after (b : boundary) (kids : list node) : option jsstring :=
  (fun parts => text_of parts.2) <$> extractContents b kids.

(** The two points are points of the tree and the first does not lie
    behind the second: what the boundary points of a range are. *)
Fixpoint in_order (s e : boundary) (kids : list node) : bool :=
  match s, e with
  | At i, At j => bool_decide (i <= j <= length kids)%nat
  | At i, Inside j _ =>
      bool_decide (i <= j)%nat && bool_decide (is_Some (extractContents e kids))
  | Inside a _, At j =>
      bool_decide (a < j <= length kids)%nat
      && bool_decide (is_Some (extractContents s kids))
  | Inside a s', Inside b e' =>
      if bool_decide (a = b) then
        match kids !! a with
        | Some (Text data) =>
            match s', e' with
            | At so, At eo => bool_decide (so <= eo <= length data)%nat
            | _, _ => false
            end
        | Some (Element _ _ children) => in_order s' e' children
        | None => false
        end
      else
        bool_decide (a < b)%nat
        && bool_decide (is_Some (extractContents s kids))
        && bool_decide (is_Some (extractContents e kids))
  end.

(** The [style] attribute of a span is written by the platform from the
    values assigned to its style. *)
Class Stylist := { style_attributes : ActiveStyles -> list (jsstring * jsstring) }.
Context {STYLIST : Stylist}.

(** The selection as [handleApplyStyle] finds it: none (or without a
    range, or collapsed), a range outside the editable region, or a
    range between two boundary points of the editor. *)
Inductive Selection :=
| NothingSelected
| SelectedElsewhere
| SelectedRange (s e : boundary).

(** What [handleApplyStyle] leaves (lines 649-683): the state and the
    children of the editor. *)
Record Styled := {
  styled_state : AppState SermonNote;
  styled_dom : list node;
}.

(** [pageIndex] is the number in the attribute [data-page-index] of the
    editor and [kids] are the children of the editor. The result is
    [None] when the range is not a range of this tree. *)
Definition handleApplyStyle (type : StyleKind) (v : jsstring)
    (selection : Selection) (pageIndex : nat) (kids : list node)
    (st : AppState SermonNote) : option Styled :=
  match currentNote st, selection with
  | None, _ | _, NothingSelected | _, SelectedElsewhere =>
      Some {| styled_state := st; styled_dom := kids |}
  | Some _, SelectedRange s e =>
      if bool_decide (s = e) then Some {| styled_state := st; styled_dom := kids |}
      else
        '(remaining, selectedFragment, at_) ← extractRange s e kids;
        let newSpan :=
          Element (js "span") (style_attributes (span_style type v)) selectedFragment in
        kids' ← insertNode at_ newSpan remaining;
        Some {| styled_state := handleContentChange pageIndex (innerHTML kids') st;
                styled_dom := kids' |}
  end.

(** ** Stored pages read back

    A stored page comes back to an editor through
    [editor.innerHTML = content] (line 381), where the platform parses
    it. The characters of the nodes the editor then holds are read off
    the string, for the strings that [serialize_nodes] writes: a tag
    gives none, from its [<] to the [>] that ends it, what stands
    between double quotes being skipped; each of the four character
    references gives its character; every other code unit gives
    itself. *)
Inductive reading := in_text | in_tag | in_value.

Definition starts_with (p s : jsstring) : bool :=
  match strip_prefix p s with Some _ => true | None => false end.

(** The character of the reference whose name follows the ampersand,
    and the length of the name with its semicolon. *)
Definition reference_at (s : jsstring) : option (N * nat) :=
  if starts_with (js "amp;") s then Some (38, 4%nat)
  else if starts_with (js "nbsp;") s then Some (160, 5%nat)
  else if starts_with (js "lt;") s then Some (60, 3%nat)
  else if starts_with (js "gt;") s then Some (62, 3%nat)
  else None.

(** [skip] counts the code units of a reference still to pass. *)
Fixpoint html_text_from (skip : nat) (m : reading) (s : jsstring) : jsstring :=
  match s with
  | [] => []
  | c :: r =>
      match skip with
      | S n => html_text_from n m r
      | O =>
          match m with
          | in_tag =>
              if c =? 62 then html_text_from 0 in_text r
              else if c =? 34 then html_text_from 0 in_value r
              else html_text_from 0 in_tag r
          | in_value =>
              if c =? 34 then html_text_from 0 in_tag r
              else html_text_from 0 in_value r
          | in_text =>
              if c =? 60 then html_text_from 0 in_tag r
              else if c =? 38 then
                match reference_at r with
                | Some (ch, n) => ch :: html_text_from n in_text r
                | None => c :: html_text_from 0 in_text r
                end
              else c :: html_text_from 0 in_text r
          end
      end
  end.

Definition html_text (s : jsstring) : jsstring := html_text_from 0 in_text s.

(** The nodes an editor holds: the name of an element and the names of
    its attributes have neither a double quote nor a [>], and a void
    element has no children. *)
Definition name_unit (c : N) : bool := negb (c =? 34) && negb (c =? 62).

Fixpoint html_node (n : node) : bool :=
  match n with
  | Text _ => true
  | Element tag attrs children =>
      forallb name_unit tag
      && forallb (fun a : jsstring * jsstring => forallb name_unit a.1) attrs
      && (if bool_decide (tag ∈ void_elements) then is_empty children
          else forallb html_node children)
  end.

(** [innerHTML] writes strings that read back as the characters of the
    nodes, whatever is put behind them. *)
Definition html_reads_back : Prop :=
  forall (kids : list node) (behind : jsstring),
    forallb html_node kids = true ->
    html_text (innerHTML kids ++ behind) = text_of kids ++ html_text behind.

(** White space that is written as itself: every character that [trim]
    removes but the no-break space, which is written [&nbsp;]. *)
Definition plain_space (c : N) : bool := is_js_space c && negb (c =? 160).

(** The fragment holds text nodes only, each of plain white space or
    empty. *)
Definition blank_fragment (fragment : list node) : bool :=
  forallb (fun n => match n with
                    | Text data => forallb plain_space data
                    | Element _ _ _ => false
                    end) fragment.

End Model.

(** ** The platform the examples are run with

    Integers for numbers, a surface of one pixel that every stroke
    covers and on which every width and every style is usable, and
    [serialize_nodes] for [innerHTML]. *)

#[global] Instance OnePixel {NUM : JSNumber} : Raster := {|
  pixel := unit;
  covers _ _ _ := true;
  valid_lineWidth _ := true;
  valid_strokeStyle _ := true;
|}.

#[global] Instance HtmlFragments : Serializer := {| innerHTML := serialize_nodes |}.

Definition int (z : Z) : number (JSNumber := IntNumber) := z.

(** A red pen stroke of three points and an eraser stroke over it. *)
Definition red_stroke : Stroke :=
  {| tool := Some pen;
     points := [ {| x := int 10; y := int 20 |}; {| x := int 11; y := int 21 |};
                 {| x := int 12; y := int 25 |} ];
     color := js "#dc3545"; thickness := int 5 |}.

Definition eraser_stroke : Stroke :=
  {| tool := Some eraser;
     points := [ {| x := int 9; y := int 19 |}; {| x := int 13; y := int 26 |} ];
     color := js "#dc3545"; thickness := int 10 |}.

(** A stroke of one point, and a stroke stored without a tool. *)
Definition dot : Stroke :=
  {| tool := Some pen; points := [ {| x := int 3; y := int 4 |} ];
     color := js "#007bff"; thickness := int 2 |}.

Definition legacy_stroke : Stroke :=
  {| tool := None;
     points := [ {| x := int 1; y := int 2 |}; {| x := int 3; y := int 4 |} ];
     color := js "#212529"; thickness := int 2 |}.

(** The page while the red stroke is being drawn. *)
Definition drawing_red : PageState :=
  {| isDrawing := true; lines := lines_value [red_stroke] |}.

(** A context with ink on its pixel. *)
Definition used_canvas : canvas :=
  {| globalCompositeOperation := js "source-over";
     strokeStyle := Some (VStr (js "#000000"));
     lineWidth := Some (VNum (int 1));
     path := [];
     surface := fun _ => Some (Some (VStr (js "#28a745"))) |}.

(** A note of one page, being edited. *)
Definition one_page (html : jsstring) : SermonNote :=
  {| id := js "1700000000000"; title := js "t"; date := js "2024-05-05";
     serviceType := nth 0 SERVICE_TYPES []; passage := [];
     content := [Some html];
     styles := {| fontSize := js "16px"; fontFamily := js "Noto Sans KR";
                  fontWeight := js "400" |};
     drawingData := [Some []] |}.

Definition editing (n : SermonNote) : AppState SermonNote :=
  {| notes := [n]; currentNote := Some n; activePageIndex := 0%nat |}.

(** A run of text in a larger font. *)
Definition formatted (text : jsstring) : node :=
  Element (js "span") [(js "style", js "font-size: 24px;")] [Text text].

(** An editor whose content is taller than the page. *)
Definition overflowing (kids : list node) : Editor :=
  {| scrollHeight := 1200; clientHeight := 1000; childNodes := kids |}.

(** A backup written before drawings existed: one note of two pages,
    without [drawingData]. *)
Definition legacy_backup : jsstring :=
  json_text "[{'id':'1','title':'t','content':['a','b']}]".

(** A backup whose second note is [null]. *)
Definition backup_with_null : jsstring :=
  json_text "[{'id':'1','title':'t'},null]".

(** The collection before an import. *)
Definition one_note : AppState (value (NUM := IntNumber)) :=
  {| notes := [createNewNote (js "1700000000000") (js "2024-05-05")];
     currentNote := Some (createNewNote (js "1700000000000") (js "2024-05-05"));
     activePageIndex := 0%nat |}.

(** Dates written YYYY-MM-DD, read as midnight UTC of that day; every
    other string is an invalid date. Local time is nine hours ahead of
    UTC all year (Korea Standard Time). *)
Definition days_from_civil (year month day : Z) : Z :=
  let y := if (month <=? 2)%Z then (year - 1)%Z else year in
  let era := (y `div` 400)%Z in
  let yoe := (y - era * 400)%Z in
  let mp := ((month + 9) `mod` 12)%Z in
  let doy := ((153 * mp + 2) `div` 5 + day - 1)%Z in
  let doe := (yoe * 365 + yoe `div` 4 - yoe `div` 100 + doy)%Z in
  (era * 146097 + doe - 719468)%Z.

Definition days_in_month (year month : Z) : Z :=
  if bool_decide (month = 2)%Z then
    if bool_decide (year `mod` 4 = 0 /\ (year `mod` 100 <> 0 \/ year `mod` 400 = 0))%Z
    then 29%Z else 28%Z
  else if bool_decide (month = 4 \/ month = 6 \/ month = 9 \/ month = 11)%Z then 30%Z
  else 31%Z.

Definition iso_date (s : jsstring) : option Z :=
  match s with
  | [y1; y2; y3; y4; 45; m1; m2; 45; d1; d2] =>
      if forallb is_digit [y1; y2; y3; y4; m1; m2; d1; d2] then
        let year := Z.of_N (digits_value [y1; y2; y3; y4]) in
        let month := Z.of_N (digits_value [m1; m2]) in
        let day := Z.of_N (digits_value [d1; d2]) in
        if bool_decide (1 <= month <= 12 /\ 1 <= day <= days_in_month year month)%Z
        then Some (days_from_civil year month day * 86400000)%Z
        else None
      else None
  | _ => None
  end.

#[global] Instance SeoulDates : Dates := {|
  parse_date := iso_date;
  timezoneOffset _ := (-540)%Z;
|}.

(** The text that has 'Noto Sans KR' between double quotes. *)
Definition quoted_family : ComputedStyle :=
  {| computedFontFamily := json_text "'Noto Sans KR', sans-serif";
     computedFontWeight := js "700";
     computedFontSize := js "16px" |}.

(** A note of two pages, read from a backup, without drawings. *)
Definition legacy_note : value (NUM := IntNumber) :=
  VObj [(js "id", VStr (js "1")); (js "title", VStr (js "t"));
        (js "content", VArr [VStr (js "a"); VStr (js "b")] [])].

(** Lower case of the letters A to Z; every other code unit is kept. *)
Definition ascii_lower (c : N) : N :=
  if (65 <=? c) && (c <=? 90) then c + 32 else c.

#[global] Instance AsciiCasing : Casing := {| toLowerCase := map ascii_lower |}.

(** The style attribute: one declaration for every value that has been
    assigned. *)
Definition css_text (st : ActiveStyles) : jsstring :=
  join_with [32]
    (omap (fun d : jsstring * option jsstring =>
             (fun v => d.1 ++ js ": " ++ v ++ js ";") <$> d.2)
       [(js "font-family", activeFontFamily st);
        (js "font-weight", activeFontWeight st);
        (js "font-size", activeFontSize st)]).

#[global] Instance InlineStyle : Stylist :=
  {| style_attributes st := [(js "style", css_text st)] |}.

(** A note of an earlier day. *)
Definition christmas_note : SermonNote :=
  {| id := js "1600000000000"; title := js "Grace"; date := js "2023-12-25";
     serviceType := nth 0 SERVICE_TYPES []; passage := js "John 1";
     content := [Some (js "b")];
     styles := {| fontSize := js "16px"; fontFamily := js "Noto Sans KR";
                  fontWeight := js "400" |};
     drawingData := [Some []] |}.

(** A line drawn with the pen and a line wiped with the eraser. *)
Definition pen_line : Gesture :=
  {| drawingTool := pen; penColor := js "#dc3545"; penThickness := int 5;
     start := {| x := int 10; y := int 20 |};
     moves := [ {| x := int 11; y := int 21 |} ] |}.

Definition wipe : Gesture :=
  {| drawingTool := eraser; penColor := js "#dc3545"; penThickness := int 10;
     start := {| x := int 9; y := int 19 |};
     moves := [ {| x := int 13; y := int 26 |} ] |}.

(** A note of two pages, the first being edited. *)
Definition two_pages (first second : jsstring) : SermonNote :=
  with_pages (one_page first) [Some first; Some second] [Some []; Some []].

(** A page that ends with a no-break space, as an editor writes a space
    typed at the end of a line. *)
Definition trailing_space : jsstring := js "hello" ++ [160].

(** ** Scanning number tokens *)

Lemma ends_number_not_digit rest : ends_number rest = true -> not_digit_head rest.
Proof.
  destruct rest as [|c r]; simpl; [done|].
  intros H. apply negb_true_iff in H.
  repeat (apply orb_false_iff in H; destruct H as [H ?]). done.
Qed.

Lemma span_digits_app s rest ds r :
  span_digits s = (ds, r) -> not_digit_head rest ->
  span_digits (s ++ rest) = (ds, r ++ rest).
Proof.
  revert ds r. induction s as [|c s IH]; intros ds r Hs Hrest; simpl in *.
  - injection Hs as <- <-. destruct rest as [|c r']; simpl in *; [done|].
    by rewrite Hrest.
  - destruct (is_digit c); [|by injection Hs as <- <-].
    destruct (span_digits s) as [ds' r'] eqn:E.
    injection Hs as <- <-. by rewrite (IH _ _ eq_refl Hrest).
Qed.

Lemma scan_int_app s rest i r :
  scan_int s = Some (i, r) -> not_digit_head rest ->
  scan_int (s ++ rest) = Some (i, r ++ rest).
Proof.
  destruct s as [|c s]; simpl; [done|]. intros Hs Hrest.
  destruct (c =? 48); [by injection Hs as <- <-|].
  destruct (is_digit c); [|done].
  destruct (span_digits s) as [ds r'] eqn:E. injection Hs as <- <-.
  by rewrite (span_digits_app _ _ _ _ E Hrest).
Qed.

Lemma scan_frac_app s rest f r :
  scan_frac s = Some (f, r) -> ends_number rest = true ->
  scan_frac (s ++ rest) = Some (f, r ++ rest).
Proof.
  intros Hs Hrest. pose proof (ends_number_not_digit _ Hrest) as Hd.
  destruct s as [|c s]; simpl in *.
  - injection Hs as <- <-. destruct rest as [|c r']; simpl in *; [done|].
    apply negb_true_iff in Hrest.
    repeat (apply orb_false_iff in Hrest; destruct Hrest as [Hrest ?]).
    by replace (c =? 46) with false.
  - destruct (c =? 46); [|by injection Hs as <- <-].
    destruct (span_digits s) as [ds r'] eqn:E.
    rewrite (span_digits_app _ _ _ _ E Hd).
    destruct ds; [done|]. by injection Hs as <- <-.
Qed.

Lemma scan_exp_app s rest e r :
  scan_exp s = Some (e, r) -> ends_number rest = true ->
  scan_exp (s ++ rest) = Some (e, r ++ rest).
Proof.
  intros Hs Hrest. pose proof (ends_number_not_digit _ Hrest) as Hd.
  destruct s as [|c s]; simpl in *.
  - injection Hs as <- <-. destruct rest as [|c r']; simpl in *; [done|].
    apply negb_true_iff in Hrest.
    repeat (apply orb_false_iff in Hrest; destruct Hrest as [Hrest ?]).
    replace (c =? 101) with false by done. by replace (c =? 69) with false.
  - destruct ((c =? 101) || (c =? 69)); [|by injection Hs as <- <-].
    destruct s as [|d s]; simpl in *; [done|].
    destruct ((d =? 43) || (d =? 45)).
    + destruct (span_digits s) as [ds r'] eqn:E.
      rewrite (span_digits_app _ _ _ _ E Hd).
      destruct ds; [done|]. by injection Hs as <- <-.
    + destruct (span_digits (d :: s)) as [ds r'] eqn:E.
      change (d :: s ++ rest) with ((d :: s) ++ rest).
      rewrite (span_digits_app _ _ _ _ E Hd).
      destruct ds; [done|]. by injection Hs as <- <-.
Qed.

Lemma scan_number_app s rest t r :
  scan_number s = Some (t, r) -> ends_number rest = true ->
  scan_number (s ++ rest) = Some (t, r ++ rest).
Proof.
  intros Hs Hrest. pose proof (ends_number_not_digit _ Hrest) as Hd.
  unfold scan_number in *.
  assert (Hm : forall m r0, scan_minus s = (m, r0) ->
             s <> [] -> scan_minus (s ++ rest) = (m, r0 ++ rest)).
  { intros m r0. destruct s as [|c s]; simpl; [done|].
    destruct (c =? 45); by intros [= <- <-]. }
  destruct s as [|c s]; [done|].
  destruct (scan_minus (c :: s)) as [m r0] eqn:E.
  rewrite (Hm _ _ eq_refl) by done.
  destruct (scan_int r0) as [[i r1]|] eqn:Ei; [|done]. simpl in Hs.
  rewrite (scan_int_app _ _ _ _ Ei Hd). simpl.
  destruct (scan_frac r1) as [[f r2]|] eqn:Ef; [|done]. simpl in Hs.
  rewrite (scan_frac_app _ _ _ _ Ef Hrest). simpl.
  destruct (scan_exp r2) as [[e r3]|] eqn:Ee; [|done]. simpl in Hs.
  rewrite (scan_exp_app _ _ _ _ Ee Hrest). simpl.
  by injection Hs as <- <-.
Qed.

Lemma number_token_scan t rest :
  is_number_token t = true -> ends_number rest = true ->
  scan_number (t ++ rest) = Some (t, rest).
Proof.
  unfold is_number_token. intros Ht Hrest.
  destruct (scan_number t) as [[t' [|]]|] eqn:E; try done.
  apply bool_decide_eq_true in Ht as ->.
  by rewrite (scan_number_app _ _ _ _ E Hrest).
Qed.

(** A number token begins with a minus sign or a digit. *)
Lemma number_token_head t :
  is_number_token t = true ->
  exists c r, t = c :: r /\ ((c =? 45) || is_digit c) = true.
Proof.
  unfold is_number_token, scan_number. intros Ht.
  destruct t as [|c r]; [done|]. exists c, r. split; [done|].
  simpl in Ht. destruct (c =? 45) eqn:E; [done|]. simpl in *.
  destruct (c =? 48) eqn:E0.
  - apply N.eqb_eq in E0 as ->. done.
  - destruct (is_digit c); done.
Qed.

(** ** Quoted strings *)

Lemma hex_value_digit d : d < 16 -> hex_value (hex_digit d) = Some d.
Proof.
  intros Hd. unfold hex_digit, hex_value, is_digit.
  destruct (d <? 10) eqn:E.
  - apply N.ltb_lt in E.
    replace (48 <=? 48 + d) with true by (symmetry; apply N.leb_le; lia).
    replace (48 + d <=? 57) with true by (symmetry; apply N.leb_le; lia).
    simpl. f_equal. lia.
  - apply N.ltb_ge in E.
    replace (87 + d <=? 57) with false by (symmetry; apply N.leb_gt; lia).
    rewrite andb_false_r.
    replace (97 <=? 87 + d) with true by (symmetry; apply N.leb_le; lia).
    replace (87 + d <=? 102) with true by (symmetry; apply N.leb_le; lia).
    simpl. f_equal. lia.
Qed.

Lemma parse_unicode_escape c tl str rest :
  c < 65536 ->
  parse_string_body tl = Some (str, rest) ->
  parse_string_body (unicode_escape c ++ tl) = Some (c :: str, rest).
Proof.
  intros Hc Htl. unfold unicode_escape.
  cbn [app parse_string_body].
  change (92 =? 34) with false. change (92 =? 92) with true.
  change (117 =? 117) with true. cbv iota.
  unfold hex4.
  rewrite !hex_value_digit by (apply N.mod_lt; lia).
  cbn [mbind option_bind].
  rewrite Htl. cbn [mbind option_bind].
  do 3 f_equal.
  pose proof (N.Div0.div_mod c 16).
  pose proof (N.Div0.div_mod (c / 16) 16).
  pose proof (N.Div0.div_mod (c / 256) 16).
  pose proof (N.Div0.div_lt_upper_bound c 4096 16).
  rewrite (N.Div0.div_div c 16 16) in *.
  rewrite (N.Div0.div_div c 256 16) in *.
  change (16 * 16) with 256 in *. change (256 * 16) with 4096 in *.
  rewrite (N.mod_small (c / 4096) 16) by (apply N.Div0.div_lt_upper_bound; lia).
  lia.
Qed.

Lemma parse_raw_unit c tl str rest :
  32 <= c -> c <> 34 -> c <> 92 ->
  parse_string_body tl = Some (str, rest) ->
  parse_string_body (c :: tl) = Some (c :: str, rest).
Proof.
  intros H1 H2 H3 Htl. cbn [parse_string_body].
  apply N.eqb_neq in H2, H3. rewrite H2, H3.
  replace (c <? 32) with false by (symmetry; apply N.ltb_ge; lia).
  by rewrite Htl.
Qed.

Lemma parse_escape_unit c tl str rest :
  parse_string_body tl = Some (str, rest) ->
  parse_string_body (escape_unit c ++ tl) = Some (c :: str, rest).
Proof.
  intros Htl. unfold escape_unit.
  repeat match goal with
  | |- context [if ?a =? ?b then _ else _] =>
      destruct (N.eqb_spec a b) as [->|?];
      [cbn [app parse_string_body]; simpl; by rewrite Htl|]
  end.
  destruct ((c <? 32) || is_high_surrogate c || is_low_surrogate c) eqn:E.
  - apply parse_unicode_escape; [|done].
    unfold is_high_surrogate, is_low_surrogate in E.
    apply orb_true_iff in E as [E|E]; [apply orb_true_iff in E as [E|E]|].
    + apply N.ltb_lt in E. lia.
    + apply andb_true_iff in E as [_ E]. apply N.leb_le in E. lia.
    + apply andb_true_iff in E as [_ E]. apply N.leb_le in E. lia.
  - apply orb_false_iff in E as [E _]. apply orb_false_iff in E as [E _].
    apply N.ltb_ge in E. by apply parse_raw_unit.
Qed.

Lemma high_surrogate_range c : is_high_surrogate c = true -> 55296 <= c <= 56319.
Proof.
  unfold is_high_surrogate. intros [H1 H2]%andb_true_iff.
  apply N.leb_le in H1, H2. lia.
Qed.

Lemma low_surrogate_range c : is_low_surrogate c = true -> 56320 <= c <= 57343.
Proof.
  unfold is_low_surrogate. intros [H1 H2]%andb_true_iff.
  apply N.leb_le in H1, H2. lia.
Qed.

Lemma parse_quote_body s rest :
  parse_string_body (quote_body s ++ 34 :: rest) = Some (s, rest).
Proof.
  remember (length s) as n eqn:Hn. revert s Hn.
  induction n as [n IH] using lt_wf_ind. intros s ->.
  destruct s as [|c r]; [done|].
  cbn [quote_body].
  assert (Hrec : parse_string_body (quote_body r ++ 34 :: rest) = Some (r, rest)).
  { apply (IH (length r)); simpl; [lia|done]. }
  destruct (is_high_surrogate c) eqn:Eh.
  - apply high_surrogate_range in Eh.
    destruct r as [|d r'].
    + apply parse_unicode_escape; [lia|done].
    + destruct (is_low_surrogate d) eqn:El.
      * apply low_surrogate_range in El.
        cbn [app]. apply parse_raw_unit; [lia..|].
        apply parse_raw_unit; [lia..|].
        apply (IH (length r')); simpl; [lia|done].
      * rewrite <- app_assoc. apply parse_unicode_escape; [lia|done].
  - rewrite <- app_assoc. by apply parse_escape_unit.
Qed.

Lemma parse_quote s rest :
  exists r, quote s ++ rest = 34 :: r /\ parse_string_body r = Some (s, rest).
Proof.
  exists (quote_body s ++ 34 :: rest). split.
  - unfold quote. simpl. by rewrite <- app_assoc.
  - by apply parse_quote_body.
Qed.

(** ** Round trip through JSON *)

Section Json.
Context {NUM : JSNumber}.

Lemma stringify_head v :
  number_round_trip -> json_clean v ->
  exists c r, JSON_stringify v = c :: r /\ value_start c.
Proof.
  intros LAW Hv. destruct Hv as [|b|n Hn|s|elems _|props _ _ _]; simpl.
  - by eexists _, _.
  - destruct b; by eexists _, _.
  - rewrite Hn. destruct (LAW n Hn) as [Ht _].
    destruct (number_token_head _ Ht) as (c & r & -> & Hc).
    exists c, r. split; [done|].
    unfold value_start, is_json_ws, is_digit in *.
    apply orb_true_iff in Hc as [Hc|Hc].
    + apply N.eqb_eq in Hc as ->. done.
    + apply andb_true_iff in Hc as [H1 H2]. apply N.leb_le in H1, H2.
      repeat split; try lia.
      repeat (apply orb_false_iff; split); apply N.eqb_neq; lia.
  - by eexists _, _.
  - by eexists _, _.
  - by eexists _, _.
Qed.

Lemma skip_ws_start c r : value_start c -> skip_ws (c :: r) = c :: r.
Proof. intros [H _]. simpl. by rewrite H. Qed.

Lemma set_prop_fresh {A} k (v : A) acc :
  k ∉ map fst acc -> set_prop k v acc = acc ++ [(k, v)].
Proof.
  induction acc as [|[k' v'] acc IH]; simpl; [done|].
  intros Hk. apply not_elem_of_cons in Hk as [Hne Hk].
  rewrite bool_decide_eq_false_2 by done. by rewrite IH.
Qed.

Lemma own_order_named {A} (props : list (jsstring * A)) :
  Forall (fun p => array_index p.1 = None) props -> own_order props = props.
Proof.
  intros H. unfold own_order.
  assert (indexed_props props = []) as ->.
  { induction H as [|p l Hp _ IH]; simpl; [done|]. by rewrite Hp. }
  simpl. unfold named_props.
  induction H as [|p l Hp _ IH]; [done|].
  rewrite filter_cons_True by done. by rewrite IH.
Qed.

Lemma own_order_stringify {A} (f : A -> jsstring) (props : list (jsstring * A)) :
  Forall (fun p => array_index p.1 = None) props ->
  own_order (map (fun p => (p.1, f p.2)) props) = map (fun p => (p.1, f p.2)) props.
Proof.
  intros H. apply own_order_named.
  induction H; constructor; done.
Qed.

Lemma length_join_cons a l :
  l <> [] -> length (join_comma (a :: l)) = (length a + 1 + length (join_comma l))%nat.
Proof. destruct l; [done|]. intros _. simpl. rewrite length_app. simpl. lia. Qed.

Lemma join_cons a b l : join_comma (a :: b :: l) = a ++ 44 :: join_comma (b :: l).
Proof. done. Qed.

Lemma ends_number_cons c r :
  (c = 44 \/ c = 93 \/ c = 125) -> ends_number (c :: r) = true.
Proof. intros [->|[->| ->]]; done. Qed.

Lemma parse_elements_stringify (LAW : number_round_trip) elems :
  Forall (fun v => json_clean v /\ forall fuel rest,
            (2 * length (JSON_stringify v) <= fuel)%nat ->
            ends_number rest = true ->
            parse_value fuel (JSON_stringify v ++ rest) = Some (v, rest)) elems ->
  elems <> [] ->
  forall acc fuel rest,
    (2 * length (join_comma (map JSON_stringify elems)) + 1 <= fuel)%nat ->
    parse_elements fuel (join_comma (map JSON_stringify elems) ++ 93 :: rest) acc
    = Some (VArr (acc ++ elems) [], rest).
Proof.
  induction 1 as [|v l [Hv IHv] Hl IH]; [done|]. intros _ acc fuel rest Hfuel.
  destruct fuel as [|fuel]; [lia|].
  destruct l as [|v' l'].
  - simpl in *. rewrite IHv by (done || lia). simpl. done.
  - cbn [map] in *. rewrite join_cons in *.
    rewrite length_app, length_cons in Hfuel.
    rewrite <- app_assoc. cbn [parse_elements].
    rewrite IHv by (done || lia). simpl.
    rewrite IH; [by rewrite <- app_assoc|done|lia].
Qed.

Lemma print_member_eq k (v : value) :
  print_member (k, JSON_stringify v) = 34 :: quote_body k ++ 34 :: 58 :: JSON_stringify v.
Proof. unfold print_member, quote. simpl. by rewrite <- app_assoc. Qed.

Lemma parse_member_key k tail (acc : list (jsstring * value)) fuel :
  parse_members (S fuel) (34 :: quote_body k ++ 34 :: 58 :: tail) acc =
  '(v, r3) ← parse_value fuel tail;
  match skip_ws r3 with
  | d :: r4 =>
      if d =? 44 then parse_members fuel r4 (set_prop k v acc)
      else if d =? 125 then Some (VObj (set_prop k v acc), r4)
      else None
  | [] => None
  end.
Proof.
  cbn [parse_members skip_ws]. change (is_json_ws 34) with false. cbv iota.
  change (34 =? 34) with true. cbv iota.
  rewrite parse_quote_body. cbn [mbind option_bind skip_ws].
  change (is_json_ws 58) with false. cbv iota.
  change (58 =? 58) with true. cbv iota. done.
Qed.

Lemma parse_members_stringify (LAW : number_round_trip) props :
  Forall (fun p => json_clean p.2 /\ forall fuel rest,
            (2 * length (JSON_stringify p.2) <= fuel)%nat ->
            ends_number rest = true ->
            parse_value fuel (JSON_stringify p.2 ++ rest) = Some (p.2, rest)) props ->
  props <> [] ->
  forall acc fuel rest,
    NoDup (map fst (acc ++ props)) ->
    (2 * length (join_comma (members props)) + 1 <= fuel)%nat ->
    parse_members fuel (join_comma (members props) ++ 125 :: rest) acc
    = Some (VObj (acc ++ props), rest).
Proof.
  induction 1 as [|[k v] l [Hv IHv] Hl IH]; [done|].
  intros _ acc fuel rest Hnd Hfuel.
  destruct fuel as [|fuel]; [lia|].
  assert (Hk : k ∉ map fst acc).
  { rewrite map_app in Hnd. apply list.NoDup_app in Hnd as (_ & Hd & _).
    intros Hin. apply (Hd _ Hin). simpl. left. }
  unfold members in *. cbn [map fst snd] in *.
  rewrite print_member_eq in *.
  destruct l as [|p' l'].
  - cbn [map join_comma] in *.
    rewrite length_cons, length_app, !length_cons in Hfuel.
    cbn [app]. rewrite <- app_assoc. cbn [app].
    rewrite parse_member_key.
    rewrite IHv by (done || lia). cbn [mbind option_bind skip_ws].
    change (is_json_ws 125) with false. cbv iota.
    change (125 =? 44) with false. change (125 =? 125) with true. cbv iota.
    by rewrite set_prop_fresh.
  - cbn [map] in *. rewrite join_cons in *.
    rewrite length_app, !length_cons, length_app, !length_cons in Hfuel.
    cbn [app]. rewrite <- ?app_assoc. cbn [app]. rewrite <- ?app_assoc. cbn [app].
    rewrite parse_member_key.
    rewrite IHv by (done || lia). cbn [mbind option_bind skip_ws].
    change (is_json_ws 44) with false. cbv iota.
    change (44 =? 44) with true. cbv iota.
    rewrite set_prop_fresh by done.
    rewrite IH; [by rewrite <- app_assoc|done| |lia].
    by rewrite <- app_assoc.
Qed.

Lemma parse_value_array fuel tail :
  parse_value (S fuel) (91 :: tail) =
  match skip_ws tail with
  | d :: r' => if d =? 93 then Some (VArr [] [], r') else parse_elements fuel tail []
  | [] => None
  end.
Proof. done. Qed.

Lemma parse_value_object fuel tail :
  parse_value (S fuel) (123 :: tail) =
  match skip_ws tail with
  | d :: r' => if d =? 125 then Some (VObj [], r') else parse_members fuel tail []
  | [] => None
  end.
Proof. done. Qed.

Lemma Forall_with {A} (P Q : A -> Prop) l :
  Forall (fun a => P a -> Q a) l -> Forall P l -> Forall (fun a => P a /\ Q a) l.
Proof.
  induction 1 as [|a l Ha _ IH]; [constructor|].
  intros [Hp Hl]%Forall_cons_1. constructor; [split; auto|auto].
Qed.

Lemma parse_stringify (LAW : number_round_trip) v :
  json_clean v ->
  forall fuel rest,
    (2 * length (JSON_stringify v) <= fuel)%nat ->
    ends_number rest = true ->
    parse_value fuel (JSON_stringify v ++ rest) = Some (v, rest).
Proof.
  induction v as [|b|n|s|elems props IHe _|props IHp] using value_ind;
    intros Hv fuel rest Hfuel Hrest.
  - destruct fuel; [simpl in Hfuel; lia|]. done.
  - destruct fuel; [destruct b; simpl in Hfuel; lia|]. by destruct b.
  - inversion Hv as [| |? Hn| | |]; subst.
    destruct (LAW n Hn) as [Ht Hr].
    destruct (number_token_head _ Ht) as (c & r & Hs & Hc).
    simpl in *. rewrite Hn in *. rewrite Hs in *.
    destruct fuel; [simpl in Hfuel; lia|].
    assert (Hstart : is_json_ws c = false /\ c <> 110 /\ c <> 116 /\ c <> 102
                     /\ c <> 34 /\ c <> 91 /\ c <> 123).
    { unfold is_json_ws, is_digit in *.
      apply orb_true_iff in Hc as [Hc|Hc].
      - apply N.eqb_eq in Hc as ->. done.
      - apply andb_true_iff in Hc as [H1 H2]. apply N.leb_le in H1, H2.
        repeat split; try lia.
        repeat (apply orb_false_iff; split); apply N.eqb_neq; lia. }
    destruct Hstart as (Hws & H1 & H2 & H3 & H4 & H5 & H6).
    apply N.eqb_neq in H1, H2, H3, H4, H5, H6.
    cbn [parse_value app skip_ws]. rewrite Hws, H1, H2, H3, H4, H5, H6, Hc.
    change (c :: r ++ rest) with ((c :: r) ++ rest).
    rewrite (number_token_scan _ _ Ht Hrest). simpl. by rewrite Hr.
  - destruct fuel; [simpl in Hfuel; lia|].
    unfold JSON_stringify, quote. cbn [parse_value app skip_ws]. simpl.
    rewrite <- app_assoc. simpl. by rewrite parse_quote_body.
  - inversion Hv as [| | | |? Hall|]; subst.
    destruct fuel; [simpl in Hfuel; lia|].
    cbn [JSON_stringify] in *. cbn [app]. rewrite parse_value_array.
    rewrite <- app_assoc. cbn [app].
    destruct elems as [|e elems']; [done|].
    assert (Hall' : Forall (fun v => json_clean v /\ forall fuel rest,
          (2 * length (JSON_stringify v) <= fuel)%nat ->
          ends_number rest = true ->
          parse_value fuel (JSON_stringify v ++ rest) = Some (v, rest)) (e :: elems')).
    { by apply Forall_with. }
    inversion Hall as [|? ? He _]; subst.
    destruct (stringify_head e LAW He) as (c & r & Hs & Hc).
    assert (Hj : exists r', join_comma (map JSON_stringify (e :: elems')) = c :: r').
    { destruct elems'; cbn [map join_comma]; rewrite Hs; by eexists. }
    destruct Hj as [r' Hj]. rewrite Hj at 1. cbn [app].
    rewrite (skip_ws_start _ _ Hc).
    destruct Hc as (_ & Hc & _). apply N.eqb_neq in Hc. rewrite Hc.
    rewrite (parse_elements_stringify LAW _ Hall'); [done|done|].
    rewrite length_cons, length_app in Hfuel. cbn [length] in Hfuel. lia.
  - inversion Hv as [| | | | |? Hnd Hidx Hall]; subst.
    destruct fuel; [simpl in Hfuel; lia|].
    cbn [JSON_stringify] in *.
    rewrite (own_order_stringify _ _ Hidx) in *.
    fold (members props) in *.
    cbn [app]. rewrite parse_value_object.
    rewrite <- app_assoc. cbn [app].
    destruct props as [|[k v] props']; [done|].
    assert (Hall' : Forall (fun p => json_clean p.2 /\ forall fuel rest,
          (2 * length (JSON_stringify p.2) <= fuel)%nat ->
          ends_number rest = true ->
          parse_value fuel (JSON_stringify p.2 ++ rest) = Some (p.2, rest))
          ((k, v) :: props')).
    { by apply (Forall_with (fun p => json_clean p.2)). }
    assert (Hj : exists r', join_comma (members ((k, v) :: props')) = 34 :: r').
    { unfold members. destruct props'; cbn [map join_comma];
        rewrite print_member_eq; by eexists. }
    destruct Hj as [r' Hj]. rewrite Hj at 1. cbn [app skip_ws].
    change (is_json_ws 34) with false. cbv iota.
    change (34 =? 125) with false. cbv iota.
    rewrite (parse_members_stringify LAW _ Hall'); [done|done|done|].
    rewrite length_cons, length_app in Hfuel. cbn [length] in Hfuel. lia.
Qed.

(** [JSON.parse(JSON.stringify(v))] is [v]. *)
Theorem JSON_round_trip (LAW : number_round_trip) v :
  json_clean v -> JSON_parse (JSON_stringify v) = Ok v.
Proof.
  intros Hv. unfold JSON_parse.
  rewrite <- (app_nil_r (JSON_stringify v)) at 2.
  rewrite parse_stringify by (done || lia). done.
Qed.

End Json.

(** ** The parser never runs out of fuel *)

Lemma skip_ws_length s : (length (skip_ws s) <= length s)%nat.
Proof.
  induction s as [|c s IH]; simpl; [done|]. destruct (is_json_ws c); simpl; lia.
Qed.

Lemma strip_prefix_length p s r :
  strip_prefix p s = Some r -> (length r + length p = length s)%nat.
Proof.
  revert s. induction p as [|a p IH]; intros [|b s]; simpl; try done.
  - by intros [= <-].
  - by intros [= <-].
  - destruct (a =? b); [|done]. intros H%IH. lia.
Qed.

Lemma span_digits_length s ds r :
  span_digits s = (ds, r) -> (length r <= length s)%nat.
Proof.
  revert ds r. induction s as [|c s IH]; simpl; intros ds r.
  - by intros [= <- <-].
  - destruct (is_digit c); [|intros [= <- <-]; simpl; lia].
    destruct (span_digits s) as [ds' r'] eqn:E. intros [= <- <-].
    specialize (IH _ _ eq_refl). lia.
Qed.

Lemma scan_number_length s t r :
  scan_number s = Some (t, r) -> (length r < length s)%nat.
Proof.
  unfold scan_number.
  destruct (scan_minus s) as [m r0] eqn:Em.
  assert (length r0 <= length s)%nat as H0.
  { destruct s as [|c s]; simpl in Em; [by injection Em as <- <-|].
    destruct (c =? 45); injection Em as <- <-; simpl; lia. }
  destruct (scan_int r0) as [[i r1]|] eqn:Ei; [|done]. simpl.
  assert (length r1 < length r0)%nat as H1.
  { destruct r0 as [|c r0]; simpl in Ei; [done|].
    destruct (c =? 48); [injection Ei as <- <-; simpl; lia|].
    destruct (is_digit c); [|done].
    destruct (span_digits r0) as [ds r'] eqn:E. injection Ei as <- <-.
    apply span_digits_length in E. simpl. lia. }
  destruct (scan_frac r1) as [[f r2]|] eqn:Ef; [|done]. simpl.
  assert (length r2 <= length r1)%nat as H2.
  { destruct r1 as [|c r1]; simpl in Ef; [by injection Ef as <- <-|].
    destruct (c =? 46); [|injection Ef as <- <-; simpl; lia].
    destruct (span_digits r1) as [ds r'] eqn:E. apply span_digits_length in E.
    destruct ds; [done|]. injection Ef as <- <-. simpl. lia. }
  destruct (scan_exp r2) as [[e r3]|] eqn:Ee; [|done]. simpl.
  assert (length r3 <= length r2)%nat as H3.
  { destruct r2 as [|c r2]; simpl in Ee; [by injection Ee as <- <-|].
    destruct ((c =? 101) || (c =? 69)); [|injection Ee as <- <-; simpl; lia].
    destruct (scan_sign r2) as [sg r'] eqn:Es.
    assert (length r' <= length r2)%nat.
    { destruct r2 as [|d r2]; simpl in Es; [by injection Es as <- <-|].
      destruct ((d =? 43) || (d =? 45)); injection Es as <- <-; simpl; lia. }
    destruct (span_digits r') as [ds r''] eqn:E. apply span_digits_length in E.
    destruct ds; [done|]. injection Ee as <- <-. simpl. lia. }
  intros [= <- <-]. lia.
Qed.

Lemma parse_string_body_length s str r :
  parse_string_body s = Some (str, r) -> (length r < length s)%nat.
Proof.
  remember (length s) as n eqn:Hn. revert s str r Hn.
  induction n as [n IH] using lt_wf_ind. intros s str r -> Hs.
  destruct s as [|c s]; [done|]. cbn [parse_string_body] in Hs.
  destruct (c =? 34); [injection Hs as <- <-; simpl; lia|].
  destruct (c =? 92).
  - destruct s as [|e s]; [done|].
    destruct (e =? 117).
    + destruct s as [|h1 [|h2 [|h3 [|h4 s]]]]; try done.
      destruct (hex4 h1 h2 h3 h4); [|done]. cbn [mbind option_bind] in Hs.
      destruct (parse_string_body s) as [[str' r']|] eqn:E; [|done].
      injection Hs as <- <-.
      apply (IH (length s)) in E; simpl; [lia|lia|done].
    + destruct (simple_escape e); [|done]. cbn [mbind option_bind] in Hs.
      destruct (parse_string_body s) as [[str' r']|] eqn:E; [|done].
      injection Hs as <- <-.
      apply (IH (length s)) in E; simpl; [lia|lia|done].
  - destruct (c <? 32); [done|].
    destruct (parse_string_body s) as [[str' r']|] eqn:E; [|done].
    injection Hs as <- <-.
    apply (IH (length s)) in E; simpl; [lia|lia|done].
Qed.

Section Fuel.
Context {NUM : JSNumber}.

Lemma parse_literal_length w v s v' r :
  w <> ""%string -> parse_literal w v s = Some (v', r) -> (length r < length s)%nat.
Proof.
  unfold parse_literal. intros Hw.
  destruct (strip_prefix (js w) s) as [r'|] eqn:E; [|done].
  intros [= <- <-]. apply strip_prefix_length in E.
  destruct w; [done|]. simpl in E. lia.
Qed.

(** Every call consumes at least one character. *)
Lemma parse_consumes fuel :
  (forall s v r, parse_value fuel s = Some (v, r) -> (length r < length s)%nat) /\
  (forall s acc v r, parse_elements fuel s acc = Some (v, r) -> (length r < length s)%nat) /\
  (forall s acc v r, parse_members fuel s acc = Some (v, r) -> (length r < length s)%nat).
Proof.
  induction fuel as [|fuel (IHv & IHe & IHm)]; [done|].
  split; [|split].
  - intros s v r. cbn [parse_value].
    pose proof (skip_ws_length s) as Hws.
    destruct (skip_ws s) as [|c t]; [done|]. simpl in Hws.
    destruct (c =? 110); [intros H%parse_literal_length; simpl in *; [lia|done]|].
    destruct (c =? 116); [intros H%parse_literal_length; simpl in *; [lia|done]|].
    destruct (c =? 102); [intros H%parse_literal_length; simpl in *; [lia|done]|].
    destruct (c =? 34).
    { destruct (parse_string_body t) as [[str r']|] eqn:E; [|done].
      intros [= <- <-]. apply parse_string_body_length in E. lia. }
    destruct (c =? 91).
    { pose proof (skip_ws_length t) as Hws'.
      destruct (skip_ws t) as [|d t']; [done|]. simpl in Hws'.
      destruct (d =? 93); [intros [= <- <-]; lia|].
      intros H%IHe. lia. }
    destruct (c =? 123).
    { pose proof (skip_ws_length t) as Hws'.
      destruct (skip_ws t) as [|d t']; [done|]. simpl in Hws'.
      destruct (d =? 125); [intros [= <- <-]; lia|].
      intros H%IHm. lia. }
    destruct ((c =? 45) || is_digit c); [|done].
    destruct (scan_number (c :: t)) as [[tok r']|] eqn:E; [|done].
    intros [= <- <-]. apply scan_number_length in E. simpl in E. lia.
  - intros s acc v r. cbn [parse_elements].
    destruct (parse_value fuel s) as [[v' r']|] eqn:E; [|done].
    apply IHv in E. cbn [mbind option_bind].
    pose proof (skip_ws_length r') as Hws.
    destruct (skip_ws r') as [|c t]; [done|]. simpl in Hws.
    destruct (c =? 44); [intros H%IHe; lia|].
    destruct (c =? 93); [|done]. intros [= <- <-]. lia.
  - intros s acc v r. cbn [parse_members].
    pose proof (skip_ws_length s) as Hws.
    destruct (skip_ws s) as [|q t]; [done|]. simpl in Hws.
    destruct (q =? 34); [|done].
    destruct (parse_string_body t) as [[k r1]|] eqn:Ek; [|done].
    apply parse_string_body_length in Ek. cbn [mbind option_bind].
    pose proof (skip_ws_length r1) as Hws1.
    destruct (skip_ws r1) as [|c r2]; [done|]. simpl in Hws1.
    destruct (c =? 58); [|done].
    destruct (parse_value fuel r2) as [[v' r3]|] eqn:E; [|done].
    apply IHv in E. cbn [mbind option_bind].
    pose proof (skip_ws_length r3) as Hws3.
    destruct (skip_ws r3) as [|d r4]; [done|]. simpl in Hws3.
    destruct (d =? 44); [intros H%IHm; lia|].
    destruct (d =? 125); [|done]. intros [= <- <-]. lia.
Qed.

(** More fuel than twice the length of the text changes nothing. *)
Lemma parse_fuel f1 :
  (forall f2 s, (2 * length s + 2 <= f1)%nat -> (2 * length s + 2 <= f2)%nat ->
     parse_value f1 s = parse_value f2 s) /\
  (forall f2 s acc, (2 * length s + 3 <= f1)%nat -> (2 * length s + 3 <= f2)%nat ->
     parse_elements f1 s acc = parse_elements f2 s acc) /\
  (forall f2 s acc, (2 * length s + 3 <= f1)%nat -> (2 * length s + 3 <= f2)%nat ->
     parse_members f1 s acc = parse_members f2 s acc).
Proof.
  induction f1 as [|f1 (IHv & IHe & IHm)]; [split; [|split]; intros; lia|].
  split; [|split].
  - intros [|f2] s H1 H2; [lia|]. cbn [parse_value].
    pose proof (skip_ws_length s) as Hws.
    destruct (skip_ws s) as [|c t]; [done|]. simpl in Hws.
    repeat (match goal with |- context [if ?b then _ else _] => destruct b end;
            try done).
    + pose proof (skip_ws_length t) as Hws'.
      destruct (skip_ws t) as [|d t']; [done|]. simpl in Hws'.
      destruct (d =? 93); [done|]. apply IHe; lia.
    + pose proof (skip_ws_length t) as Hws'.
      destruct (skip_ws t) as [|d t']; [done|]. simpl in Hws'.
      destruct (d =? 125); [done|]. apply IHm; lia.
  - intros [|f2] s acc H1 H2; [lia|]. cbn [parse_elements].
    rewrite (IHv f2 s) by lia.
    destruct (parse_value f2 s) as [[v' r']|] eqn:E; [|done].
    apply (proj1 (parse_consumes f2)) in E. cbn [mbind option_bind].
    pose proof (skip_ws_length r') as Hws.
    destruct (skip_ws r') as [|c t]; [done|]. simpl in Hws.
    destruct (c =? 44); [|done]. apply IHe; lia.
  - intros [|f2] s acc H1 H2; [lia|]. cbn [parse_members].
    pose proof (skip_ws_length s) as Hws.
    destruct (skip_ws s) as [|q t]; [done|]. simpl in Hws.
    destruct (q =? 34); [|done].
    destruct (parse_string_body t) as [[k r1]|] eqn:Ek; [|done].
    apply parse_string_body_length in Ek. cbn [mbind option_bind].
    pose proof (skip_ws_length r1) as Hws1.
    destruct (skip_ws r1) as [|c r2]; [done|]. simpl in Hws1.
    destruct (c =? 58); [|done].
    rewrite (IHv f2 r2) by lia.
    destruct (parse_value f2 r2) as [[v' r3]|] eqn:E; [|done].
    apply (proj1 (parse_consumes f2)) in E. cbn [mbind option_bind].
    pose proof (skip_ws_length r3) as Hws3.
    destruct (skip_ws r3) as [|d r4]; [done|]. simpl in Hws3.
    destruct (d =? 44); [|done]. apply IHm; lia.
Qed.

(** The fuel [JSON_parse] gives the parser is enough: with any larger
    amount the parser returns the same result, so that a [SyntaxError]
    is never an artefact of the bound. *)
Lemma parse_value_fuel text fuel :
  (2 * length text + 2 <= fuel)%nat ->
  parse_value fuel text = parse_value (2 * length text + 2) text.
Proof. intros H. apply (proj1 (parse_fuel fuel)); lia. Qed.

End Fuel.

(** ** The integer instance round-trips *)

Lemma span_digits_all ds : forallb is_digit ds = true -> span_digits ds = (ds, []).
Proof.
  induction ds as [|d ds IH]; simpl; [done|].
  intros [Hd Hds]%andb_true_iff. rewrite Hd. by rewrite IH.
Qed.

Lemma digits_value_snoc ds d : digits_value (ds ++ [d]) = digits_value ds * 10 + (d - 48).
Proof. unfold digits_value. by rewrite fold_left_app. Qed.

Lemma nat_digits_spec fuel n acc :
  (n < fuel)%nat ->
  exists d ds, nat_digits fuel n acc = d :: ds ++ acc /\
    forallb is_digit (d :: ds) = true /\
    digits_value (d :: ds) = N.of_nat n /\
    (d = 48 -> ds = [] /\ n = 0%nat).
Proof.
  revert n acc. induction fuel as [|fuel IH]; intros n acc Hn; [lia|].
  cbn [nat_digits].
  assert (Hmod : (n `mod` 10 < 10)%nat) by (apply Nat.mod_upper_bound; lia).
  assert (Hdig : is_digit (48 + N.of_nat (n `mod` 10)) = true).
  { unfold is_digit. apply andb_true_iff. split; apply N.leb_le; lia. }
  destruct (n <? 10)%nat eqn:E.
  - apply Nat.ltb_lt in E. rewrite Nat.mod_small by done.
    rewrite Nat.mod_small in Hdig by done.
    exists (48 + N.of_nat n), []. split; [done|split; [|split]].
    + cbn [forallb]. by rewrite Hdig.
    + unfold digits_value. cbn [fold_left]. lia.
    + intros Hd. split; [done|lia].
  - apply Nat.ltb_ge in E.
    assert (Hdiv : (n `div` 10 < fuel)%nat).
    { pose proof (Nat.Div0.div_lt_upper_bound n 10 n). lia. }
    destruct (IH (n `div` 10)%nat ((48 + N.of_nat (n `mod` 10)) :: acc) Hdiv)
      as (d & ds & -> & Hall & Hval & Hzero).
    exists d, (ds ++ [48 + N.of_nat (n `mod` 10)]).
    split; [by rewrite <- app_assoc|split; [|split]].
    + change (d :: ds ++ [48 + N.of_nat (n `mod` 10)])
        with ((d :: ds) ++ [48 + N.of_nat (n `mod` 10)]).
      rewrite forallb_app, Hall. cbn [forallb]. by rewrite Hdig.
    + change (d :: ds ++ [48 + N.of_nat (n `mod` 10)])
        with ((d :: ds) ++ [48 + N.of_nat (n `mod` 10)]).
      rewrite digits_value_snoc, Hval.
      pose proof (Nat.Div0.div_mod n 10). lia.
    + intros Hd. destruct (Hzero Hd) as [_ H0].
      pose proof (Nat.Div0.div_mod n 10). lia.
Qed.

Lemma nat_to_string_spec n :
  exists d ds, nat_to_string n = d :: ds /\
    forallb is_digit (d :: ds) = true /\
    digits_value (d :: ds) = N.of_nat n /\
    (d = 48 -> ds = [] /\ n = 0%nat).
Proof.
  unfold nat_to_string.
  destruct (nat_digits_spec (S n) n [] ltac:(lia)) as (d & ds & -> & H).
  exists d, ds. by rewrite app_nil_r.
Qed.

Lemma scan_digits_token d ds :
  forallb is_digit (d :: ds) = true -> (d = 48 -> ds = []) ->
  scan_number (d :: ds) = Some (d :: ds, []) /\
  scan_number (45 :: d :: ds) = Some (45 :: d :: ds, []).
Proof.
  intros Hall Hzero. simpl in Hall. apply andb_true_iff in Hall as [Hd Hds].
  assert (Hm : (d =? 45) = false).
  { unfold is_digit in Hd. apply andb_true_iff in Hd as [H1 H2].
    apply N.leb_le in H1, H2. apply N.eqb_neq. lia. }
  assert (Hint : scan_int (d :: ds) = Some (d :: ds, [])).
  { simpl. destruct (d =? 48) eqn:E.
    - apply N.eqb_eq in E. by rewrite (Hzero E).
    - rewrite Hd. by rewrite span_digits_all. }
  unfold scan_number. split.
  - cbn [scan_minus]. rewrite Hm, Hint. simpl. by rewrite !app_nil_r.
  - cbn [scan_minus]. change (45 =? 45) with true. cbv iota.
    rewrite Hint. simpl. by rewrite !app_nil_r.
Qed.

Lemma int_round_trip : number_round_trip (NUM := IntNumber).
Proof.
  intros z _. simpl. unfold int_to_string, int_of_literal, is_number_token.
  destruct (nat_to_string_spec (Z.abs_nat z)) as (d & ds & -> & Hall & Hval & Hzero).
  destruct (scan_digits_token d ds Hall (fun H => proj1 (Hzero H))) as [Hp Hn].
  assert (Hm : (d =? 45) = false).
  { simpl in Hall. apply andb_true_iff in Hall as [Hd _].
    unfold is_digit in Hd. apply andb_true_iff in Hd as [H1 H2].
    apply N.leb_le in H1, H2. apply N.eqb_neq. lia. }
  destruct (z <? 0)%Z eqn:E; cbn [app].
  - rewrite Hn. split; [by rewrite bool_decide_eq_true_2|].
    cbn [scan_minus]. change (45 =? 45) with true. cbv iota.
    rewrite (span_digits_all _ Hall). rewrite Hval. simpl.
    apply Z.ltb_lt in E. lia.
  - rewrite Hp. split; [by rewrite bool_decide_eq_true_2|].
    cbn [scan_minus]. rewrite Hm.
    rewrite (span_digits_all _ Hall). rewrite Hval. simpl.
    apply Z.ltb_ge in E. lia.
Qed.

(** ** Stroke model and stroke capture *)

Section Strokes.
Context {NUM : JSNumber}.

Ltac each_member :=
  repeat first [apply Forall_nil_2 | apply Forall_cons_2; [cbn [fst snd]|]].

Lemma point_value_clean p : point_wf p -> json_clean (point_value p).
Proof.
  intros [Hx Hy]. apply clean_obj.
  - cbn [map fst]. compute_done.
  - each_member; done.
  - each_member; by apply clean_num.
Qed.

Lemma stroke_value_clean s : stroke_wf s -> json_clean (stroke_value s).
Proof.
  intros [Hpts Hth]. unfold stroke_value.
  assert (Hp : json_clean (VArr (map point_value (points s)) [])).
  { apply clean_arr. induction Hpts; constructor; auto using point_value_clean. }
  destruct (tool s) as [t|]; apply clean_obj; cbn [app map fst].
  - compute_done.
  - each_member; done.
  - each_member; first [done | apply clean_str | by apply clean_num].
  - compute_done.
  - each_member; done.
  - each_member; first [done | apply clean_str | by apply clean_num].
Qed.

Lemma lines_value_clean strokes :
  Forall stroke_wf strokes -> json_clean (lines_value strokes).
Proof.
  intros H. apply clean_arr.
  induction H; constructor; auto using stroke_value_clean.
Qed.

(** What the effect of [EditablePage] makes of drawing data that is
    empty or does not parse: the empty list. *)
Lemma deserialize_empty : deserialize [] = VArr [] [].
Proof. done. Qed.

Lemma deserialize_malformed drawingData e :
  JSON_parse drawingData = Throw e -> deserialize drawingData = VArr [] [].
Proof. unfold deserialize. intros ->. by destruct (is_empty drawingData). Qed.

(** C5. Deserializing the serialization of a well-formed stroke sequence
    returns the sequence, point for point and field for field, provided
    the platform prints finite numbers so that they read back
    ([number_round_trip]). *)
Theorem deserialize_serialize (LAW : number_round_trip) (strokes : list Stroke) :
  Forall stroke_wf strokes ->
  deserialize (serialize (lines_value strokes)) = lines_value strokes.
Proof.
  intros Hwf. unfold deserialize, serialize.
  rewrite (JSON_round_trip LAW) by by apply lines_value_clean.
  done.
Qed.

(** C7. Ending a gesture commits the serialization of the stroke list at
    the page index exactly when it differs from the drawing data the
    page was given; when it is the same, nothing is written and the
    page store stays as it is. *)
Theorem stopDrawing_commits_changes (pageIndex : nat) (drawingData : jsstring)
    (st : PageState) (app : AppState SermonNote) :
  isDrawing st = true ->
  (serialize (lines st) <> drawingData ->
     (stopDrawing pageIndex drawingData st).2
     = Some (pageIndex, serialize (lines st))) /\
  (serialize (lines st) = drawingData ->
     (stopDrawing pageIndex drawingData st).2 = None /\
     commit (stopDrawing pageIndex drawingData st).2 app = app).
Proof.
  intros Hd. unfold stopDrawing, serialize. rewrite Hd. cbn [negb].
  split; intros H.
  - by rewrite bool_decide_eq_true_2.
  - by rewrite bool_decide_eq_false_2 by (intros H'; by apply H').
Qed.

(** Outside a gesture nothing is written either. *)
Lemma stopDrawing_idle pageIndex drawingData st :
  isDrawing st = false -> stopDrawing pageIndex drawingData st = (st, None).
Proof. unfold stopDrawing. by intros ->. Qed.

End Strokes.

(** ** Canvas renderer *)

Section Renderer.
Context {NUM : JSNumber}.

Lemma then_ok {A B} ops (a : A) (k : A -> drawing B) :
  then_ (ops, Ok a) k = (ops ++ (k a).1, (k a).2).
Proof. unfold then_. by destruct (k a). Qed.

Lemma then_lift {A B} (a : A) (k : A -> drawing B) : then_ (lift (Ok a)) k = k a.
Proof. unfold lift. rewrite then_ok. by destruct (k a). Qed.

Lemma then_emit {B} op (k : unit -> drawing B) :
  then_ (emit op) k = (op :: (k tt).1, (k tt).2).
Proof. unfold emit. by rewrite then_ok. Qed.

Lemma line_tos_points (before pts : list Point) :
  line_tos (VArr (map point_value (before ++ pts)) []) (length before) (length pts)
  = (map (fun q => lineTo (Some (VNum (x q))) (Some (VNum (y q)))) pts, Ok tt).
Proof.
  revert before. induction pts as [|p pts IH]; intros before; [done|].
  cbn [line_tos length].
  assert (Hp : index_value (VArr (map point_value (before ++ p :: pts)) [])
                 (length before) = Some (point_value p)).
  { cbn [index_value]. rewrite list_lookup_fmap.
    by rewrite list_lookup_middle. }
  unfold coord. rewrite Hp. cbn [point_value get_field].
  change (lookup_prop (js "x") [(js "x", VNum (x p)); (js "y", VNum (y p))])
    with (Some (VNum (x p))).
  change (lookup_prop (js "y") [(js "x", VNum (x p)); (js "y", VNum (y p))])
    with (Some (VNum (y p))).
  rewrite !then_lift, then_emit.
  replace (before ++ p :: pts) with ((before ++ [p]) ++ pts) by by rewrite <- app_assoc.
  replace (S (length before)) with (length (before ++ [p]))
    by (rewrite length_app; simpl; lia).
  by rewrite IH.
Qed.

(** A stroke of fewer than two points makes no call on the context. *)
Lemma draw_line_degenerate (s : Stroke) :
  (length (points s) < 2)%nat -> draw_line (stroke_value s) = ([], Ok tt).
Proof.
  intros Hlen. unfold draw_line, stroke_value.
  cbn [truthy negb]. cbv iota.
  assert (Hpts : get_field
            (VObj (match tool s with
                   | Some t => [(js "tool", VStr (tool_name t))]
                   | None => []
                   end ++
                   [(js "points", VArr (map point_value (points s)) []);
                    (js "color", VStr (color s));
                    (js "thickness", VNum (thickness s))])) (js "points")
          = Ok (Some (VArr (map point_value (points s)) []))).
  { by destruct (tool s). }
  rewrite Hpts, then_lift. cbn [truthy negb length_of]. cbv iota.
  rewrite then_lift, length_map.
  by replace (length (points s) <? 2)%nat with true
    by (symmetry; apply Nat.ltb_lt; lia).
Qed.

(** A stroke of two points or more is drawn by [stroke_ops]. *)
Lemma draw_line_stroke (s : Stroke) :
  (2 <= length (points s))%nat -> draw_line (stroke_value s) = (stroke_ops s, Ok tt).
Proof.
  intros Hlen. unfold draw_line, stroke_value, stroke_ops.
  cbn [truthy negb]. cbv iota.
  set (props := (match tool s with
                 | Some t => [(js "tool", VStr (tool_name t))]
                 | None => []
                 end ++
                 [(js "points", VArr (map point_value (points s)) []);
                  (js "color", VStr (color s));
                  (js "thickness", VNum (thickness s))])).
  assert (Hpts : get_field (VObj props) (js "points")
                 = Ok (Some (VArr (map point_value (points s)) []))).
  { subst props. by destruct (tool s). }
  assert (Hcol : get_field (VObj props) (js "color") = Ok (Some (VStr (color s)))).
  { subst props. by destruct (tool s). }
  assert (Hth : get_field (VObj props) (js "thickness")
                = Ok (Some (VNum (thickness s)))).
  { subst props. by destruct (tool s). }
  assert (Htool : get_field (VObj props) (js "tool")
                  = Ok (VStr <$> (tool_name <$> tool s))).
  { subst props. by destruct (tool s). }
  rewrite Hpts, then_lift. cbn [truthy negb length_of]. cbv iota.
  rewrite then_lift, length_map.
  replace (length (points s) <? 2)%nat with false
    by (symmetry; apply Nat.ltb_ge; lia).
  rewrite Htool, then_lift, Hth.
  destruct (points s) as [|p pts] eqn:Epts; [simpl in Hlen; lia|].
  assert (Hline : line_tos (VArr (map point_value (p :: pts)) []) 1
                    (length (p :: pts) - 1)
                  = (map (fun q => lineTo (Some (VNum (x q))) (Some (VNum (y q)))) pts,
                     Ok tt)).
  { replace (length (p :: pts) - 1)%nat with (length pts) by (simpl; lia).
    apply (line_tos_points [p] pts). }
  assert (Hfirst : forall k, coord (VArr (map point_value (p :: pts)) []) 0 k
                             = get_field (point_value p) k) by done.
  rewrite !Hfirst. cbn [point_value get_field].
  change (lookup_prop (js "x") [(js "x", VNum (x p)); (js "y", VNum (y p))])
    with (Some (VNum (x p))).
  change (lookup_prop (js "y") [(js "x", VNum (x p)); (js "y", VNum (y p))])
    with (Some (VNum (y p))).
  cbn [stroke_path].
  destruct (tool s) as [[|]|]; cbn [fmap option_fmap option_map tool_name truthy_opt truthy];
    [change (negb (is_empty (js "pen"))) with true
    |change (negb (is_empty (js "eraser"))) with true
    |]; cbv iota;
    [change (is_the_string (Some (VStr (js "pen"))) (js "pen")) with true
    |change (is_the_string (Some (VStr (js "eraser"))) (js "pen")) with false
    |change (is_the_string (Some (VStr (js "pen"))) (js "pen")) with true];
    cbv iota;
    rewrite ?Hcol, ?then_lift, ?then_emit; cbn [fst snd];
    rewrite ?then_lift, ?then_emit; cbn [fst snd];
    rewrite ?then_ok, ?then_lift, ?then_emit; cbn [fst snd];
    rewrite ?then_lift, ?then_emit; cbn [fst snd];
    rewrite Hline; cbn [fst snd then_ emit app]; done.
Qed.


Lemma draw_line_typed s : draw_line (stroke_value s) = (rendered_ops s, Ok tt).
Proof.
  unfold rendered_ops. destruct (length (points s) <? 2)%nat eqn:E.
  - apply Nat.ltb_lt in E. by apply draw_line_degenerate.
  - apply Nat.ltb_ge in E. by apply draw_line_stroke.
Qed.

Lemma forEach_typed strokes :
  forEach draw_line (map stroke_value strokes)
  = (concat (map rendered_ops strokes), Ok tt).
Proof.
  induction strokes as [|s l IH]; [done|].
  cbn [map forEach concat]. rewrite draw_line_typed, then_ok, IH. done.
Qed.

Lemma render_lines_typed strokes :
  render_lines (lines_value strokes)
  = (concat (map rendered_ops strokes)
       ++ [set_globalCompositeOperation (js "source-over")], Ok tt).
Proof.
  unfold render_lines, lines_value. rewrite forEach_typed, then_ok. done.
Qed.

Lemma JSON_parse_nonempty text v : JSON_parse text = Ok v -> is_empty text = false.
Proof. by destruct text. Qed.

Lemma drawOnCanvas_typed data strokes :
  JSON_parse data = Ok (lines_value strokes) ->
  drawOnCanvas true (Some data)
  = (clearRect :: concat (map rendered_ops strokes)
       ++ [set_globalCompositeOperation (js "source-over")], Ok tt).
Proof.
  intros Hp. unfold drawOnCanvas. cbn [negb].
  rewrite (JSON_parse_nonempty _ _ Hp), Hp.
  rewrite then_emit, then_lift, render_lines_typed. done.
Qed.

(** *** The surface *)

Context {RASTER : Raster}.

Lemma apply_ops_app c l1 l2 : apply_ops c (l1 ++ l2) = apply_ops (apply_ops c l1) l2.
Proof. unfold apply_ops. by rewrite fold_left_app. Qed.

Lemma apply_path_ops c ops :
  forallb is_path_op ops = true ->
  apply_ops c ops =
  {| globalCompositeOperation := globalCompositeOperation c;
     strokeStyle := strokeStyle c; lineWidth := lineWidth c;
     path := path c ++ ops; surface := surface c |}.
Proof.
  revert c. induction ops as [|op ops IH]; intros c Hall.
  - simpl. rewrite app_nil_r. by destruct c.
  - cbn [forallb] in Hall. apply andb_true_iff in Hall as [Hop Hall].
    change (apply_ops c (op :: ops)) with (apply_ops (apply_op c op) ops).
    rewrite IH by done.
    destruct op; try done; simpl; by rewrite <- app_assoc.
Qed.

Lemma stroke_path_ops pts : forallb is_path_op (stroke_path pts) = true.
Proof.
  destruct pts as [|p pts]; [done|]. simpl.
  induction pts; simpl; auto.
Qed.

Lemma apply_stroke_ops c s :
  apply_ops c (stroke_ops s) =
  {| globalCompositeOperation := mode_of s;
     strokeStyle := strokeStyle (context_at_stroke c s);
     lineWidth := lineWidth (context_at_stroke c s);
     path := stroke_path (points s);
     surface := stroke_pixel (context_at_stroke c s) |}.
Proof.
  unfold stroke_ops. rewrite !apply_ops_app.
  rewrite (apply_path_ops _ (stroke_path (points s))) by apply stroke_path_ops.
  unfold context_at_stroke, mode_of, style_of.
  destruct (tool s) as [[|]|]; reflexivity.
Qed.

Lemma surface_reset c m :
  surface (apply_ops c [set_globalCompositeOperation m]) = surface c.
Proof. done. Qed.


Lemma draw_line_few_points line elems props :
  truthy line = true ->
  get_field line (js "points") = Ok (Some (VArr elems props)) ->
  (length elems < 2)%nat ->
  draw_line line = ([], Ok tt).
Proof.
  intros Ht Hp Hlen. unfold draw_line. rewrite Ht, Hp. cbn [negb]. cbv iota.
  rewrite then_lift. cbn [truthy negb length_of]. cbv iota. rewrite then_lift.
  by replace (length elems <? 2)%nat with true by (symmetry; apply Nat.ltb_lt; lia).
Qed.

Lemma forEach_skip (f : value -> drawing unit) before line after :
  f line = ([], Ok tt) ->
  forEach f (before ++ line :: after) = forEach f (before ++ after).
Proof.
  intros Hline. induction before as [|v l IH]; cbn [app forEach].
  - rewrite Hline. unfold then_. by destruct (forEach f after).
  - by rewrite IH.
Qed.

(** A line without a [tool] property is drawn as the same line with the
    tool [pen]. *)
Lemma draw_line_default_tool props :
  lookup_prop (js "tool") props = None ->
  draw_line (VObj props) = draw_line (VObj ((js "tool", VStr (js "pen")) :: props)).
Proof.
  intros Htool. unfold draw_line. cbn [truthy negb get_field]. cbv iota.
  assert (Hother : forall k, k <> js "tool" ->
            lookup_prop k ((js "tool", VStr (js "pen")) :: props) = lookup_prop k props).
  { intros k Hk. cbn [lookup_prop]. by rewrite bool_decide_eq_false_2. }
  rewrite !Hother by done. rewrite Htool.
  change (lookup_prop (js "tool") ((js "tool", VStr (js "pen")) :: props))
    with (Some (VStr (js "pen"))).
  reflexivity.
Qed.

(** C9. A stroke of fewer than two points is not rendered: the renderer
    makes no call on the context for it, so that the drawing with the
    stroke is rendered by the same calls as the drawing without it. A
    stroke without a [tool] field is rendered as a pen stroke: the
    stroke [L], stored without the field, with two points or more, is
    stroked in mode [source-over] with its own colour and thickness
    along its points, and a pixel it covers has its colour when the
    renderer is done with a drawing that ends with it. Any object
    without the field is rendered by the calls that render the object
    with the tool [pen]. *)
Theorem degenerate_strokes_are_skipped (before after : list value)
    (line : value) (pts : list value) (pprops props legacy : list (jsstring * value))
    (data data' : jsstring)
    (drawn : list Stroke) (L : Stroke) (p : Point) (rest : list Point)
    (dataL : jsstring) (c : canvas) (px : pixel) :
  get_field line (js "points") = Ok (Some (VArr pts pprops)) ->
  (length pts < 2)%nat ->
  JSON_parse data = Ok (VArr (before ++ line :: after) props) ->
  JSON_parse data' = Ok (VArr (before ++ after) props) ->
  lookup_prop (js "tool") legacy = None ->
  tool L = None -> points L = p :: rest -> rest <> [] ->
  valid_strokeStyle (Some (VStr (color L))) = true ->
  valid_lineWidth (Some (VNum (thickness L))) = true ->
  covers (moveTo (Some (VNum (x p))) (Some (VNum (y p)))
          :: map (fun q => lineTo (Some (VNum (x q))) (Some (VNum (y q)))) rest)
    (Some (VNum (thickness L))) px = true ->
  JSON_parse dataL = Ok (lines_value (drawn ++ [L])) ->
  draw_line line = ([], Ok tt) /\
  drawOnCanvas true (Some data) = drawOnCanvas true (Some data') /\
  get_field (stroke_value L) (js "tool") = Ok None /\
  draw_line (stroke_value L)
  = ([set_globalCompositeOperation (js "source-over");
      set_strokeStyle (Some (VStr (color L)));
      set_lineWidth (Some (VNum (thickness L)));
      set_lineCap (js "round"); set_lineJoin (js "round"); beginPath;
      moveTo (Some (VNum (x p))) (Some (VNum (y p)))]
     ++ map (fun q => lineTo (Some (VNum (x q))) (Some (VNum (y q)))) rest
     ++ [stroke], Ok tt) /\
  surface (apply_ops c (drawOnCanvas true (Some dataL)).1) px
  = Some (Some (VStr (color L))) /\
  draw_line (stroke_value L) = draw_line (stroke_value (as_pen L)) /\
  draw_line (VObj legacy) = draw_line (VObj ((js "tool", VStr (js "pen")) :: legacy)).
Proof.
  intros Hpts Hlen Hd Hd' Hlegacy HL HptsL Hrest HsL HwL HcL HdL.
  assert (Hline : draw_line line = ([], Ok tt)).
  { apply (draw_line_few_points line pts pprops); [|done..]. by destruct line. }
  assert (HlenL : (2 <= length (points L))%nat).
  { rewrite HptsL. destruct rest; [done|]. simpl. lia. }
  split; [done|]. split; [|split; [|split; [|split; [|split]]]].
  - unfold drawOnCanvas. cbn [negb].
    rewrite (JSON_parse_nonempty _ _ Hd), (JSON_parse_nonempty _ _ Hd'), Hd, Hd'.
    rewrite !then_emit, !then_lift. unfold render_lines.
    by rewrite (forEach_skip draw_line before line after Hline).
  - unfold stroke_value. by rewrite HL.
  - rewrite draw_line_stroke by done. unfold stroke_ops. by rewrite HL, HptsL.
  - rewrite (drawOnCanvas_typed _ _ HdL). cbn [fst].
    rewrite map_app, concat_app. cbn [map concat]. rewrite app_nil_r.
    assert (Hr : rendered_ops L = stroke_ops L).
    { unfold rendered_ops.
      by replace (length (points L) <? 2)%nat with false
        by (symmetry; apply Nat.ltb_ge; lia). }
    rewrite Hr.
    change (clearRect :: ?l) with ([clearRect] ++ l).
    rewrite !apply_ops_app, surface_reset, apply_stroke_ops. cbn [surface].
    set (c' := apply_ops (apply_ops c [clearRect]) _).
    unfold stroke_pixel.
    assert (Hpath : path (context_at_stroke c' L) = stroke_path (points L)) by done.
    assert (Hwidth : lineWidth (context_at_stroke c' L) = Some (VNum (thickness L))).
    { cbn. by rewrite HwL. }
    assert (Hmode : globalCompositeOperation (context_at_stroke c' L)
                    = js "source-over").
    { cbn. unfold mode_of. by rewrite HL. }
    assert (Hstyle : strokeStyle (context_at_stroke c' L) = Some (VStr (color L))).
    { cbn. unfold style_of. by rewrite HL, HsL. }
    rewrite Hpath, Hwidth, HptsL. cbn [stroke_path]. rewrite HcL, Hstyle.
    by rewrite bool_decide_eq_false_2 by by rewrite Hmode.
  - rewrite !draw_line_stroke by done. unfold stroke_ops.
    cbn [as_pen tool points color thickness]. by rewrite HL.
  - by apply draw_line_default_tool.
Qed.

(** C8. An eraser stroke is stroked in mode [destination-out] with the
    opaque style, whatever colour it stores. A pixel that a pen stroke
    colours is transparent once an eraser stroke that covers it has been
    rendered after the pen stroke, whatever was drawn before the two.
    When the renderer is done the mode is [source-over] again. *)
Theorem eraser_strokes_erase (before : list Stroke) (P E : Stroke)
    (dataP data : jsstring) (c : canvas) (px : pixel) :
  tool P <> Some eraser -> (2 <= length (points P))%nat ->
  tool E = Some eraser -> (2 <= length (points E))%nat ->
  valid_strokeStyle (Some (VStr (color P))) = true ->
  valid_lineWidth (Some (VNum (thickness P))) = true ->
  valid_lineWidth (Some (VNum (thickness E))) = true ->
  covers (stroke_path (points P)) (Some (VNum (thickness P))) px = true ->
  covers (stroke_path (points E)) (Some (VNum (thickness E))) px = true ->
  JSON_parse dataP = Ok (lines_value (before ++ [P])) ->
  JSON_parse data = Ok (lines_value (before ++ [P; E])) ->
  draw_line (stroke_value E)
  = ([set_globalCompositeOperation (js "destination-out");
      set_strokeStyle (Some (VStr (js "rgba(0,0,0,1)")));
      set_lineWidth (Some (VNum (thickness E)));
      set_lineCap (js "round"); set_lineJoin (js "round"); beginPath]
     ++ stroke_path (points E) ++ [stroke], Ok tt) /\
  surface (apply_ops c (drawOnCanvas true (Some dataP)).1) px
  = Some (Some (VStr (color P))) /\
  surface (apply_ops c (drawOnCanvas true (Some data)).1) px = None /\
  globalCompositeOperation (apply_ops c (drawOnCanvas true (Some data)).1)
  = js "source-over".
Proof.
  intros HP HlenP HE HlenE HsP HwP HwE HcP HcE HdP Hd.
  assert (HrP : rendered_ops P = stroke_ops P).
  { unfold rendered_ops.
    by replace (length (points P) <? 2)%nat with false
      by (symmetry; apply Nat.ltb_ge; lia). }
  assert (HrE : rendered_ops E = stroke_ops E).
  { unfold rendered_ops.
    by replace (length (points E) <? 2)%nat with false
      by (symmetry; apply Nat.ltb_ge; lia). }
  assert (HmP : mode_of P = js "source-over").
  { unfold mode_of. by destruct (tool P) as [[|]|]. }
  assert (HstP : style_of P = Some (VStr (color P))).
  { unfold style_of. by destruct (tool P) as [[|]|]. }
  split; [|split; [|split]].
  - rewrite draw_line_stroke by done. unfold stroke_ops. by rewrite HE.
  - rewrite (drawOnCanvas_typed _ _ HdP). cbn [fst].
    rewrite map_app, concat_app. cbn [map concat]. rewrite app_nil_r, HrP.
    change (clearRect :: ?l) with ([clearRect] ++ l).
    rewrite !apply_ops_app, surface_reset, apply_stroke_ops. cbn [surface].
    set (c' := apply_ops (apply_ops c [clearRect]) _).
    unfold stroke_pixel.
    assert (Hpath : path (context_at_stroke c' P) = stroke_path (points P)) by done.
    assert (Hwidth : lineWidth (context_at_stroke c' P) = Some (VNum (thickness P))).
    { cbn. by rewrite HwP. }
    assert (Hmode : globalCompositeOperation (context_at_stroke c' P)
                    = js "source-over").
    { cbn. by rewrite HmP. }
    assert (Hstyle : strokeStyle (context_at_stroke c' P) = Some (VStr (color P))).
    { cbn. by rewrite HstP, HsP. }
    rewrite Hpath, Hwidth, HcP, Hstyle.
    by rewrite bool_decide_eq_false_2 by by rewrite Hmode.
  - rewrite (drawOnCanvas_typed _ _ Hd). cbn [fst].
    rewrite map_app, concat_app. cbn [map concat]. rewrite app_nil_r, HrP, HrE.
    change (clearRect :: ?l) with ([clearRect] ++ l).
    rewrite !apply_ops_app, surface_reset, (apply_stroke_ops _ E). cbn [surface].
    set (c' := apply_ops (apply_ops (apply_ops c [clearRect]) _) (stroke_ops P)).
    unfold stroke_pixel.
    assert (Hpath : path (context_at_stroke c' E) = stroke_path (points E)) by done.
    assert (Hwidth : lineWidth (context_at_stroke c' E) = Some (VNum (thickness E))).
    { cbn. by rewrite HwE. }
    assert (Hmode : globalCompositeOperation (context_at_stroke c' E)
                    = js "destination-out").
    { cbn. unfold mode_of. by rewrite HE. }
    rewrite Hpath, Hwidth, HcE. by rewrite bool_decide_eq_true_2.
  - rewrite (drawOnCanvas_typed _ _ Hd). cbn [fst].
    change (clearRect :: ?l) with ([clearRect] ++ l).
    by rewrite !apply_ops_app.
Qed.

(** Whatever the strokes, the renderer leaves the mode [source-over]. *)
Lemma drawOnCanvas_resets_mode (strokes : list Stroke) (data : jsstring) (c : canvas) :
  JSON_parse data = Ok (lines_value strokes) ->
  globalCompositeOperation (apply_ops c (drawOnCanvas true (Some data)).1)
  = js "source-over".
Proof.
  intros Hd. rewrite (drawOnCanvas_typed _ _ Hd). cbn [fst].
  change (clearRect :: ?l) with ([clearRect] ++ l).
  by rewrite !apply_ops_app.
Qed.

End Renderer.

(** ** Page store and pagination *)

Lemma length_array_set {A} (a : list (option A)) i v :
  length (array_set a i v) = (length a `max` S i)%nat.
Proof.
  unfold array_set. destruct (i <? length a)%nat eqn:E.
  - apply Nat.ltb_lt in E. rewrite length_insert. lia.
  - apply Nat.ltb_ge in E. rewrite !length_app, length_replicate. simpl. lia.
Qed.

Lemma array_set_in_range {A} (a : list (option A)) i v :
  (i < length a)%nat -> array_set a i v = <[i := Some v]> a.
Proof. intros H. unfold array_set. by apply Nat.ltb_lt in H as ->. Qed.

Lemma lookup_array_set {A} (a : list (option A)) i v :
  array_set a i v !! i = Some (Some v).
Proof.
  unfold array_set. destruct (i <? length a)%nat eqn:E.
  - apply Nat.ltb_lt in E. by apply list_lookup_insert_eq.
  - apply Nat.ltb_ge in E.
    rewrite lookup_app_r by done.
    rewrite lookup_app_r by (rewrite length_replicate; lia).
    rewrite length_replicate. by replace (i - length a - (i - length a))%nat with 0%nat by lia.
Qed.

Lemma lookup_array_set_ne {A} (a : list (option A)) i j v :
  (i < length a)%nat -> i <> j -> array_set a i v !! j = a !! j.
Proof.
  intros H Hne. rewrite array_set_in_range by done.
  by apply list_lookup_insert_ne.
Qed.

Lemma text_of_app l1 l2 : text_of (l1 ++ l2) = text_of l1 ++ text_of l2.
Proof. unfold text_of. by rewrite map_app, concat_app. Qed.

Lemma text_of_cons n l : text_of (n :: l) = textContent n ++ text_of l.
Proof. done. Qed.

(** Extraction moves characters, it neither drops nor adds any. *)
Lemma extractContents_text b : forall kids stay fragment,
  extractContents b kids = Some (stay, fragment) ->
  text_of stay ++ text_of fragment = text_of kids.
Proof.
  induction b as [k|j b IH]; intros kids stay fragment; cbn [extractContents].
  - destruct (k <=? length kids)%nat; [|done]. intros [= <- <-].
    by rewrite <- text_of_app, take_drop.
  - destruct (kids !! j) as [[data|tag attrs children]|] eqn:Hj; [| |done].
    + destruct b as [k|]; [|done].
      destruct (k <=? length data)%nat; [|done]. intros [= <- <-].
      rewrite <- (take_drop_middle kids j (Text data) Hj) at 3.
      rewrite !text_of_app, !text_of_cons. cbn [textContent text_of map concat].
      rewrite app_nil_r, <- !app_assoc. f_equal.
      by rewrite app_assoc, take_drop.
    + destruct (extractContents b children) as [[stay' frag']|] eqn:E; [|done].
      intros [= <- <-]. apply IH in E.
      rewrite <- (take_drop_middle kids j (Element tag attrs children) Hj) at 3.
      rewrite !text_of_app, !text_of_cons. cbn [textContent].
      fold (text_of stay'). fold (text_of frag'). fold (text_of children).
      rewrite <- E. cbn [text_of map concat].
      by rewrite app_nil_r, <- !app_assoc.
Qed.

Lemma trim_start_spaces s : forallb is_js_space s = true -> trim_start s = [].
Proof.
  induction s as [|c s IH]; [done|]. simpl.
  intros [Hc Hs]%andb_true_iff. rewrite Hc. auto.
Qed.

(** A string of white space trims to the empty string. *)
Lemma js_trim_spaces s : forallb is_js_space s = true -> js_trim s = [].
Proof. intros H. unfold js_trim. by rewrite (trim_start_spaces s H). Qed.

Lemma trim_start_nil s : trim_start s = [] -> forallb is_js_space s = true.
Proof.
  induction s as [|c s IH]; [done|]. simpl.
  destruct (is_js_space c); [auto|done].
Qed.

Lemma js_trim_nil s : js_trim s = [] -> forallb is_js_space s = true.
Proof.
  unfold js_trim. intros H.
  destruct (trim_start s) as [|c t] eqn:E; [by apply trim_start_nil|].
  assert (Hr : trim_start (rev (c :: t)) = []).
  { apply (f_equal (@rev N)) in H. by rewrite rev_involutive in H. }
  apply trim_start_nil in Hr. rewrite forallb_forall in Hr.
  assert (is_js_space c = true) as Hc.
  { apply Hr. apply in_rev. rewrite rev_involutive. by left. }
  clear -E Hc. exfalso.
  induction s as [|d s IH]; [done|]. simpl in E.
  destruct (is_js_space d) eqn:Ed; [auto|].
  injection E as -> ->. congruence.
Qed.

Lemma serialize_nodes_app l1 l2 :
  serialize_nodes (l1 ++ l2) = serialize_nodes l1 ++ serialize_nodes l2.
Proof. unfold serialize_nodes. by rewrite map_app, concat_app. Qed.

Lemma escape_text_app s1 s2 : escape_text (s1 ++ s2) = escape_text s1 ++ escape_text s2.
Proof. unfold escape_text. by rewrite map_app, concat_app. Qed.

(** When the split falls between two children of the editor, or inside
    a text node that is a child of the editor, the HTML of what stays
    followed by the HTML of the fragment is the HTML the editor held.
    (Inside an element the tags of the element are repeated, see
    [split_inside_span].) *)
Lemma extractContents_html_between k kids stay fragment :
  extractContents (At k) kids = Some (stay, fragment) ->
  serialize_nodes stay ++ serialize_nodes fragment = serialize_nodes kids.
Proof.
  cbn [extractContents].
  destruct (k <=? length kids)%nat; [|done]. intros [= <- <-].
  by rewrite <- serialize_nodes_app, take_drop.
Qed.

Lemma extractContents_html_text j k kids data stay fragment :
  kids !! j = Some (Text data) ->
  extractContents (Inside j (At k)) kids = Some (stay, fragment) ->
  serialize_nodes stay ++ serialize_nodes fragment = serialize_nodes kids.
Proof.
  intros Hj. cbn [extractContents]. rewrite Hj.
  destruct (k <=? length data)%nat; [|done]. intros [= <- <-].
  rewrite <- (take_drop_middle kids j (Text data) Hj) at 3.
  rewrite !serialize_nodes_app.
  change (serialize_nodes (Text (drop k data) :: drop (S j) kids))
    with (escape_text (drop k data) ++ serialize_nodes (drop (S j) kids)).
  change (serialize_nodes (Text data :: drop (S j) kids))
    with (escape_text data ++ serialize_nodes (drop (S j) kids)).
  change (serialize_nodes [Text (take k data)])
    with (escape_text (take k data) ++ []).
  rewrite app_nil_r, <- !app_assoc. f_equal.
  by rewrite app_assoc, <- escape_text_app, take_drop.
Qed.

(** *** Stored pages read back *)

Lemma node_induction (P : node -> Prop) :
  (forall data, P (Text data)) ->
  (forall tag attrs children, Forall P children -> P (Element tag attrs children)) ->
  forall n, P n.
Proof.
  intros Htext Helement. fix IH 1. intros [data|tag attrs children]; [apply Htext|].
  apply Helement. induction children as [|child l IHl]; constructor; [apply IH|apply IHl].
Qed.

Lemma forallb_each {A} (f : A -> bool) l :
  forallb f l = true <-> Forall (fun a => f a = true) l.
Proof.
  induction l as [|a l IH]; cbn [forallb]; [by split; [constructor|]|].
  rewrite andb_true_iff, IH. split.
  - intros [Ha Hl]. by constructor.
  - intros H. by inversion H.
Qed.

Lemma read_escape_text data behind :
  html_text (escape_text data ++ behind) = data ++ html_text behind.
Proof.
  unfold html_text, escape_text. induction data as [|c data IH]; [done|].
  cbn [map concat]. rewrite <- app_assoc.
  destruct (c =? 38) eqn:E38.
  { apply N.eqb_eq in E38 as ->. simpl. by rewrite IH. }
  destruct (c =? 160) eqn:E160.
  { apply N.eqb_eq in E160 as ->. simpl. by rewrite IH. }
  destruct (c =? 60) eqn:E60.
  { apply N.eqb_eq in E60 as ->. simpl. by rewrite IH. }
  destruct (c =? 62) eqn:E62.
  { apply N.eqb_eq in E62 as ->. simpl. by rewrite IH. }
  cbn [app html_text_from]. by rewrite E60, E38, IH.
Qed.

Lemma skip_name name behind :
  forallb name_unit name = true ->
  html_text_from 0 in_tag (name ++ behind) = html_text_from 0 in_tag behind.
Proof.
  induction name as [|c name IH]; [done|]. cbn [forallb app html_text_from].
  intros [[H34 H62]%andb_true_iff Hname]%andb_true_iff.
  apply negb_true_iff in H34, H62. rewrite H62, H34. auto.
Qed.

Lemma skip_value v behind :
  html_text_from 0 in_value (escape_attribute v ++ 34 :: behind)
  = html_text_from 0 in_tag behind.
Proof.
  unfold escape_attribute. induction v as [|c v IH]; [done|].
  cbn [map concat]. rewrite <- app_assoc.
  destruct (c =? 38) eqn:E38; [simpl; by rewrite IH|].
  destruct (c =? 160) eqn:E160; [simpl; by rewrite IH|].
  destruct (c =? 34) eqn:E34; [simpl; by rewrite IH|].
  cbn [app html_text_from]. by rewrite E34, IH.
Qed.

Lemma skip_attributes (attrs : list (jsstring * jsstring)) behind :
  forallb (fun a : jsstring * jsstring => forallb name_unit a.1) attrs = true ->
  html_text_from 0 in_tag
    (concat (map (fun a : jsstring * jsstring =>
                    32 :: a.1 ++ 61 :: 34 :: escape_attribute a.2 ++ [34]) attrs)
     ++ behind)
  = html_text_from 0 in_tag behind.
Proof.
  induction attrs as [|[name v] attrs IH]; [done|]. cbn [forallb map concat fst snd].
  intros [Hname Hattrs]%andb_true_iff.
  rewrite <- app_assoc. cbn [app html_text_from].
  change (32 =? 62) with false. change (32 =? 34) with false. cbv iota.
  rewrite <- !app_assoc, skip_name by done.
  cbn [app html_text_from].
  change (61 =? 62) with false. change (61 =? 34) with false.
  change (34 =? 62) with false. change (34 =? 34) with true. cbv iota.
  rewrite <- app_assoc. cbn [app]. rewrite skip_value. auto.
Qed.

Lemma read_node n :
  html_node n = true -> forall behind,
  html_text (serialize_node n ++ behind) = textContent n ++ html_text behind.
Proof.
  induction n as [data|tag attrs children IH] using node_induction; intros Hn behind.
  - apply read_escape_text.
  - cbn [html_node] in Hn.
    apply andb_true_iff in Hn as [[Htag Hattrs]%andb_true_iff Hchildren].
    cbn [serialize_node textContent]. unfold html_text at 1.
    cbn [app html_text_from]. change (60 =? 60) with true. cbv iota.
    rewrite <- !app_assoc, skip_name by done.
    rewrite skip_attributes by done.
    cbn [app html_text_from]. change (62 =? 62) with true. cbv iota.
    fold (html_text
            ((if bool_decide (tag ∈ void_elements) then []
              else concat (map serialize_node children) ++ 60 :: 47 :: tag ++ [62])
             ++ behind)).
    destruct (bool_decide (tag ∈ void_elements)).
    + by destruct children.
    + apply forallb_each in Hchildren. rewrite <- app_assoc.
      induction IH as [|child l Hchild Hl IHl]; cbn [map concat].
      * unfold html_text. cbn [app html_text_from].
        change (60 =? 60) with true. change (47 =? 62) with false.
        change (47 =? 34) with false. cbv iota.
        rewrite <- app_assoc, skip_name by done. cbn [app html_text_from].
        by change (62 =? 62) with true.
      * inversion Hchildren as [|? ? Hc Hrest]; subst.
        rewrite <- !app_assoc, Hchild by done. by rewrite IHl.
Qed.

Lemma read_nodes kids behind :
  forallb html_node kids = true ->
  html_text (serialize_nodes kids ++ behind) = text_of kids ++ html_text behind.
Proof.
  unfold serialize_nodes, text_of.
  induction kids as [|n kids IH]; [done|]. cbn [forallb map concat].
  intros [Hn Hkids]%andb_true_iff.
  by rewrite <- !app_assoc, read_node, IH.
Qed.

(** The serialisation the model is run with reads back. *)
Lemma serialize_nodes_reads_back : html_reads_back (HTML := HtmlFragments).
Proof. intros kids behind Hkids. by apply read_nodes. Qed.

Lemma extractContents_nil b stay fragment :
  extractContents b [] = Some (stay, fragment) -> stay = [] /\ fragment = [].
Proof.
  destruct b as [k|j b]; cbn [extractContents]; [|done].
  destruct (k <=? length (@nil node))%nat; [|done]. intros [= <- <-].
  by rewrite take_nil, drop_nil.
Qed.

(** Both sides of a split are nodes an editor holds. *)
Lemma extractContents_html b : forall kids stay fragment,
  extractContents b kids = Some (stay, fragment) ->
  forallb html_node kids = true ->
  forallb html_node stay = true /\ forallb html_node fragment = true.
Proof.
  induction b as [k|j b IH]; intros kids stay fragment; cbn [extractContents].
  - destruct (k <=? length kids)%nat; [|done]. intros [= <- <-].
    rewrite !forallb_each. intros H. split; [by apply Forall_take|by apply Forall_drop].
  - destruct (kids !! j) as [[data|tag attrs children]|] eqn:Hj; [| |done].
    + destruct b as [k|]; [|done].
      destruct (k <=? length data)%nat; [|done]. intros [= <- <-].
      rewrite !forallb_each. intros H. split.
      * apply Forall_app. split; [by apply Forall_take|by constructor].
      * constructor; [done|by apply Forall_drop].
    + destruct (extractContents b children) as [[stay' frag']|] eqn:E; [|done].
      intros [= <- <-]. rewrite !forallb_each. intros H.
      assert (Hchild : html_node (Element tag attrs children) = true).
      { rewrite List.Forall_forall in H. apply H.
        apply list_elem_of_In. by eapply list_elem_of_lookup_2. }
      cbn [html_node] in Hchild.
      apply andb_true_iff in Hchild as [Hnames Hchildren].
      assert (Hboth : html_node (Element tag attrs stay') = true
                      /\ html_node (Element tag attrs frag') = true).
      { cbn [html_node]. rewrite Hnames. cbn [andb].
        destruct (bool_decide (tag ∈ void_elements)).
        - destruct children; [|done].
          by apply extractContents_nil in E as [-> ->].
        - by apply (IH children). }
      destruct Hboth as [Hstay Hfrag]. split.
      * apply Forall_app. split; [by apply Forall_take|by constructor].
      * constructor; [done|by apply Forall_drop].
Qed.

(** The strings that trim to nothing. *)
Lemma escape_text_spaces data :
  forallb is_js_space (escape_text data) = forallb plain_space data.
Proof.
  unfold escape_text. induction data as [|c data IH]; [done|].
  cbn [map concat forallb]. rewrite forallb_app, IH. f_equal.
  unfold plain_space.
  destruct (c =? 38) eqn:E38; [by apply N.eqb_eq in E38 as ->|].
  destruct (c =? 160) eqn:E160; [by apply N.eqb_eq in E160 as ->|].
  destruct (c =? 60) eqn:E60; [by apply N.eqb_eq in E60 as ->|].
  destruct (c =? 62) eqn:E62; [by apply N.eqb_eq in E62 as ->|].
  cbn [forallb negb]. by rewrite !andb_true_r.
Qed.

Lemma serialize_nodes_spaces fragment :
  forallb is_js_space (serialize_nodes fragment) = blank_fragment fragment.
Proof.
  unfold serialize_nodes, blank_fragment.
  induction fragment as [|n l IH]; [done|].
  cbn [map concat forallb]. rewrite forallb_app, IH. f_equal.
  destruct n as [data|tag attrs children]; [apply escape_text_spaces|done].
Qed.

Lemma serialize_nodes_blank fragment :
  js_trim (serialize_nodes fragment) = [] <-> blank_fragment fragment = true.
Proof.
  rewrite <- serialize_nodes_spaces. split; [apply js_trim_nil|apply js_trim_spaces].
Qed.

Section Pagination.
Context {HTML : Serializer}.

(** C4, as the code has it. The test is made on the HTML of the
    fragment. When the content of the active page overflows and the HTML of the
    fragment trims to the empty string, the run leaves the state as it
    was: no page is added, no entry of [content] changes, the active
    page index stays (the characters extracted have left the editor).
    When the HTML does not trim to the empty string the run moves on to
    the next page. With the HTML that [serialize_nodes] writes, the run
    leaves the state as it was exactly for the fragments of text nodes
    that hold nothing but plain white space: an element, even an empty
    one, and a no-break space make a page. *)
Theorem paginate_blank_fragment (ed : Editor) (b : boundary)
    (st : AppState SermonNote) (cur : SermonNote) (stay fragment : list node) :
  currentNote st = Some cur ->
  clientHeight ed < scrollHeight ed ->
  extractContents b (childNodes ed) = Some (stay, fragment) ->
  (js_trim (innerHTML fragment) = [] ->
   paginate (Some ed) (Some b) st
   = Ok {| state := st; dom := Some stay; warned := false |}) /\
  (js_trim (innerHTML fragment) <> [] ->
   exists r,
     paginate (Some ed) (Some b) st = Ok r /\
     activePageIndex (state r) = S (activePageIndex st) /\ state r <> st) /\
  (blank_fragment fragment = true <->
   paginate (HTML := HtmlFragments) (Some ed) (Some b) st
   = Ok {| state := st; dom := Some stay; warned := false |}).
Proof.
  intros Hcur Hover He.
  assert (Hrun : forall H : Serializer,
            paginate (HTML := H) (Some ed) (Some b) st
            = if is_empty (js_trim (innerHTML (Serializer := H) fragment))
              then Ok {| state := st; dom := Some stay; warned := false |}
              else Ok {| state :=
                           {| notes := notes st;
                              currentNote :=
                                Some (split_pages (activePageIndex st)
                                        (innerHTML (Serializer := H) stay)
                                        (innerHTML (Serializer := H) fragment) cur);
                              activePageIndex := S (activePageIndex st) |};
                         dom := Some stay; warned := false |}).
  { intros H. unfold paginate. rewrite Hcur.
    replace (scrollHeight ed <=? clientHeight ed) with false
      by (symmetry; apply N.leb_gt; lia).
    by rewrite He. }
  split; [|split].
  - intros Ht. by rewrite Hrun, Ht.
  - intros Ht. rewrite Hrun. destruct (js_trim (innerHTML fragment)); [done|].
    eexists. split; [done|]. cbn [state activePageIndex is_empty]. split; [done|].
    intros Heq. apply (f_equal activePageIndex) in Heq. cbn in Heq. lia.
  - rewrite <- serialize_nodes_blank, Hrun.
    change (innerHTML (Serializer := HtmlFragments) fragment)
      with (serialize_nodes fragment).
    destruct (js_trim (serialize_nodes fragment)) as [|c t]; [done|].
    cbn [is_empty]. split; [done|].
    intros [= Heq]. apply (f_equal activePageIndex) in Heq. cbn in Heq. lia.
Qed.

(** C3. When the content of the active page overflows and the HTML of
    the fragment does not trim to the empty string, one run stores the
    HTML of what stays as the active page, stores the HTML of the
    fragment followed by the content of the next page as the next page
    (by itself as a new last page, with an empty drawing, when there is
    none), leaves every other page alone and moves the active page
    index on by one. The characters that the two stored pages read back
    as are, in order, the characters of the HTML the editor held
    followed by those of the page that was next: none is lost, none is
    added. *)
Theorem paginate_splits_once (READ : html_reads_back) (ed : Editor) (b : boundary)
    (st : AppState SermonNote) (cur : SermonNote) (i : nat)
    (stay fragment : list node) :
  currentNote st = Some cur ->
  activePageIndex st = i ->
  (i < length (content cur))%nat ->
  clientHeight ed < scrollHeight ed ->
  forallb html_node (childNodes ed) = true ->
  extractContents b (childNodes ed) = Some (stay, fragment) ->
  js_trim (innerHTML fragment) <> [] ->
  exists cur' page next,
    paginate (Some ed) (Some b) st
    = Ok {| state := {| notes := notes st; currentNote := Some cur';
                        activePageIndex := S i |};
            dom := Some stay; warned := false |} /\
    content cur' !! i = Some (Some page) /\
    content cur' !! S i = Some (Some next) /\
    page = innerHTML stay /\
    next = innerHTML fragment
           ++ match content cur !! S i with
              | Some (Some following) => following
              | Some None => js "undefined"
              | None => []
              end /\
    (forall j, j <> i -> j <> S i -> content cur' !! j = content cur !! j) /\
    length (content cur') = (length (content cur) `max` S (S i))%nat /\
    drawingData cur'
    = match content cur !! S i with
      | Some _ => drawingData cur
      | None => drawingData cur ++ [Some []]
      end /\
    html_text page ++ html_text next
    = html_text (innerHTML (childNodes ed))
      ++ html_text match content cur !! S i with
                   | Some (Some following) => following
                   | Some None => js "undefined"
                   | None => []
                   end /\
    html_text (innerHTML (childNodes ed)) = text_of (childNodes ed) /\
    text_of stay ++ text_of fragment = text_of (childNodes ed).
Proof.
  intros Hcur Hidx Hi Hover Hkids He Ht.
  destruct (extractContents_html _ _ _ _ He Hkids) as [Hstay Hfragment].
  pose proof (extractContents_text _ _ _ _ He) as Htext.
  assert (Hheld : html_text (innerHTML (childNodes ed)) = text_of (childNodes ed)).
  { rewrite <- (app_nil_r (innerHTML (childNodes ed))), READ by done.
    apply app_nil_r. }
  assert (Hread : forall behind,
            html_text (innerHTML stay) ++ html_text (innerHTML fragment ++ behind)
            = html_text (innerHTML (childNodes ed)) ++ html_text behind).
  { intros behind.
    rewrite <- (app_nil_r (innerHTML stay)), !READ by done.
    rewrite Hheld, <- Htext. cbn [html_text html_text_from].
    by rewrite app_nil_r, <- app_assoc. }
  exists (split_pages i (innerHTML stay) (innerHTML fragment) cur), (innerHTML stay),
    (innerHTML fragment
     ++ match content cur !! S i with
        | Some (Some following) => following
        | Some None => js "undefined"
        | None => []
        end).
  split.
  { unfold paginate. rewrite Hcur, Hidx.
    replace (scrollHeight ed <=? clientHeight ed) with false
      by (symmetry; apply N.leb_gt; lia).
    rewrite He. destruct (js_trim (innerHTML fragment)); done. }
  assert (Hnext : array_set (content cur) i (innerHTML stay) !! S i
                  = content cur !! S i).
  { apply lookup_array_set_ne; [done|lia]. }
  unfold split_pages. rewrite Hnext.
  pose proof (length_array_set (content cur) i (innerHTML stay)) as Hlen.
  destruct (content cur !! S i) as [slot|] eqn:En; cbn [with_pages content drawingData].
  - apply lookup_lt_Some in En.
    split; [|split; [|split; [|split; [|split; [|split; [|split; [|split]]]]]]].
    + rewrite list_lookup_insert_ne by lia. apply lookup_array_set.
    + rewrite list_lookup_insert_eq by lia. unfold concat_slot. by destruct slot.
    + done.
    + done.
    + intros j Hj Hj'. rewrite list_lookup_insert_ne by done.
      by apply lookup_array_set_ne.
    + rewrite length_insert. lia.
    + done.
    + destruct slot; apply Hread.
    + done.
  - apply lookup_ge_None in En.
    split; [|split; [|split; [|split; [|split; [|split; [|split; [|split]]]]]]].
    + rewrite lookup_app_l by lia. apply lookup_array_set.
    + rewrite lookup_app_r by lia.
      replace (S i - length (array_set (content cur) i (innerHTML stay)))%nat
        with 0%nat by lia.
      by rewrite app_nil_r.
    + done.
    + done.
    + intros j Hj Hj'.
      destruct (decide (j < length (content cur))%nat).
      * rewrite lookup_app_l by lia. by apply lookup_array_set_ne.
      * rewrite !lookup_ge_None_2; [done|lia|].
        rewrite length_app. simpl. lia.
    + rewrite length_app. simpl. lia.
    + done.
    + apply Hread.
    + done.
Qed.

End Pagination.

(** ** Notes: creation, migration and import *)

Lemma lookup_set_prop_eq {A} k (v : A) props : lookup_prop k (set_prop k v props) = Some v.
Proof.
  induction props as [|[k' v'] ps IH]; simpl.
  - by rewrite bool_decide_eq_true_2.
  - destruct (bool_decide (k' = k)) eqn:E; simpl.
    + by rewrite bool_decide_eq_true_2.
    + by rewrite E.
Qed.

Lemma lookup_set_prop_ne {A} k k' (v : A) props :
  k <> k' -> lookup_prop k' (set_prop k v props) = lookup_prop k' props.
Proof.
  intros Hne. induction props as [|[k0 v0] ps IH]; simpl.
  - by rewrite bool_decide_eq_false_2.
  - destruct (bool_decide (k0 = k)) eqn:E; simpl.
    + apply bool_decide_eq_true in E as ->.
      by rewrite !bool_decide_eq_false_2.
    + by rewrite IH.
Qed.

Lemma has_set_prop_ne {A} k k' (v : A) props :
  k <> k' -> has_prop k' (set_prop k v props) = has_prop k' props.
Proof. intros H. unfold has_prop. by rewrite lookup_set_prop_ne. Qed.

Section Notes.
Context {NUM : JSNumber}.

Lemma JSON_parse_total text : JSON_parse text <> Exotic.
Proof.
  unfold JSON_parse. destruct (parse_value _ _) as [[v r]|]; [|done].
  by destruct (is_empty (skip_ws r)).
Qed.

Lemma wrap_legacy_object v : is_object v = true -> wrap_legacy v = Ok (wrapped v).
Proof.
  intros Hv. unfold wrap_legacy, wrapped.
  destruct v as [| | | |elems props|props]; try done; cbn [get_field bind props_of];
    destruct (is_string _ || negb _); try done;
    cbn [set_field bind get_field];
    by rewrite lookup_set_prop_ne by done.
Qed.

Lemma wrap_legacy_primitive v : is_object v = false -> exists e, wrap_legacy v = Throw e.
Proof. destruct v; try done; intros _; by eexists. Qed.

Lemma wrapped_is_object v : is_object v = true -> is_object (wrapped v) = true.
Proof.
  unfold wrapped. intros Hv.
  destruct (is_string _ || negb _); [|done]. by destruct v.
Qed.

Lemma wrapped_has_field k v :
  is_object v = true -> k <> js "content" -> k <> js "drawingData" ->
  has_field k (wrapped v) = has_field k v.
Proof.
  unfold wrapped. intros Hv H1 H2.
  destruct (is_string _ || negb _); [|done].
  destruct v; try done; cbn [has_field props_of];
    by rewrite !has_set_prop_ne by done.
Qed.

Lemma map_each_objects elems :
  forallb is_object elems = true ->
  map_each wrap_legacy elems = Ok (map wrapped elems).
Proof.
  induction elems as [|v l IH]; [done|]. cbn [forallb map_each].
  intros [Hv Hl]%andb_true_iff.
  by rewrite (wrap_legacy_object v Hv), IH.
Qed.

Lemma map_each_primitive elems :
  forallb is_object elems = false ->
  exists e, map_each wrap_legacy elems = Throw e.
Proof.
  induction elems as [|v l IH]; [done|]. cbn [forallb map_each].
  destruct (is_object v) eqn:Hv.
  - intros Hl. destruct (IH Hl) as [e He].
    rewrite (wrap_legacy_object v Hv), He. by eexists.
  - intros _. destruct (wrap_legacy_primitive v Hv) as [e ->]. by eexists.
Qed.

Lemma has_field_object k v : is_object v = true -> has_field k v = Ok (has_prop k (props_of v)).
Proof. by destruct v. Qed.

Lemma imported_notes_acceptable text v :
  JSON_parse text = Ok v -> acceptable v = true ->
  imported_notes text = Ok (map wrapped (elements v)).
Proof.
  intros Hp Ha. unfold imported_notes. rewrite Hp. cbn [bind].
  destruct v as [| | | |elems props|]; try done. cbn [is_array map_method elements].
  cbn [acceptable] in Ha. apply andb_true_iff in Ha as [Hobj Hfirst].
  rewrite (map_each_objects _ Hobj). cbn [bind].
  destruct elems as [|first rest]; [done|]. cbn [map].
  cbn [forallb] in Hobj. apply andb_true_iff in Hobj as [Hf _].
  rewrite !wrapped_has_field, !has_field_object by done.
  apply andb_true_iff in Hfirst as [-> ->]. done.
Qed.

Lemma imported_notes_unacceptable text v :
  JSON_parse text = Ok v -> acceptable v = false ->
  exists e, imported_notes text = Throw e.
Proof.
  intros Hp Ha. unfold imported_notes. rewrite Hp. cbn [bind].
  destruct v as [| | | |elems props|]; try by eexists.
  cbn [is_array map_method]. cbn [acceptable] in Ha.
  destruct (forallb is_object elems) eqn:Hobj.
  - rewrite (map_each_objects _ Hobj). cbn [bind].
    destruct elems as [|first rest]; [done|]. cbn [map].
    cbn [forallb] in Hobj. apply andb_true_iff in Hobj as [Hf _].
    rewrite !wrapped_has_field, !has_field_object by done.
    cbn [andb] in Ha.
    destruct (has_prop (js "id") (props_of first)); cbn [bind].
    + cbn [andb] in Ha. rewrite Ha. by eexists.
    + by eexists.
  - destruct (map_each_primitive _ Hobj) as [e ->]. by eexists.
Qed.

Lemma importNotes_unparsed now today text (st : AppState value) e :
  JSON_parse text = Throw e -> importNotes now today text st = Ok (st, InvalidFile).
Proof. intros He. unfold importNotes, imported_notes. by rewrite He. Qed.

Lemma importNotes_rejected now today text (st : AppState value) v :
  JSON_parse text = Ok v -> acceptable v = false ->
  importNotes now today text st = Ok (st, InvalidFile).
Proof.
  intros Hp Ha. unfold importNotes.
  by destruct (imported_notes_unacceptable _ _ Hp Ha) as [e ->].
Qed.

Lemma importNotes_accepted now today text (st : AppState value) v :
  JSON_parse text = Ok v -> acceptable v = true ->
  importNotes now today text st
  = Ok (imported_state now today (map wrapped (elements v)),
        Imported (length (elements v))).
Proof.
  intros Hp Ha. unfold importNotes.
  rewrite (imported_notes_acceptable _ _ Hp Ha). cbn [bind try_catch].
  rewrite length_map. unfold imported_state.
  by destruct (map wrapped (elements v)).
Qed.

(** C2, as the code has it. A payload that does not parse, that is not
    an array, that has an element which is not an object ([null], a
    number, a string, a boolean), or whose first element lacks an [id]
    or lacks a [title], is rejected: the user is shown the error and the
    state is left as it was. Every other payload is accepted: the
    collection becomes the imported notes (a fresh note when the array
    is empty), the first of them is the current note, the active page is
    the first page, and the user is told how many notes were read. *)
Theorem importNotes_accepts_exactly (now today text : jsstring) (st : AppState value) :
  (forall e, JSON_parse text = Throw e ->
     importNotes now today text st = Ok (st, InvalidFile)) /\
  (forall v, JSON_parse text = Ok v -> acceptable v = false ->
     importNotes now today text st = Ok (st, InvalidFile)) /\
  (forall v, JSON_parse text = Ok v -> acceptable v = true ->
     importNotes now today text st
     = Ok (imported_state now today (map wrapped (elements v)),
           Imported (length (elements v)))).
Proof.
  split; [|split].
  - apply importNotes_unparsed.
  - apply importNotes_rejected.
  - apply importNotes_accepted.
Qed.

Lemma createNewNote_aligned now today : aligned (createNewNote now today) = true.
Proof. done. Qed.

(** C10. A payload that is an empty array is accepted without an error
    and leaves exactly one note in the collection, the note
    [createNewNote] returns: one empty page with an empty drawing, the
    date read from the clock, the first service type and the default
    styles. No accepted import leaves the collection empty. *)
Theorem import_empty_array (now today text : jsstring) (props : list (jsstring * value))
    (st : AppState value) :
  JSON_parse text = Ok (VArr [] props) ->
  importNotes now today text st
  = Ok ({| notes := [createNewNote now today];
           currentNote := Some (createNewNote now today);
           activePageIndex := 0%nat |}, Imported 0) /\
  as_note (createNewNote now today)
  = Some {| id := now; title := []; date := today;
            serviceType := nth 0 SERVICE_TYPES []; passage := [];
            content := [Some []];
            styles := {| fontSize := js "16px"; fontFamily := js "Noto Sans KR";
                         fontWeight := js "400" |};
            drawingData := [Some []] |} /\
  (forall text' st' n,
     importNotes now today text' st = Ok (st', Imported n) -> notes st' <> []).
Proof.
  intros Hp. split; [|split].
  - by rewrite (importNotes_accepted now today text st _ Hp).
  - done.
  - intros text' st' n. unfold importNotes.
    destruct (imported_notes text') as [l|e|]; [|done|done].
    cbn [bind try_catch]. intros [= <- _]. by destruct l.
Qed.

End Notes.

(** ** The page store invariant *)

Section Invariant.
Context {NUM : JSNumber}.

Lemma handleContentChange_aligned pageIndex value (st : AppState SermonNote) cur :
  currentNote st = Some cur ->
  pages_aligned cur ->
  (pageIndex < length (content cur))%nat ->
  Forall pages_aligned (notes st) ->
  exists cur', currentNote (handleContentChange pageIndex value st) = Some cur' /\
    pages_aligned cur' /\
    Forall pages_aligned (notes (handleContentChange pageIndex value st)).
Proof.
  intros Hcur [Hlen Hpos] Hi Hall. unfold handleContentChange. rewrite Hcur.
  eexists. split; [done|].
  assert (Hnew : pages_aligned
            (with_pages cur (array_set (content cur) pageIndex value) (drawingData cur))).
  { unfold pages_aligned. cbn [with_pages content drawingData].
    rewrite length_array_set. lia. }
  split; [done|]. cbn [notes]. unfold replace_note.
  induction Hall as [|n l Hn _ IH]; constructor; [|done].
  by destruct (bool_decide (id n = id cur)).
Qed.

Lemma handleDrawingChange_aligned index value (st : AppState SermonNote) cur :
  currentNote st = Some cur ->
  pages_aligned cur ->
  (index < length (drawingData cur))%nat ->
  Forall pages_aligned (notes st) ->
  exists cur', currentNote (handleDrawingChange index value st) = Some cur' /\
    pages_aligned cur' /\
    Forall pages_aligned (notes (handleDrawingChange index value st)).
Proof.
  intros Hcur [Hlen Hpos] Hi Hall. unfold handleDrawingChange. rewrite Hcur.
  eexists. split; [done|].
  assert (Hnew : pages_aligned
            (with_pages cur (content cur) (array_set (drawingData cur) index value))).
  { unfold pages_aligned. cbn [with_pages content drawingData].
    rewrite length_array_set. lia. }
  split; [done|]. cbn [notes]. unfold replace_note.
  induction Hall as [|n l Hn _ IH]; constructor; [|done].
  by destruct (bool_decide (id n = id cur)).
Qed.

Lemma split_pages_aligned i currentPageHtml overflowingHtml cur :
  pages_aligned cur -> (i < length (content cur))%nat ->
  pages_aligned (split_pages i currentPageHtml overflowingHtml cur).
Proof.
  intros [Hlen Hpos] Hi. unfold split_pages.
  pose proof (length_array_set (content cur) i currentPageHtml) as Hset.
  destruct (array_set (content cur) i currentPageHtml !! S i) as [next|] eqn:E;
    unfold pages_aligned; cbn [with_pages content drawingData].
  - rewrite length_insert. lia.
  - rewrite !length_app. simpl. lia.
Qed.

(** The migration run on load aligns a note that is an object: when its
    [content] is a string or is missing, and when its [content] is an
    array with at least one page and its [drawingData] is missing or is
    an array. *)
Lemma migrate_aligned (props : list (jsstring * value)) :
  (let c := lookup_prop (js "content") props in
   let d := lookup_prop (js "drawingData") props in
   is_string c || negb (truthy_opt c) = true \/
   (exists pages cp, c = Some (VArr pages cp) /\ pages <> [] /\
      (d = None \/ exists ds dp, d = Some (VArr ds dp)))) ->
  exists note', migrate (VObj props) = Ok note' /\ aligned note' = true.
Proof.
  cbn zeta. intros [Hlegacy|(pages & cp & Hc & Hne & Hd)].
  - unfold migrate, wrap_legacy. cbn [get_field bind]. rewrite Hlegacy.
    cbn [set_field bind get_field].
    unfold reconcile_drawing. cbn [get_field bind].
    rewrite lookup_set_prop_eq.
    rewrite (lookup_set_prop_ne (js "drawingData") (js "content")) by done.
    rewrite lookup_set_prop_eq.
    cbn [truthy_opt truthy negb length_of_opt length_of bind length].
    rewrite bool_decide_eq_true_2 by done. cbn [negb].
    eexists. split; [done|]. unfold aligned. cbn [get_field].
    rewrite lookup_set_prop_eq.
    rewrite (lookup_set_prop_ne (js "drawingData") (js "content")) by done.
    by rewrite lookup_set_prop_eq.
  - unfold migrate, wrap_legacy. cbn [get_field bind]. rewrite Hc.
    cbn [is_string truthy_opt truthy negb orb bind].
    unfold reconcile_drawing. cbn [get_field bind]. rewrite Hc.
    assert (Hreconciled : aligned
              (VObj (set_prop (js "drawingData")
                 (VArr (map (fun i => or_empty
                               (optional_index (lookup_prop (js "drawingData") props) i))
                          (seq 0 (length pages))) []) props)) = true).
    { unfold aligned. cbn [get_field].
      rewrite lookup_set_prop_eq.
      rewrite (lookup_set_prop_ne (js "drawingData") (js "content")) by done.
      rewrite Hc.
      rewrite length_map, length_seq.
      destruct pages; [done|]. simpl.
      by rewrite bool_decide_eq_true_2. }
    destruct Hd as [Hd|(ds & dp & Hd)]; rewrite Hd in *.
    + cbn [truthy_opt negb bind length_of_opt length_of default].
      eexists. split; [done|]. exact Hreconciled.
    + cbn [truthy_opt truthy negb bind length_of_opt length_of].
      destruct (bool_decide (Some (length ds) = Some (length pages))) eqn:E;
        cbn [negb default].
      * apply bool_decide_eq_true in E. injection E as E.
        eexists. split; [done|]. unfold aligned. cbn [get_field].
        rewrite Hc, Hd, E. destruct pages; [done|]. simpl.
        by rewrite bool_decide_eq_true_2.
      * eexists. split; [done|]. exact Hreconciled.
Qed.

(** C1, where the code departs from it. Importing [legacy_backup] is
    accepted and stores a note of two pages that has no drawing data at
    all, so that the two sequences are not aligned; the migration run on
    load gives the same note one empty drawing for each page. *)
Theorem import_does_not_align (now today : jsstring) (st : AppState value) :
  exists note note',
    importNotes now today legacy_backup st
    = Ok ({| notes := [note]; currentNote := Some note; activePageIndex := 0%nat |},
          Imported 1) /\
    get_field note (js "content") = Ok (Some (VArr [VStr (js "a"); VStr (js "b")] [])) /\
    get_field note (js "drawingData") = Ok None /\
    aligned note = false /\
    (do parsed <- JSON_parse legacy_backup; map_method migrate parsed) = Ok [note'] /\
    get_field note' (js "drawingData") = Ok (Some (VArr [VStr []; VStr []] [])) /\
    aligned note' = true.
Proof. do 2 eexists. repeat split; vm_compute; reflexivity. Qed.

(** C6, where the code departs from it. Drawing data that parses to a
    value that is not an array, here the text of an empty object, is
    handed to the stroke list of the page as it is, not as the empty
    list; the next stroke then fails on it. The renderer, for the same
    data, draws nothing. *)
Theorem deserialize_keeps_non_arrays (t : DrawingTool) (penColor : jsstring)
    (penThickness : number) (p : Point) :
  JSON_parse (js "{}") = Ok (VObj []) /\
  deserialize (js "{}") = VObj [] /\
  startDrawing (Some t) penColor penThickness p
    {| isDrawing := false; lines := deserialize (js "{}") |} = Throw TypeError /\
  drawOnCanvas true (Some (js "{}")) = ([clearRect], Ok tt).
Proof. repeat split; vm_compute; reflexivity. Qed.

End Invariant.

(** ** The theorems at work on the examples *)

(** The red stroke survives serialization. *)
Lemma deserialize_serialize_witness :
  number_round_trip /\ Forall stroke_wf [red_stroke; legacy_stroke] /\
  deserialize (serialize (lines_value [red_stroke; legacy_stroke]))
  = lines_value [red_stroke; legacy_stroke].
Proof.
  assert (Hwf : Forall stroke_wf [red_stroke; legacy_stroke]).
  { repeat constructor. }
  split; [exact int_round_trip|]. split; [exact Hwf|].
  exact (deserialize_serialize int_round_trip _ Hwf).
Defined.

(** A gesture on a page whose drawing data already is the serialization
    of the strokes writes nothing; on a page without drawing data it
    writes the serialization. *)
Lemma stopDrawing_commits_changes_witness :
  (stopDrawing 0 [] drawing_red).2
  = Some (0%nat, serialize (lines_value [red_stroke])) /\
  (stopDrawing 0 (serialize (lines_value [red_stroke])) drawing_red).2 = None /\
  commit (stopDrawing 0 (serialize (lines_value [red_stroke])) drawing_red).2
    (editing (one_page [])) = editing (one_page []).
Proof.
  pose proof (stopDrawing_commits_changes 0 [] drawing_red (editing (one_page []))
                eq_refl) as [H1 _].
  pose proof (stopDrawing_commits_changes 0 (serialize (lines_value [red_stroke]))
                drawing_red (editing (one_page [])) eq_refl) as [_ H2].
  split; [apply H1; by vm_compute|]. apply H2. reflexivity.
Defined.

(** The eraser stroke over the red stroke leaves the pixel transparent. *)
Lemma eraser_strokes_erase_witness :
  surface (apply_ops used_canvas
             (drawOnCanvas true
                (Some (serialize (lines_value [legacy_stroke; red_stroke])))).1) tt
  = Some (Some (VStr (js "#dc3545"))) /\
  surface (apply_ops used_canvas
             (drawOnCanvas true
                (Some (serialize
                         (lines_value [legacy_stroke; red_stroke; eraser_stroke])))).1) tt
  = None.
Proof.
  pose proof (eraser_strokes_erase [legacy_stroke] red_stroke eraser_stroke
                (serialize (lines_value [legacy_stroke; red_stroke]))
                (serialize (lines_value [legacy_stroke; red_stroke; eraser_stroke]))
                used_canvas tt) as H.
  destruct H as (_ & H1 & H2 & _).
  - by vm_compute.
  - vm_compute. lia.
  - reflexivity.
  - vm_compute. lia.
  - reflexivity.
  - reflexivity.
  - reflexivity.
  - reflexivity.
  - reflexivity.
  - vm_compute. reflexivity.
  - vm_compute. reflexivity.
  - split; [exact H1|exact H2].
Defined.

(** The dot between two strokes changes nothing, and the stroke without
    a tool is drawn with the pen, in its own colour. *)
Lemma degenerate_strokes_are_skipped_witness :
  drawOnCanvas true (Some (serialize (lines_value [red_stroke; dot; legacy_stroke])))
  = drawOnCanvas true (Some (serialize (lines_value [red_stroke; legacy_stroke]))) /\
  draw_line (stroke_value legacy_stroke)
  = ([set_globalCompositeOperation (js "source-over");
      set_strokeStyle (Some (VStr (js "#212529")));
      set_lineWidth (Some (VNum (int 2)));
      set_lineCap (js "round"); set_lineJoin (js "round"); beginPath;
      moveTo (Some (VNum (int 1))) (Some (VNum (int 2)));
      lineTo (Some (VNum (int 3))) (Some (VNum (int 4)));
      stroke], Ok tt) /\
  surface (apply_ops used_canvas
             (drawOnCanvas true
                (Some (serialize (lines_value [red_stroke; legacy_stroke])))).1) tt
  = Some (Some (VStr (js "#212529"))).
Proof.
  pose proof (degenerate_strokes_are_skipped
                [stroke_value red_stroke] [stroke_value legacy_stroke]
                (stroke_value dot) [point_value {| x := int 3; y := int 4 |}] [] []
                (props_of (stroke_value legacy_stroke))
                (serialize (lines_value [red_stroke; dot; legacy_stroke]))
                (serialize (lines_value [red_stroke; legacy_stroke]))
                [red_stroke] legacy_stroke {| x := int 1; y := int 2 |}
                [ {| x := int 3; y := int 4 |} ]
                (serialize (lines_value [red_stroke; legacy_stroke]))
                used_canvas tt) as H.
  destruct H as (_ & H1 & _ & H2 & H3 & _).
  - reflexivity.
  - vm_compute. lia.
  - vm_compute. reflexivity.
  - vm_compute. reflexivity.
  - reflexivity.
  - reflexivity.
  - reflexivity.
  - discriminate.
  - reflexivity.
  - reflexivity.
  - reflexivity.
  - vm_compute. reflexivity.
  - split; [exact H1|]. split; [exact H2|exact H3].
Defined.

(** Typing past the end of the page: the last word moves to a new
    page, and in front of the next page when there is one; a split
    inside a formatted run repeats the tags and keeps the characters. *)
Lemma paginate_splits_once_witness :
  (exists cur',
     paginate (Some (overflowing [Text (js "hello world")])) (Some (Inside 0 (At 6)))
       (editing (one_page (js "hello world")))
     = Ok {| state := {| notes := [one_page (js "hello world")];
                         currentNote := Some cur'; activePageIndex := 1%nat |};
             dom := Some [Text (js "hello ")]; warned := false |} /\
     content cur' = [Some (js "hello "); Some (js "world")] /\
     drawingData cur' = [Some []; Some []]) /\
  (exists cur' page next,
     paginate (Some (overflowing [formatted (js "abcd")]))
       (Some (Inside 0 (Inside 0 (At 2))))
       (editing (two_pages (innerHTML [formatted (js "abcd")]) (js "<b>x</b>")))
     = Ok {| state :=
               {| notes := [two_pages (innerHTML [formatted (js "abcd")]) (js "<b>x</b>")];
                  currentNote := Some cur'; activePageIndex := 1%nat |};
             dom := Some [formatted (js "ab")]; warned := false |} /\
     content cur' = [Some page; Some next] /\
     page = innerHTML [formatted (js "ab")] /\
     next = innerHTML [formatted (js "cd")] ++ js "<b>x</b>" /\
     html_text page ++ html_text next = js "abcdx" /\
     drawingData cur' = [Some []; Some []]).
Proof.
  split.
  - destruct (paginate_splits_once serialize_nodes_reads_back
                (overflowing [Text (js "hello world")])
                (Inside 0 (At 6)) (editing (one_page (js "hello world")))
                (one_page (js "hello world")) 0 [Text (js "hello ")] [Text (js "world")])
      as (cur' & page & next & Hrun & H0 & H1 & -> & -> & _ & Hlen & Hd & _).
    + reflexivity.
    + reflexivity.
    + vm_compute. lia.
    + reflexivity.
    + reflexivity.
    + reflexivity.
    + by vm_compute.
    + exists cur'. split; [exact Hrun|]. split; [|exact Hd].
      destruct (content cur') as [|a [|a' [|a'' l]]];
        try (simpl in Hlen; vm_compute in Hlen; lia).
      simpl in H0, H1. by injection H0 as ->; injection H1 as ->.
  - destruct (paginate_splits_once serialize_nodes_reads_back
                (overflowing [formatted (js "abcd")])
                (Inside 0 (Inside 0 (At 2)))
                (editing (two_pages (innerHTML [formatted (js "abcd")]) (js "<b>x</b>")))
                (two_pages (innerHTML [formatted (js "abcd")]) (js "<b>x</b>")) 0
                [formatted (js "ab")] [formatted (js "cd")])
      as (cur' & page & next & Hrun & H0 & H1 & Hpage & Hnext & _ & Hlen & Hd & Hread & _).
    + reflexivity.
    + reflexivity.
    + vm_compute. lia.
    + reflexivity.
    + reflexivity.
    + reflexivity.
    + by vm_compute.
    + exists cur', page, next. split; [exact Hrun|].
      split; [|split; [exact Hpage|split; [exact Hnext|split; [|exact Hd]]]].
      * destruct (content cur') as [|a [|a' [|a'' l]]];
          try (simpl in Hlen; vm_compute in Hlen; lia).
        simpl in H0, H1. by injection H0 as ->; injection H1 as ->.
      * rewrite Hread. reflexivity.
Defined.

(** A split inside a formatted run keeps the style on both sides: the
    characters are kept, the tags are repeated. *)
Example split_inside_span :
  extractContents (Inside 0 (Inside 0 (At 2))) [formatted (js "abcd")]
  = Some ([formatted (js "ab")], [formatted (js "cd")]) /\
  innerHTML [formatted (js "abcd")] = json_text "<span style='font-size: 24px;'>abcd</span>" /\
  innerHTML [formatted (js "ab")] ++ innerHTML [formatted (js "cd")]
  = json_text "<span style='font-size: 24px;'>ab</span><span style='font-size: 24px;'>cd</span>" /\
  text_of [formatted (js "ab")] ++ text_of [formatted (js "cd")] = js "abcd".
Proof. repeat split; reflexivity. Qed.

(** The example of the specification, end to end: a note grows a second
    page; a red pen stroke of thickness 5 drawn there with three points
    is stored as the drawing of that page and reads back as that one
    stroke. *)
Example second_page_with_a_stroke :
  exists paginated s1 s2 s3 data,
    paginate (Some (overflowing [Text (js "hello world")])) (Some (Inside 0 (At 6)))
      (editing (one_page (js "hello world"))) = Ok paginated /\
    activePageIndex (state paginated) = 1%nat /\
    (length <$> (content <$> currentNote (state paginated))) = Some 2%nat /\
    startDrawing (Some pen) (js "#dc3545") (int 5) {| x := int 10; y := int 20 |}
      {| isDrawing := false; lines := deserialize [] |} = Ok s1 /\
    draw (Some pen) {| x := int 11; y := int 21 |} s1 = Ok s2 /\
    draw (Some pen) {| x := int 12; y := int 25 |} s2 = Ok s3 /\
    (stopDrawing 1 [] s3).2 = Some (1%nat, data) /\
    (drawingData <$> currentNote (commit (stopDrawing 1 [] s3).2 (state paginated)))
    = Some [Some []; Some data] /\
    deserialize data = lines_value [red_stroke].
Proof. do 5 eexists. repeat split; vm_compute; reflexivity. Qed.

(** Trailing spaces alone do not make a page. *)
Lemma paginate_blank_fragment_witness :
  blank_fragment [Text (js "   ")] = true /\
  paginate (Some (overflowing [Text (js "hello   ")])) (Some (Inside 0 (At 5)))
    (editing (one_page (js "hello   ")))
  = Ok {| state := editing (one_page (js "hello   "));
          dom := Some [Text (js "hello")]; warned := false |}.
Proof.
  destruct (paginate_blank_fragment (overflowing [Text (js "hello   ")])
              (Inside 0 (At 5)) (editing (one_page (js "hello   ")))
              (one_page (js "hello   ")) [Text (js "hello")] [Text (js "   ")])
    as (Hblank & _ & Hexactly).
  - reflexivity.
  - reflexivity.
  - reflexivity.
  - split; [reflexivity|]. apply Hblank. reflexivity.
Defined.

(** C4, as stated, fails: a fragment that holds one no-break space and
    a fragment that holds an empty span have no character but white
    space, and each of them makes a page. *)
Lemma blank_fragments_make_pages :
  extractContents (Inside 0 (At 5)) [Text trailing_space]
  = Some ([Text (js "hello")], [Text [160]]) /\
  js_trim (text_of [Text [160]]) = [] /\
  paginate (Some (overflowing [Text trailing_space])) (Some (Inside 0 (At 5)))
    (editing (one_page (js "hello&nbsp;")))
  = Ok {| state :=
            {| notes := [one_page (js "hello&nbsp;")];
               currentNote :=
                 Some (with_pages (one_page (js "hello&nbsp;"))
                         [Some (js "hello"); Some (js "&nbsp;")] [Some []; Some []]);
               activePageIndex := 1%nat |};
          dom := Some [Text (js "hello")]; warned := false |} /\
  extractContents (Inside 0 (Inside 0 (At 4))) [formatted (js "abcd")]
  = Some ([formatted (js "abcd")], [formatted []]) /\
  text_of [formatted []] = [] /\
  paginate (Some (overflowing [formatted (js "abcd")]))
    (Some (Inside 0 (Inside 0 (At 4))))
    (editing (one_page (innerHTML [formatted (js "abcd")])))
  = Ok {| state :=
            {| notes := [one_page (innerHTML [formatted (js "abcd")])];
               currentNote :=
                 Some (with_pages (one_page (innerHTML [formatted (js "abcd")]))
                         [Some (innerHTML [formatted (js "abcd")]);
                          Some (innerHTML [formatted []])] [Some []; Some []]);
               activePageIndex := 1%nat |};
          dom := Some [formatted (js "abcd")]; warned := false |}.
Proof. repeat split; vm_compute; reflexivity. Qed.

(** An empty array, with white space around it. *)
Lemma import_empty_array_witness :
  importNotes (js "1700000000001") (js "2024-05-06") (js " [ ] ") one_note
  = Ok ({| notes := [createNewNote (js "1700000000001") (js "2024-05-06")];
           currentNote := Some (createNewNote (js "1700000000001") (js "2024-05-06"));
           activePageIndex := 0%nat |}, Imported 0).
Proof.
  apply (import_empty_array (js "1700000000001") (js "2024-05-06") (js " [ ] ") []
           one_note).
  reflexivity.
Defined.

(** The legacy backup is accepted and replaces the collection. *)
Lemma importNotes_accepts_exactly_witness :
  exists note,
    importNotes (js "1700000000001") (js "2024-05-06") legacy_backup one_note
    = Ok ({| notes := [note]; currentNote := Some note; activePageIndex := 0%nat |},
          Imported 1).
Proof.
  destruct (importNotes_accepts_exactly (js "1700000000001") (js "2024-05-06")
              legacy_backup one_note) as (_ & _ & H).
  eexists. rewrite (H _ eq_refl eq_refl). reflexivity.
Defined.

(** C2, as stated, fails: [backup_with_null] is a JSON array whose first
    element has an [id] and a [title], and it is rejected. *)
Lemma import_rejects_null_element :
  JSON_parse backup_with_null
  = Ok (VArr [VObj [(js "id", VStr (js "1")); (js "title", VStr (js "t"))]; VNull] []) /\
  importNotes (js "1700000000001") (js "2024-05-06") backup_with_null one_note
  = Ok (one_note, InvalidFile).
Proof. split; vm_compute; reflexivity. Qed.

(** ** Saving, loading, exporting and importing the collection *)

Lemma skip_ws_spaces w s : forallb is_json_ws w = true -> skip_ws (w ++ s) = skip_ws s.
Proof.
  induction w as [|c w IH]; [done|]. cbn [forallb app skip_ws].
  intros [-> Hw]%andb_true_iff. by apply IH.
Qed.

Lemma join_with_cons sep a b l :
  join_with sep (a :: b :: l) = a ++ sep ++ join_with sep (b :: l).
Proof. done. Qed.

Section Persistence.
Context {NUM : JSNumber}.

Lemma aligned_fields note :
  aligned note = true ->
  exists c cp d dp,
    get_field note (js "content") = Ok (Some (VArr c cp)) /\
    get_field note (js "drawingData") = Ok (Some (VArr d dp)) /\
    length c = length d /\ (1 <= length c)%nat.
Proof.
  unfold aligned.
  destruct (get_field note (js "content")) as [[[| | | |c cp|]|]| |]; try done.
  destruct (get_field note (js "drawingData")) as [[[| | | |d dp|]|]| |]; try done.
  intros [H1 H2]%andb_true_iff.
  apply bool_decide_eq_true in H1, H2. by exists c, cp, d, dp.
Qed.

Lemma aligned_is_object note : aligned note = true -> is_object note = true.
Proof.
  intros (c & cp & d & dp & Hc & _)%aligned_fields. by destruct note.
Qed.

(** The migration leaves an aligned note as it is. *)
Lemma migrate_of_aligned note : aligned note = true -> migrate note = Ok note.
Proof.
  intros (c & cp & d & dp & Hc & Hd & Hlen & _)%aligned_fields.
  unfold migrate, wrap_legacy. rewrite Hc. cbn [bind is_string truthy_opt truthy negb orb].
  unfold reconcile_drawing. rewrite Hd, Hc.
  cbn [bind truthy_opt truthy negb length_of_opt length_of].
  by rewrite Hlen, bool_decide_eq_true_2.
Qed.

Lemma wrapped_of_aligned note : aligned note = true -> wrapped note = note.
Proof.
  intros (c & cp & d & dp & Hc & _)%aligned_fields. unfold wrapped.
  destruct note as [| | | |elems props|props]; try done;
    cbn [get_field props_of] in *; injection Hc as ->; done.
Qed.

Lemma clean_sound v : clean v = true -> json_clean v.
Proof.
  induction v as [|b|n|s|elems props IHe _|props IHp] using value_ind; cbn [clean].
  - constructor.
  - constructor.
  - by constructor.
  - constructor.
  - intros [Hp He]%andb_true_iff. destruct props; [|done]. constructor.
    rewrite forallb_forall in He. rewrite List.Forall_forall in IHe.
    apply List.Forall_forall. intros x Hx. apply IHe; [done|]. by apply He.
  - intros [[Hnd Hidx]%andb_true_iff Hall]%andb_true_iff.
    apply bool_decide_eq_true in Hnd.
    rewrite forallb_forall in Hidx. rewrite forallb_forall in Hall.
    rewrite List.Forall_forall in IHp.
    constructor; [done| |]; apply List.Forall_forall; intros x Hx.
    + eapply bool_decide_eq_true. by apply Hidx.
    + apply IHp; [done|]. by apply Hall.
Qed.

Lemma map_each_fixed (f : value -> result value) l :
  Forall (fun v => f v = Ok v) l -> map_each f l = Ok l.
Proof.
  induction 1 as [|v l Hv _ IH]; [done|]. cbn [map_each]. by rewrite Hv, IH.
Qed.

(** X1. What the autosave effect stores is what the load effect restores:
    loading the text saved for a collection of aligned notes gives the
    same notes back, in order and without an error; the first of them
    becomes the current note (a fresh note that is not part of the
    collection when the collection is empty) and the first page the
    active page. *)
Theorem load_restores_autosave (LAW : number_round_trip) (now today : jsstring)
    (saved : list value) :
  Forall json_clean saved ->
  Forall (fun n => aligned n = true) saved ->
  loadNotes now today (autosave false saved)
  = Ok ({| notes := saved;
           currentNote := Some (match saved with
                                | first :: _ => first
                                | [] => createNewNote now today
                                end);
           activePageIndex := 0%nat |}, false).
Proof.
  intros Hclean Haligned. unfold autosave, loadNotes.
  assert (Hp : JSON_parse (JSON_stringify (VArr saved [])) = Ok (VArr saved [])).
  { apply JSON_round_trip; [done|]. by constructor. }
  destruct (JSON_stringify (VArr saved [])) as [|c text] eqn:Etext; [done|].
  rewrite Hp. cbn [bind map_method].
  rewrite map_each_fixed; [done|].
  eapply List.Forall_impl; [|exact Haligned]. intros n Hn. by apply migrate_of_aligned.
Qed.

(** *** Reading back the indented text *)

Lemma parse_value_spaces w s fuel :
  forallb is_json_ws w = true -> parse_value fuel (w ++ s) = parse_value fuel s.
Proof.
  intros Hw. destruct fuel as [|fuel]; [done|].
  cbn [parse_value]. by rewrite skip_ws_spaces.
Qed.

Lemma parse_elements_spaces w s fuel acc :
  forallb is_json_ws w = true ->
  parse_elements fuel (w ++ s) acc = parse_elements fuel s acc.
Proof.
  intros Hw. destruct fuel as [|fuel]; [done|].
  cbn [parse_elements]. by rewrite parse_value_spaces.
Qed.

Lemma parse_members_spaces w s fuel acc :
  forallb is_json_ws w = true ->
  parse_members fuel (w ++ s) acc = parse_members fuel s acc.
Proof.
  intros Hw. destruct fuel as [|fuel]; [done|].
  cbn [parse_members]. by rewrite skip_ws_spaces.
Qed.

Lemma indented_head gap indent v :
  number_round_trip -> json_clean v ->
  exists c r, stringify_indented gap indent v = c :: r /\ value_start c.
Proof.
  intros LAW Hv.
  destruct (stringify_head v LAW Hv) as (c & r & Hs & Hc).
  destruct Hv as [|b|n Hn|s|elems _|props _ _ _]; cbn [stringify_indented].
  - by eexists _, _.
  - destruct b; by eexists _, _.
  - simpl in Hs. by eexists _, _.
  - by eexists _, _.
  - destruct elems; by eexists _, _.
  - destruct props; by eexists _, _.
Qed.

Lemma parse_elements_indented gap inner indent elems :
  forallb is_json_ws inner = true -> forallb is_json_ws indent = true ->
  Forall (reads_back gap inner) elems ->
  elems <> [] ->
  forall acc fuel rest,
    (2 * length (join_with (separator inner)
                   (map (stringify_indented gap inner) elems)) + 1 <= fuel)%nat ->
    parse_elements fuel
      (join_with (separator inner) (map (stringify_indented gap inner) elems)
       ++ 10 :: indent ++ 93 :: rest) acc
    = Some (VArr (acc ++ elems) [], rest).
Proof.
  intros Hinner Hindent. induction 1 as [|v l IHv Hl IH]; [done|].
  intros _ acc fuel rest Hfuel.
  destruct fuel as [|fuel]; [lia|].
  assert (Hclose : skip_ws (10 :: indent ++ 93 :: rest) = 93 :: rest).
  { change (10 :: indent ++ 93 :: rest) with ((10 :: indent) ++ 93 :: rest).
    rewrite skip_ws_spaces; [done|]. cbn [forallb]. by rewrite Hindent. }
  destruct l as [|v' l'].
  - cbn [map join_with] in *. cbn [parse_elements].
    rewrite IHv by (done || lia). cbn [mbind option_bind].
    rewrite Hclose. done.
  - cbn [map] in *. rewrite join_with_cons in *.
    rewrite !length_app in Hfuel. unfold separator in Hfuel at 1.
    cbn [length] in Hfuel.
    rewrite <- !app_assoc. cbn [parse_elements].
    rewrite IHv by (done || lia). unfold separator at 1.
    cbn [mbind option_bind app skip_ws].
    change (is_json_ws 44) with false. cbv iota.
    change (44 =? 44) with true. cbv iota.
    change (10 :: inner ++ ?t) with ((10 :: inner) ++ t).
    rewrite parse_elements_spaces by (cbn [forallb]; by rewrite Hinner).
    rewrite IH; [by rewrite <- app_assoc|done|]. lia.
Qed.

Lemma parse_member_spaced k tail (acc : list (jsstring * value)) fuel :
  parse_members (S fuel) (print_member_spaced (k, tail)) acc =
  '(v, r3) ← parse_value fuel tail;
  match skip_ws r3 with
  | d :: r4 =>
      if d =? 44 then parse_members fuel r4 (set_prop k v acc)
      else if d =? 125 then Some (VObj (set_prop k v acc), r4)
      else None
  | [] => None
  end.
Proof.
  unfold print_member_spaced, quote. cbn [fst snd app].
  cbn [parse_members skip_ws]. change (is_json_ws 34) with false. cbv iota.
  change (34 =? 34) with true. cbv iota.
  rewrite <- app_assoc. cbn [app].
  rewrite parse_quote_body. cbn [mbind option_bind skip_ws].
  change (is_json_ws 58) with false. cbv iota.
  change (58 =? 58) with true. cbv iota.
  change (32 :: tail) with ([32] ++ tail).
  by rewrite parse_value_spaces.
Qed.

Lemma parse_members_indented gap inner indent props :
  forallb is_json_ws inner = true -> forallb is_json_ws indent = true ->
  Forall (fun p => reads_back gap inner p.2) props ->
  props <> [] ->
  forall acc fuel rest,
    NoDup (map fst (acc ++ props)) ->
    (2 * length (join_with (separator inner) (members_indented gap inner props)) + 1
     <= fuel)%nat ->
    parse_members fuel
      (join_with (separator inner) (members_indented gap inner props)
       ++ 10 :: indent ++ 125 :: rest) acc
    = Some (VObj (acc ++ props), rest).
Proof.
  intros Hinner Hindent. induction 1 as [|[k v] l IHv Hl IH]; [done|].
  intros _ acc fuel rest Hnd Hfuel.
  destruct fuel as [|fuel]; [lia|].
  assert (Hk : k ∉ map fst acc).
  { rewrite map_app in Hnd. apply list.NoDup_app in Hnd as (_ & Hd & _).
    intros Hin. apply (Hd _ Hin). simpl. left. }
  assert (Hclose : skip_ws (10 :: indent ++ 125 :: rest) = 125 :: rest).
  { change (10 :: indent ++ 125 :: rest) with ((10 :: indent) ++ 125 :: rest).
    rewrite skip_ws_spaces; [done|]. cbn [forallb]. by rewrite Hindent. }
  unfold members_indented in *. cbn [map fst snd] in *.
  assert (Hlen : (length (stringify_indented gap inner v) + 4
                  <= length (print_member_spaced (k, stringify_indented gap inner v)))%nat).
  { unfold print_member_spaced, quote. cbn [fst snd].
    rewrite length_app, !length_cons, length_app. simpl. lia. }
  assert (Hmember : forall t tl, print_member_spaced (k, t) ++ tl
                                 = print_member_spaced (k, t ++ tl)).
  { intros t tl. unfold print_member_spaced, quote. cbn [fst snd].
    rewrite <- !app_assoc. cbn [app]. by rewrite <- !app_assoc. }
  cbn [snd] in IHv.
  destruct l as [|p' l'].
  - cbn [map join_with] in *.
    rewrite Hmember, parse_member_spaced.
    rewrite IHv by (done || lia). cbn [mbind option_bind].
    rewrite Hclose. change (125 =? 44) with false. change (125 =? 125) with true.
    cbv iota. by rewrite set_prop_fresh.
  - cbn [map] in *. rewrite join_with_cons in *.
    rewrite !length_app in Hfuel. unfold separator in Hfuel at 1.
    cbn [length] in Hfuel.
    rewrite <- !app_assoc. rewrite Hmember, parse_member_spaced.
    rewrite IHv by (done || lia). unfold separator at 1.
    cbn [mbind option_bind app skip_ws].
    change (is_json_ws 44) with false. cbv iota.
    change (44 =? 44) with true. cbv iota.
    change (10 :: inner ++ ?t) with ((10 :: inner) ++ t).
    rewrite parse_members_spaces by (cbn [forallb]; by rewrite Hinner).
    rewrite set_prop_fresh by done.
    rewrite IH; [by rewrite <- app_assoc|done|by rewrite <- app_assoc|lia].
Qed.

Lemma parse_indented (LAW : number_round_trip) gap v :
  forallb is_json_ws gap = true ->
  json_clean v ->
  forall indent, forallb is_json_ws indent = true -> reads_back gap indent v.
Proof.
  intros Hgap.
  induction v as [|b|n|s|elems props IHe _|props IHp] using value_ind;
    intros Hv indent Hindent fuel rest Hfuel Hrest.
  - by apply (parse_stringify LAW VNull).
  - by apply (parse_stringify LAW (VBool b)).
  - by apply (parse_stringify LAW (VNum n)).
  - by apply (parse_stringify LAW (VStr s)).
  - inversion Hv as [| | | |? Hall|]; subst.
    destruct elems as [|e elems'].
    { by apply (parse_stringify LAW (VArr [] [])). }
    assert (Hinner : forallb is_json_ws (indent ++ gap) = true).
    { by rewrite forallb_app, Hindent, Hgap. }
    assert (Hall' : Forall (reads_back gap (indent ++ gap)) (e :: elems')).
    { apply List.Forall_forall. intros x Hx.
      rewrite List.Forall_forall in IHe. rewrite List.Forall_forall in Hall.
      by apply IHe; [|apply Hall|]. }
    inversion Hall as [|? ? He _]; subst.
    destruct (indented_head gap (indent ++ gap) e LAW He) as (c & r & Hs & Hc).
    assert (Hj : exists r', join_with (separator (indent ++ gap))
                   (map (stringify_indented gap (indent ++ gap)) (e :: elems')) = c :: r').
    { destruct elems'; cbn [map join_with]; rewrite Hs; by eexists. }
    destruct Hj as [r' Hj].
    destruct fuel; [simpl in Hfuel; lia|].
    cbn [stringify_indented is_empty] in *.
    remember (indent ++ gap) as inner eqn:Einner.
    remember (join_with (separator inner)
                (map (stringify_indented gap inner) (e :: elems'))) as body eqn:Ebody.
    cbn [app]. rewrite parse_value_array.
    rewrite <- ?app_assoc. cbn [app]. rewrite <- ?app_assoc. cbn [app].
    change (10 :: inner ++ ?t) with ((10 :: inner) ++ t).
    rewrite skip_ws_spaces by (cbn [forallb]; by rewrite Hinner).
    rewrite parse_elements_spaces by (cbn [forallb]; by rewrite Hinner).
    rewrite Hj at 1. cbn [app].
    rewrite (skip_ws_start _ _ Hc).
    destruct Hc as (_ & Hc & _). apply N.eqb_neq in Hc. rewrite Hc.
    rewrite Ebody.
    rewrite (parse_elements_indented gap inner indent _ Hinner Hindent Hall');
      [done|done|].
    rewrite <- Ebody.
    rewrite !length_cons, !length_app in Hfuel. cbn [length] in Hfuel. lia.
  - inversion Hv as [| | | | |? Hnd Hidx Hall]; subst.
    destruct props as [|[k v] props'].
    { by apply (parse_stringify LAW (VObj [])). }
    assert (Hinner : forallb is_json_ws (indent ++ gap) = true).
    { by rewrite forallb_app, Hindent, Hgap. }
    assert (Hall' : Forall (fun p => reads_back gap (indent ++ gap) p.2) ((k, v) :: props')).
    { apply List.Forall_forall. intros x Hx.
      rewrite List.Forall_forall in IHp. rewrite List.Forall_forall in Hall.
      by apply IHp; [|apply Hall|]. }
    assert (Hj : exists r', join_with (separator (indent ++ gap))
                   (members_indented gap (indent ++ gap) ((k, v) :: props')) = 34 :: r').
    { unfold members_indented. destruct props'; cbn [map join_with];
        unfold print_member_spaced, quote; by eexists. }
    destruct Hj as [r' Hj].
    destruct fuel; [simpl in Hfuel; lia|].
    cbn [stringify_indented is_empty] in *.
    rewrite (own_order_stringify _ _ Hidx) in *.
    fold (members_indented gap (indent ++ gap) ((k, v) :: props')) in *.
    remember (indent ++ gap) as inner eqn:Einner.
    remember (join_with (separator inner)
                (members_indented gap inner ((k, v) :: props'))) as body eqn:Ebody.
    cbn [app]. rewrite parse_value_object.
    rewrite <- ?app_assoc. cbn [app]. rewrite <- ?app_assoc. cbn [app].
    change (10 :: inner ++ ?t) with ((10 :: inner) ++ t).
    rewrite skip_ws_spaces by (cbn [forallb]; by rewrite Hinner).
    rewrite parse_members_spaces by (cbn [forallb]; by rewrite Hinner).
    rewrite Hj at 1. cbn [app skip_ws].
    change (is_json_ws 34) with false. cbv iota.
    change (34 =? 125) with false. cbv iota.
    rewrite Ebody.
    rewrite (parse_members_indented gap inner indent _ Hinner Hindent Hall');
      [done|done|done|].
    rewrite <- Ebody.
    rewrite !length_cons, !length_app in Hfuel. cbn [length] in Hfuel. lia.
Qed.

(** [JSON.parse(JSON.stringify(v, null, 2))] is [v]. *)
Lemma JSON_parse_indented (LAW : number_round_trip) v :
  json_clean v -> JSON_parse (stringify_indented (js "  ") [] v) = Ok v.
Proof.
  intros Hv. unfold JSON_parse.
  rewrite <- (app_nil_r (stringify_indented _ _ v)) at 2.
  rewrite (parse_indented LAW (js "  ") v) by (done || lia). done.
Qed.

End Persistence.

(** ** Export, import and the migration *)

Lemma set_prop_twice {A} k (v w : A) props :
  set_prop k w (set_prop k v props) = set_prop k w props.
Proof.
  induction props as [|[k' v'] ps IH]; simpl.
  - by rewrite bool_decide_eq_true_2.
  - destruct (bool_decide (k' = k)) eqn:E; simpl.
    + by rewrite bool_decide_eq_true_2.
    + by rewrite E, IH.
Qed.

Section Collection.
Context {NUM : JSNumber}.

(** X2. A backup written by [exportNotes] is read back by [importNotes]:
    for a collection of aligned notes whose first note has an [id] and a
    [title], the file offered for download is accepted, and the import
    replaces the collection by the notes that were exported, in order,
    with the first of them as the current note. An empty collection is
    not exported at all. *)
Theorem import_restores_export (LAW : number_round_trip) (now today : jsstring)
    (first : value) (others : list value) (st : AppState value) :
  Forall json_clean (first :: others) ->
  Forall (fun n => aligned n = true) (first :: others) ->
  has_field (js "id") first = Ok true ->
  has_field (js "title") first = Ok true ->
  (exists text,
     exportNotes (first :: others) = Download (js "sermon-notes-backup.json") text /\
     importNotes now today text st
     = Ok ({| notes := first :: others; currentNote := Some first;
              activePageIndex := 0%nat |}, Imported (S (length others)))) /\
  exportNotes [] = NothingToExport.
Proof.
  intros Hclean Haligned Hid Htitle. split; [|done].
  eexists. split; [done|].
  assert (Hp : JSON_parse (stringify_indented (js "  ") [] (VArr (first :: others) []))
               = Ok (VArr (first :: others) [])).
  { apply JSON_parse_indented; [done|]. by constructor. }
  assert (Hobj : forallb is_object (first :: others) = true).
  { apply forallb_forall. intros n Hn. apply aligned_is_object.
    rewrite List.Forall_forall in Haligned. by apply Haligned. }
  assert (Hacc : acceptable (VArr (first :: others) []) = true).
  { cbn [acceptable]. rewrite Hobj. cbn [andb].
    cbn [forallb] in Hobj. apply andb_true_iff in Hobj as [Hf _].
    rewrite !has_field_object in Hid, Htitle by done.
    injection Hid as ->. by injection Htitle as ->. }
  rewrite (importNotes_accepted now today _ st _ Hp Hacc). cbn [elements].
  assert (Hw : map wrapped (first :: others) = first :: others).
  { clear -Haligned. induction Haligned as [|n l Hn _ IH]; [done|].
    cbn [map]. by rewrite (wrapped_of_aligned n Hn), IH. }
  rewrite Hw. done.
Qed.

Lemma migrate_primitive v : is_object v = false -> migrate v = Throw TypeError.
Proof. by destruct v. Qed.

Lemma length_of_not_thrown c e : c <> VNull -> length_of_opt (Some c) <> Throw e.
Proof.
  destruct c as [| | | |? ?|props]; try done. intros _.
  cbn [length_of_opt length_of]. by destruct (has_prop _ _).
Qed.

Lemma reconcile_not_thrown v e : is_object v = true -> reconcile_drawing (wrapped v) <> Throw e.
Proof.
  intros Hv. pose proof (wrapped_is_object v Hv) as Hw.
  assert (Hc : exists c, lookup_prop (js "content") (props_of (wrapped v)) = Some c /\
                         c <> VNull).
  { unfold wrapped.
    destruct (lookup_prop (js "content") (props_of v)) as [c|] eqn:Ec.
    - destruct (is_string (Some c) || negb (truthy_opt (Some c))) eqn:E.
      + exists (VArr [or_empty (Some c)] []). split; [|done].
        destruct v; try done; cbn [props_of];
          rewrite (lookup_set_prop_ne (js "drawingData") (js "content")) by done;
          by rewrite lookup_set_prop_eq.
      + exists c. split; [done|]. by destruct c.
    - cbn [is_string truthy_opt negb orb].
      exists (VArr [or_empty None] []). split; [|done].
      destruct v; try done; cbn [props_of];
        rewrite (lookup_set_prop_ne (js "drawingData") (js "content")) by done;
        by rewrite lookup_set_prop_eq. }
  destruct Hc as (c & Hc & Hnull).
  unfold reconcile_drawing.
  assert (Hget : forall k, get_field (wrapped v) k
                           = Ok (lookup_prop k (props_of (wrapped v)))).
  { intros k. by destruct (wrapped v). }
  rewrite !Hget, Hc. cbn [bind].
  assert (Hset : forall x, set_field (wrapped v) (js "drawingData") x <> Throw e).
  { intros x. by destruct (wrapped v). }
  destruct (length_of_opt (Some c)) as [lc|e'|] eqn:Elc;
    [| by apply length_of_not_thrown in Elc |].
  - destruct (lookup_prop (js "drawingData") (props_of (wrapped v))) as [d|] eqn:Ed.
    + destruct (truthy_opt (Some d)) eqn:Et; cbn [negb bind]; [|apply Hset].
      destruct (length_of_opt (Some d)) as [ld|e'|] eqn:Eld; cbn [bind].
      * destruct (negb _); [apply Hset|done].
      * apply length_of_not_thrown in Eld; [done|]. by destruct d.
      * done.
    + cbn [truthy_opt negb bind]. apply Hset.
  - destruct (lookup_prop (js "drawingData") (props_of (wrapped v))) as [d|] eqn:Ed.
    + destruct (truthy_opt (Some d)) eqn:Et; cbn [negb bind]; [|done].
      destruct (length_of_opt (Some d)) as [ld|e'|] eqn:Eld; cbn [bind]; [done| |done].
      apply length_of_not_thrown in Eld; [done|]. by destruct d.
    + done.
Qed.

Lemma migrate_object v :
  is_object v = true -> migrate v <> Exotic -> exists n, migrate v = Ok n.
Proof.
  intros Hv Hex. unfold migrate in *.
  rewrite (wrap_legacy_object v Hv) in *. cbn [bind] in *.
  destruct (reconcile_drawing (wrapped v)) as [n|e|] eqn:E; [by eexists| |done].
  by apply reconcile_not_thrown in E.
Qed.

Lemma map_each_migrate_ok elems :
  Forall (fun v => is_object v = true) elems ->
  Forall (fun v => migrate v <> Exotic) elems ->
  exists loaded, map_each migrate elems = Ok loaded /\
    Forall2 (fun v n => migrate v = Ok n) elems loaded.
Proof.
  induction 1 as [|v l Hv _ IH]; intros Hex.
  - by exists [].
  - apply Forall_cons_1 in Hex as [Hv' Hl].
    destruct (migrate_object v Hv Hv') as [n Hn].
    destruct (IH Hl) as (loaded & Hm & Hall).
    exists (n :: loaded). cbn [map_each]. rewrite Hn, Hm. split; [done|].
    by constructor.
Qed.

Lemma map_each_migrate_throws elems :
  Exists (fun v => is_object v = false) elems ->
  Forall (fun v => migrate v <> Exotic) elems ->
  exists e, map_each migrate elems = Throw e.
Proof.
  induction 1 as [v l Hv|v l _ IH]; intros [Hv' Hl]%Forall_cons_1.
  - cbn [map_each]. rewrite (migrate_primitive v Hv). by eexists.
  - cbn [map_each]. destruct (is_object v) eqn:Hv.
    + destruct (migrate_object v Hv Hv') as [n ->]. cbn [bind].
      destruct (IH Hl) as [e ->]. by eexists.
    + rewrite (migrate_primitive v Hv). by eexists.
Qed.

(** X3. What the load effect makes of the stored text. A text that is
    not JSON, that is not an array, or that has an element which is not
    an object (even one [null] among the notes) is given up as a whole:
    an error is printed and the collection is one fresh note. An array
    of objects is always loaded, one note for each element, each the
    migration of its element. (The notes are within what is modelled:
    none has a [content] or a [drawingData] that is a plain object with
    a property named [length].) *)
Theorem loadNotes_falls_back (now today text : jsstring) :
  text <> [] ->
  (forall e, JSON_parse text = Throw e ->
     loadNotes now today (Some text) = Ok (fresh_collection now today, true)) /\
  (forall v, JSON_parse text = Ok v -> is_array v = false ->
     loadNotes now today (Some text) = Ok (fresh_collection now today, true)) /\
  (forall elems props, JSON_parse text = Ok (VArr elems props) ->
     Forall (fun v => migrate v <> Exotic) elems ->
     Exists (fun v => is_object v = false) elems ->
     loadNotes now today (Some text) = Ok (fresh_collection now today, true)) /\
  (forall elems props, JSON_parse text = Ok (VArr elems props) ->
     Forall (fun v => migrate v <> Exotic) elems ->
     Forall (fun v => is_object v = true) elems ->
     exists loaded,
       loadNotes now today (Some text) = Ok (loaded_state now today loaded, false) /\
       Forall2 (fun v n => migrate v = Ok n) elems loaded).
Proof.
  intros Htext. destruct text as [|c text]; [done|].
  unfold loadNotes. fold (fresh_collection now today).
  split; [|split; [|split]].
  - by intros e ->.
  - intros v -> Hv. by destruct v.
  - intros elems props -> Hex Hprim. cbn [bind map_method].
    by destruct (map_each_migrate_throws elems Hprim Hex) as [e ->].
  - intros elems props -> Hex Hobj. cbn [bind map_method].
    destruct (map_each_migrate_ok elems Hobj Hex) as (loaded & -> & Hall).
    by exists loaded.
Qed.

Lemma get_field_object v k :
  is_object v = true -> get_field v k = Ok (lookup_prop k (props_of v)).
Proof. by destruct v. Qed.

Lemma set_field_object v k x :
  is_object v = true ->
  exists v', set_field v k x = Ok v' /\ is_object v' = true /\
    props_of v' = set_prop k x (props_of v) /\ elements v' = elements v /\
    is_array v' = is_array v.
Proof. destruct v; try done; intros _; by eexists. Qed.

Lemma object_eq v v' :
  is_object v = true -> is_object v' = true ->
  props_of v' = props_of v -> elements v' = elements v -> is_array v' = is_array v ->
  v' = v.
Proof.
  destruct v, v'; try done; cbn [props_of elements]; intros _ _; congruence.
Qed.

Lemma wrapped_content v :
  is_object v = true ->
  exists c, lookup_prop (js "content") (props_of (wrapped v)) = Some c /\
    is_string (Some c) || negb (truthy_opt (Some c)) = false.
Proof.
  intros Hv. unfold wrapped.
  destruct (lookup_prop (js "content") (props_of v)) as [c|] eqn:Ec.
  - destruct (is_string (Some c) || negb (truthy_opt (Some c))) eqn:E.
    + exists (VArr [or_empty (Some c)] []). split; [|done].
      destruct v; try done; cbn [props_of];
        rewrite (lookup_set_prop_ne (js "drawingData") (js "content")) by done;
        by rewrite lookup_set_prop_eq.
    + by exists c.
  - cbn [is_string truthy_opt negb orb].
    exists (VArr [or_empty None] []). split; [|done].
    destruct v; try done; cbn [props_of];
      rewrite (lookup_set_prop_ne (js "drawingData") (js "content")) by done;
      by rewrite lookup_set_prop_eq.
Qed.

Lemma wrapped_other_fields v k :
  k <> js "content" -> k <> js "drawingData" ->
  lookup_prop k (props_of (wrapped v)) = lookup_prop k (props_of v).
Proof.
  intros H1 H2. unfold wrapped.
  destruct (is_string _ || negb _); [|done].
  destruct v; cbn [props_of]; by rewrite ?lookup_set_prop_ne by done.
Qed.

(** X4. The migration run on load settles: a note it has produced is
    left as it is by a second run, so that loading what was loaded
    before changes nothing more. The migration touches no property of a
    note besides [content] and [drawingData]. *)
Theorem migrate_settles (note note' : value) :
  migrate note = Ok note' ->
  migrate note' = Ok note' /\
  (forall k, k <> js "content" -> k <> js "drawingData" ->
     get_field note' k = get_field note k).
Proof.
  intros Hm.
  assert (Hobj : is_object note = true).
  { destruct (is_object note) eqn:E; [done|]. by rewrite migrate_primitive in Hm. }
  unfold migrate in Hm. rewrite (wrap_legacy_object note Hobj) in Hm.
  cbn [bind] in Hm.
  pose proof (wrapped_is_object note Hobj) as Hw.
  destruct (wrapped_content note Hobj) as (c & Hc & Hkeep).
  set (n1 := wrapped note) in *.
  assert (Hwrap : forall n, is_object n = true ->
            lookup_prop (js "content") (props_of n) = Some c -> wrap_legacy n = Ok n).
  { intros n Hn Hcn. unfold wrap_legacy.
    rewrite (get_field_object n _ Hn), Hcn. cbn [bind]. by rewrite Hkeep. }
  unfold reconcile_drawing in Hm.
  rewrite !(get_field_object n1 _ Hw), Hc in Hm. cbn [bind] in Hm.
  set (d := lookup_prop (js "drawingData") (props_of n1)) in *.
  destruct (if negb (truthy_opt d) then Ok true
            else do ld <- length_of_opt d; do lc <- length_of_opt (Some c);
                 Ok (negb (bool_decide (ld = lc)))) as [differ| |] eqn:Ediffer;
    [|done|done].
  cbn [bind] in Hm. destruct differ.
  - destruct (length_of_opt (Some c)) as [lc| |] eqn:Elc; [|done|done].
    cbn [bind] in Hm.
    destruct (set_field_object n1 (js "drawingData")
                (VArr (map (fun i => or_empty (optional_index d i))
                         (seq 0 (default 0%nat lc))) []) Hw)
      as (n2 & Hset & Hn2 & Hprops & Helems & Harr).
    rewrite Hset in Hm. injection Hm as <-.
    assert (Hc2 : lookup_prop (js "content") (props_of n2) = Some c).
    { rewrite Hprops.
      by rewrite (lookup_set_prop_ne (js "drawingData") (js "content")). }
    split.
    + unfold migrate. rewrite (Hwrap n2 Hn2 Hc2). cbn [bind].
      unfold reconcile_drawing.
      rewrite !(get_field_object n2 _ Hn2), Hc2.
      rewrite Hprops, lookup_set_prop_eq.
      cbn [bind]. rewrite Elc.
      cbn [bind truthy_opt truthy negb length_of_opt length_of].
      rewrite length_map, length_seq.
      destruct lc as [n|]; cbn [default].
      * by rewrite bool_decide_eq_true_2.
      * rewrite bool_decide_eq_false_2 by done. cbn [negb seq map].
        destruct (set_field_object n2 (js "drawingData") (VArr [] []) Hn2)
          as (n3 & -> & Hn3 & Hprops3 & Helems3 & Harr3).
        f_equal. apply object_eq; try done.
        rewrite Hprops3, Hprops. apply set_prop_twice.
    + intros k Hk1 Hk2.
      rewrite (get_field_object n2 _ Hn2), (get_field_object note _ Hobj).
      rewrite Hprops, lookup_set_prop_ne by done.
      unfold n1. by rewrite wrapped_other_fields.
  - injection Hm as <-. split.
    + unfold migrate. rewrite (Hwrap n1 Hw Hc). cbn [bind].
      unfold reconcile_drawing.
      rewrite !(get_field_object n1 _ Hw), Hc. cbn [bind]. fold d.
      by rewrite Ediffer.
    + intros k Hk1 Hk2.
      rewrite (get_field_object n1 _ Hw), (get_field_object note _ Hobj).
      unfold n1. by rewrite wrapped_other_fields.
Qed.

End Collection.

(** ** The page store under the actions of the user *)

Section Store.
Context {NUM : JSNumber} {HTML : Serializer}.

Lemma replace_note_aligned cur updated l :
  pages_aligned updated -> Forall pages_aligned l ->
  Forall pages_aligned (replace_note cur updated l).
Proof.
  intros Hu Hl. unfold replace_note.
  induction Hl as [|n l Hn _ IH]; constructor; [|done].
  by destruct (bool_decide (id n = id cur)).
Qed.

Lemma find_note_elem noteId l n : find_note noteId l = Some n -> n ∈ l /\ id n = noteId.
Proof.
  induction l as [|m l IH]; [done|]. cbn [find_note].
  destruct (bool_decide (id m = noteId)) eqn:E.
  - intros [= ->]. apply bool_decide_eq_true in E. split; [left|done].
  - intros [Hin Hid]%IH. split; [by right|done].
Qed.

Lemma length_split_pages i h o cur :
  (i < length (content cur))%nat ->
  (S i < length (content (split_pages i h o cur)))%nat.
Proof.
  intros Hi. unfold split_pages.
  pose proof (length_array_set (content cur) i h) as Hset.
  destruct (array_set (content cur) i h !! S i) as [next|] eqn:E;
    cbn [with_pages content].
  - apply lookup_lt_Some in E. by rewrite length_insert.
  - rewrite length_app. simpl. lia.
Qed.

Lemma ui_step_ok st st' : store_ok st -> ui_step st st' -> store_ok st'.
Proof.
  intros (Hall & cur & Hcur & Hal & Hi) Hstep.
  destruct Hal as [Hlen Hpos].
  destruct Hstep as [st html|st data|st confirmed|st field value|st now today
                    |st noteId|st|st|st editor caret out Hout].
  - unfold store_ok, handleContentChange. rewrite Hcur. cbn [notes currentNote activePageIndex].
    assert (Hnew : pages_aligned
              (with_pages cur (array_set (content cur) (activePageIndex st) html)
                 (drawingData cur))).
    { unfold pages_aligned. cbn [with_pages content drawingData].
      rewrite length_array_set. lia. }
    split; [by apply replace_note_aligned|].
    eexists. split; [done|]. split; [done|].
    cbn [with_pages content]. rewrite length_array_set. lia.
  - unfold store_ok, handleDrawingChange. rewrite Hcur. cbn [notes currentNote activePageIndex].
    assert (Hnew : pages_aligned
              (with_pages cur (content cur)
                 (array_set (drawingData cur) (activePageIndex st) data))).
    { unfold pages_aligned. cbn [with_pages content drawingData].
      rewrite length_array_set. lia. }
    split; [by apply replace_note_aligned|].
    eexists. split; [done|]. split; [done|]. done.
  - destruct confirmed; [|by split; [|exists cur]].
    unfold store_ok, clearDrawing, handleDrawingChange. rewrite Hcur.
    cbn [notes currentNote activePageIndex].
    assert (Hnew : pages_aligned
              (with_pages cur (content cur)
                 (array_set (drawingData cur) (activePageIndex st) []))).
    { unfold pages_aligned. cbn [with_pages content drawingData].
      rewrite length_array_set. lia. }
    split; [by apply replace_note_aligned|].
    eexists. split; [done|]. split; [done|]. done.
  - unfold store_ok, handleNoteChange. rewrite Hcur. cbn [notes currentNote activePageIndex].
    assert (Hnew : pages_aligned (with_field cur field value)) by done.
    split; [by apply replace_note_aligned|].
    eexists. split; [done|]. split; [done|]. done.
  - unfold store_ok, handleNewNote. cbn [fst notes currentNote activePageIndex].
    assert (Hnew : pages_aligned (createdNote now today)).
    { unfold pages_aligned. cbn. lia. }
    split; [by constructor|].
    eexists. split; [done|]. split; [done|]. cbn. lia.
  - unfold store_ok, handleSelectNote.
    destruct (find_note noteId (notes st)) as [n|] eqn:E;
      [|by split; [|exists cur]].
    cbn [notes currentNote activePageIndex]. split; [done|].
    apply find_note_elem in E as [Hin _].
    rewrite List.Forall_forall in Hall.
    assert (Hn : pages_aligned n) by (apply Hall; by apply list_elem_of_In).
    exists n. split; [done|]. split; [done|]. destruct Hn. lia.
  - unfold store_ok, previousPage.
    destruct (bool_decide (activePageIndex st = 0%nat)); [by split; [|exists cur]|].
    cbn [notes currentNote activePageIndex]. split; [done|].
    exists cur. split; [done|]. split; [done|]. lia.
  - unfold store_ok, nextPage. rewrite Hcur.
    destruct (bool_decide (length (content cur) - 1 <= activePageIndex st)%nat);
      [by split; [|exists cur]|].
    cbn [notes currentNote activePageIndex]. split; [done|].
    exists cur. split; [done|]. split; [done|]. lia.
  - unfold paginate in Hout. rewrite Hcur in Hout.
    destruct editor as [ed|]; [|injection Hout as <-; by split; [|exists cur]].
    destruct (scrollHeight ed <=? clientHeight ed);
      [injection Hout as <-; by split; [|exists cur]|].
    destruct caret as [b|]; [|injection Hout as <-; by split; [|exists cur]].
    destruct (extractContents b (childNodes ed)) as [[stay fragment]|]; [|done].
    destruct (is_empty (js_trim (innerHTML fragment)));
      injection Hout as <-; [by split; [|exists cur]|].
    unfold store_ok. cbn [state notes currentNote activePageIndex].
    split; [done|]. eexists. split; [done|]. split.
    + by apply split_pages_aligned.
    + by apply length_split_pages.
Qed.

(** X5. The page store invariant holds whatever the user does: from a
    state in which every note has as many drawings as pages, at least
    one page, and the active page is a page of the current note, every
    sequence of typing, drawing, clearing, field edits, new notes,
    selections, page turns and pagination runs leads to such a state.
    (Import is not among the steps: it stores untyped notes.) *)
Theorem store_ok_preserved (st st' : AppState SermonNote) :
  store_ok st -> ui_steps st st' -> store_ok st'.
Proof.
  intros Hok Hsteps. induction Hsteps as [st|st st1 st2 Hstep _ IH]; [done|].
  apply IH. by apply (ui_step_ok st).
Qed.

Lemma replace_note_present cur updated l :
  (exists n, n ∈ l /\ id n = id cur) -> updated ∈ replace_note cur updated l.
Proof.
  intros (n & Hin & Hid). unfold replace_note.
  apply list_elem_of_fmap. exists n. split; [|done].
  by rewrite bool_decide_eq_true_2.
Qed.

Lemma replace_note_absent cur updated l :
  (forall n, n ∈ l -> id n <> id cur) -> replace_note cur updated l = l.
Proof.
  intros Hno. unfold replace_note. induction l as [|n l IH]; [done|].
  cbn [map]. rewrite bool_decide_eq_false_2 by (apply Hno; left).
  rewrite IH; [done|]. intros m Hm. apply Hno. by right.
Qed.

(** X6. An edit of the current note (of a page, of a drawing, of a
    field) reaches the collection, and with it the autosave, when a note
    of the collection has the identifier of the current note: the edited
    note is then in the collection, which keeps its length. When no note
    of the collection has that identifier, as after loading a stored
    empty list, the edit changes the current note and leaves the
    collection as it was. *)
Theorem edits_reach_collection (st st' : AppState SermonNote) (cur : SermonNote)
    (i : nat) (field : NoteField) (v : jsstring) :
  currentNote st = Some cur ->
  st' = handleContentChange i v st \/ st' = handleDrawingChange i v st \/
  st' = handleNoteChange field v st ->
  exists updated,
    currentNote st' = Some updated /\
    length (notes st') = length (notes st) /\
    ((exists n, n ∈ notes st /\ id n = id cur) -> updated ∈ notes st') /\
    ((forall n, n ∈ notes st -> id n <> id cur) -> notes st' = notes st).
Proof.
  intros Hcur Hst'.
  assert (Hshape : exists updated, currentNote st' = Some updated /\
            notes st' = replace_note cur updated (notes st)).
  { destruct Hst' as [->|[->| ->]];
      unfold handleContentChange, handleDrawingChange, handleNoteChange;
      rewrite Hcur; by eexists. }
  destruct Hshape as (updated & Hu & Hn). exists updated.
  split; [done|]. rewrite Hn. split; [|split].
  - unfold replace_note. by rewrite length_map.
  - apply replace_note_present.
  - apply replace_note_absent.
Qed.

Lemma find_note_first noteId before n after :
  id n = noteId -> (forall m, m ∈ before -> id m <> noteId) ->
  find_note noteId (before ++ n :: after) = Some n.
Proof.
  intros Hn Hb. induction before as [|m before IH]; cbn [app find_note].
  - by rewrite bool_decide_eq_true_2.
  - rewrite bool_decide_eq_false_2 by (apply Hb; left).
    apply IH. intros m' Hm'. apply Hb. by right.
Qed.

Lemma find_note_none noteId l :
  (forall m, m ∈ l -> id m <> noteId) -> find_note noteId l = None.
Proof.
  intros Hl. induction l as [|m l IH]; [done|]. cbn [find_note].
  rewrite bool_decide_eq_false_2 by (apply Hl; left).
  apply IH. intros m' Hm'. apply Hl. by right.
Qed.

(** X7. Selecting a note by its identifier opens, at its first page, the
    first note of the collection that has this identifier, and changes
    nothing when no note has it. A note that [handleNewNote] has just
    created is the first of the collection, so that selecting its
    identifier opens it, whatever identifiers the other notes have. *)
Theorem handleSelectNote_opens_first (st : AppState SermonNote) (noteId : jsstring) :
  (forall before n after,
     notes st = before ++ n :: after -> id n = noteId ->
     (forall m, m ∈ before -> id m <> noteId) ->
     handleSelectNote noteId st
     = {| notes := notes st; currentNote := Some n; activePageIndex := 0%nat |}) /\
  ((forall m, m ∈ notes st -> id m <> noteId) -> handleSelectNote noteId st = st) /\
  (forall now today,
     handleSelectNote now (handleNewNote now today st).1 = (handleNewNote now today st).1).
Proof.
  split; [|split].
  - intros before n after Hnotes Hn Hb. unfold handleSelectNote.
    by rewrite Hnotes, (find_note_first _ _ _ _ Hn Hb).
  - intros Hno. unfold handleSelectNote. by rewrite find_note_none.
  - intros now today. unfold handleSelectNote, handleNewNote.
    cbn [fst notes find_note createdNote id]. by rewrite bool_decide_eq_true_2.
Qed.

(** X8. Clearing the drawing of the active page, once confirmed, leaves
    the page without strokes: the drawing data the editor then receives
    for the active page is the empty string, for which the stroke list is
    empty and the renderer only clears the canvas. The text of the pages
    and the other drawings are left alone. Declined, it changes nothing. *)
Theorem clearDrawing_blanks_page (st : AppState SermonNote) (cur : SermonNote) :
  currentNote st = Some cur ->
  clearDrawing false st = st /\
  exists cur',
    currentNote (clearDrawing true st) = Some cur' /\
    activePageIndex (clearDrawing true st) = activePageIndex st /\
    slot_or_empty (drawingData cur') (activePageIndex st) = [] /\
    deserialize (slot_or_empty (drawingData cur') (activePageIndex st)) = VArr [] [] /\
    drawOnCanvas true (Some (slot_or_empty (drawingData cur') (activePageIndex st)))
    = ([clearRect], Ok tt) /\
    content cur' = content cur /\
    (forall j, (activePageIndex st < length (drawingData cur))%nat ->
       j <> activePageIndex st -> drawingData cur' !! j = drawingData cur !! j).
Proof.
  intros Hcur. split; [done|].
  unfold clearDrawing, handleDrawingChange. rewrite Hcur.
  eexists. split; [done|]. cbn [activePageIndex with_pages drawingData content].
  split; [done|].
  assert (Hslot : slot_or_empty (array_set (drawingData cur) (activePageIndex st) [])
                    (activePageIndex st) = []).
  { unfold slot_or_empty. by rewrite lookup_array_set. }
  rewrite Hslot. repeat split; try done.
  intros j Hi Hj. by apply lookup_array_set_ne.
Qed.

(** X18. Typing does not reset the editor. When the input handler has
    stored the HTML of the editor for the active page, the content the
    page is given for that page is this very HTML, so that the effect
    that copies the content into the editor assigns nothing (and the
    caret stays where it is); the content of every other page and the
    drawings are as before. *)
Theorem typing_keeps_the_editor (st : AppState SermonNote) (cur : SermonNote)
    (html : jsstring) :
  currentNote st = Some cur ->
  (activePageIndex st < length (content cur))%nat ->
  exists cur',
    currentNote (handleContentChange (activePageIndex st) html st) = Some cur' /\
    slot_or_empty (content cur') (activePageIndex st) = html /\
    sync_editor (slot_or_empty (content cur') (activePageIndex st)) (Some html) = None /\
    (forall j, j <> activePageIndex st -> content cur' !! j = content cur !! j) /\
    drawingData cur' = drawingData cur.
Proof.
  intros Hcur Hi. unfold handleContentChange. rewrite Hcur.
  eexists. split; [done|]. cbn [with_pages content drawingData].
  assert (Hslot : slot_or_empty (array_set (content cur) (activePageIndex st) html)
                    (activePageIndex st) = html).
  { unfold slot_or_empty. by rewrite lookup_array_set. }
  rewrite Hslot. split; [done|]. split.
  - unfold sync_editor. by rewrite bool_decide_eq_false_2 by (intros H; by apply H).
  - split; [|done]. intros j Hj. by apply lookup_array_set_ne.
Qed.

End Store.

(** ** Drawing a stroke and rendering the strokes *)

Section Gesture.
Context {NUM : JSNumber}.

Lemma lines_value_snoc strokes s :
  VArr (map stroke_value strokes ++ [stroke_value s]) [] = lines_value (strokes ++ [s]).
Proof. unfold lines_value. by rewrite map_app. Qed.

Lemma startDrawing_typed t penColor penThickness start b strokes :
  startDrawing (Some t) penColor penThickness start
    {| isDrawing := b; lines := lines_value strokes |}
  = Ok {| isDrawing := true;
          lines := lines_value
                     (strokes ++ [captured_stroke t penColor penThickness start []]) |}.
Proof.
  unfold startDrawing. cbn [lines lines_value spread bind].
  by rewrite lines_value_snoc.
Qed.

Lemma push_point_typed t c w pts p :
  push_point p (stroke_value {| tool := Some t; points := pts; color := c; thickness := w |})
  = Ok (stroke_value {| tool := Some t; points := pts ++ [p]; color := c;
                        thickness := w |}).
Proof.
  unfold push_point, stroke_value. cbn [tool points color thickness app].
  cbn [get_field lookup_prop bind].
  rewrite bool_decide_eq_false_2 by (by destruct t).
  rewrite bool_decide_eq_true_2 by done.
  cbn [set_field set_prop].
  rewrite bool_decide_eq_false_2 by (by destruct t).
  rewrite bool_decide_eq_true_2 by done.
  by rewrite map_app.
Qed.

Lemma draw_typed t' t c w pts p strokes :
  draw (Some t') p
    {| isDrawing := true;
       lines := lines_value
                  (strokes ++ [{| tool := Some t; points := pts; color := c;
                                  thickness := w |}]) |}
  = Ok {| isDrawing := true;
          lines := lines_value
                     (strokes ++ [{| tool := Some t; points := pts ++ [p]; color := c;
                                     thickness := w |}]) |}.
Proof.
  unfold draw. cbn [isDrawing lines negb orb].
  rewrite bool_decide_eq_true_2 by by eexists.
  cbn [negb lines_value spread bind].
  rewrite map_app, length_app. cbn [map length].
  replace (length (map stroke_value strokes) + 1 - 1)%nat
    with (length (map stroke_value strokes) + 0)%nat by lia.
  rewrite lookup_app_r by lia.
  replace (length (map stroke_value strokes) + 0 - length (map stroke_value strokes))%nat
    with 0%nat by lia.
  cbn [lookup list_lookup]. rewrite push_point_typed. cbn [bind].
  rewrite insert_app_r. cbn [insert list_insert].
  by rewrite <- lines_value_snoc.
Qed.

Lemma draw_moves_typed t c w strokes moves : forall pts,
  fold_each (draw (Some t)) moves
    {| isDrawing := true;
       lines := lines_value
                  (strokes ++ [{| tool := Some t; points := pts; color := c;
                                  thickness := w |}]) |}
  = Ok {| isDrawing := true;
          lines := lines_value
                     (strokes ++ [{| tool := Some t; points := pts ++ moves; color := c;
                                     thickness := w |}]) |}.
Proof.
  induction moves as [|p moves IH]; intros pts; cbn [fold_each].
  - by rewrite app_nil_r.
  - rewrite draw_typed. cbn [bind]. rewrite IH. by rewrite <- app_assoc.
Qed.

(** X9. A stroke is captured whole: pressing at a point, moving through
    a list of points and releasing appends to the strokes of the page one
    stroke that has the tool, the colour and the thickness selected at
    the press and the points of the gesture in order, the point of the
    press first. The release hands the new list to [onDrawingChange] for
    this page, serialised, unless the serialisation is the drawing data
    the page was given. *)
Theorem stroke_gesture_captures (t : DrawingTool) (penColor : jsstring)
    (penThickness : number) (pageIndex : nat) (drawingData : jsstring)
    (start : Point) (moves : list Point) (strokes : list Stroke) (b : bool) :
  stroke_gesture (Some t) penColor penThickness pageIndex drawingData start moves
    {| isDrawing := b; lines := lines_value strokes |}
  = Ok ({| isDrawing := false;
           lines := lines_value
                      (strokes ++ [captured_stroke t penColor penThickness start moves]) |},
        if bool_decide
             (drawingData
              <> serialize (lines_value
                   (strokes ++ [captured_stroke t penColor penThickness start moves])))
        then Some (pageIndex,
                   serialize (lines_value
                     (strokes ++ [captured_stroke t penColor penThickness start moves])))
        else None).
Proof.
  unfold stroke_gesture. rewrite startDrawing_typed. cbn [bind].
  unfold captured_stroke. rewrite draw_moves_typed. cbn [bind app].
  unfold stopDrawing, serialize. cbn [isDrawing negb lines].
  by destruct (bool_decide _).
Qed.



Lemma deserialize_serialized (LAW : number_round_trip) strokes :
  Forall stroke_wf strokes ->
  deserialize (serialize (lines_value strokes)) = lines_value strokes.
Proof.
  intros Hwf.
  assert (Hp : JSON_parse (serialize (lines_value strokes)) = Ok (lines_value strokes)).
  { apply JSON_round_trip; [done|]. by apply lines_value_clean. }
  unfold deserialize. by rewrite (JSON_parse_nonempty _ _ Hp), Hp.
Qed.

Lemma lines_value_inj strokes strokes' :
  lines_value strokes = lines_value strokes' -> length strokes = length strokes'.
Proof.
  intros [= H]. apply (f_equal length) in H. by rewrite !length_map in H.
Qed.

Lemma draw_on_page_typed (LAW : number_round_trip) (g : Gesture)
    (store : AppState SermonNote) (cur : SermonNote) (strokes : list Stroke) :
  currentNote store = Some cur ->
  deserialize (slot_or_empty (drawingData cur) (activePageIndex store))
  = lines_value strokes ->
  Forall stroke_wf strokes -> stroke_wf (stroke_of g) ->
  draw_on_page g store
  = Ok (handleDrawingChange (activePageIndex store)
          (serialize (lines_value (strokes ++ [stroke_of g]))) store).
Proof.
  intros Hcur Hheld Hwf Hg. unfold draw_on_page. rewrite Hcur, Hheld.
  unfold stroke_gesture. rewrite startDrawing_typed. cbn [bind].
  unfold captured_stroke. rewrite draw_moves_typed. cbn [bind app].
  fold (captured_stroke (drawingTool g) (penColor g) (penThickness g) (start g) (moves g)).
  fold (stroke_of g).
  unfold stopDrawing. cbn [isDrawing negb lines].
  fold (serialize (lines_value (strokes ++ [stroke_of g]))).
  rewrite bool_decide_eq_true_2; [done|].
  intros Heq. rewrite Heq in Hheld.
  rewrite deserialize_serialized in Hheld.
  - apply lines_value_inj in Hheld. rewrite length_app in Hheld. simpl in Hheld. lia.
  - done.
  - apply Forall_app. split; [done|]. by constructor.
Qed.

(** X17. The strokes of a page accumulate. Starting from a page whose
    drawing data reads as a list of strokes (the empty string reads as
    no stroke), any number of gestures on the active page, each written
    back by [handleDrawingChange] and read again by the page, leaves
    drawing data that reads as the old strokes followed by one stroke
    for each gesture, in the order they were drawn; the text of the
    pages and the active page are as before. *)
Theorem gestures_accumulate (LAW : number_round_trip) (gestures : list Gesture)
    (store : AppState SermonNote) (cur : SermonNote) (strokes : list Stroke) :
  currentNote store = Some cur ->
  deserialize (slot_or_empty (drawingData cur) (activePageIndex store))
  = lines_value strokes ->
  Forall stroke_wf strokes ->
  Forall (fun g => stroke_wf (stroke_of g)) gestures ->
  exists store' cur',
    fold_each draw_on_page gestures store = Ok store' /\
    currentNote store' = Some cur' /\
    activePageIndex store' = activePageIndex store /\
    content cur' = content cur /\
    deserialize (slot_or_empty (drawingData cur') (activePageIndex store))
    = lines_value (strokes ++ map stroke_of gestures).
Proof.
  intros Hcur Hheld Hwf Hgs. revert store cur strokes Hcur Hheld Hwf.
  induction Hgs as [|g gestures Hg _ IH]; intros store cur strokes Hcur Hheld Hwf.
  - exists store, cur. cbn [fold_each map]. by rewrite app_nil_r.
  - cbn [fold_each]. rewrite (draw_on_page_typed LAW g store cur strokes) by done.
    cbn [bind].
    assert (Hall : Forall stroke_wf (strokes ++ [stroke_of g])).
    { apply Forall_app. split; [done|]. by constructor. }
    destruct (IH (handleDrawingChange (activePageIndex store)
                    (serialize (lines_value (strokes ++ [stroke_of g]))) store)
                (with_pages cur (content cur)
                   (array_set (drawingData cur) (activePageIndex store)
                      (serialize (lines_value (strokes ++ [stroke_of g])))))
                (strokes ++ [stroke_of g]))
      as (store' & cur' & Hrun & Hcur' & Hidx & Hcontent & Hheld').
    + unfold handleDrawingChange. by rewrite Hcur.
    + unfold handleDrawingChange. rewrite Hcur.
      cbn [activePageIndex with_pages drawingData].
      unfold slot_or_empty. rewrite lookup_array_set.
      by apply deserialize_serialized.
    + done.
    + exists store', cur'. split; [done|]. split; [done|].
      unfold handleDrawingChange in Hidx, Hheld'. rewrite Hcur in Hidx, Hheld'.
      cbn [activePageIndex] in Hidx, Hheld'.
      split; [done|]. split; [done|].
      cbn [map]. by rewrite <- app_assoc in Hheld'.
Qed.

End Gesture.

Section Picture.
Context {NUM : JSNumber} {RASTER : Raster}.

Lemma rendered_pixel (s : Stroke) (c : canvas) (p : pixel) :
  drawable s ->
  surface (apply_ops c (rendered_ops s)) p = painted s p (surface c p).
Proof.
  intros [Hw Hs]. unfold rendered_ops, painted.
  destruct (length (points s) <? 2)%nat; [done|].
  rewrite apply_stroke_ops. cbn [surface]. unfold stroke_pixel, context_at_stroke.
  cbn [path lineWidth globalCompositeOperation strokeStyle surface].
  rewrite Hw, Hs.
  destruct (covers _ _ p); [|done].
  unfold mode_of, style_of.
  destruct (tool s) as [[|]|]; done.
Qed.

Lemma rendered_pixels (strokes : list Stroke) (p : pixel) : forall c : canvas,
  Forall drawable strokes ->
  surface (apply_ops c (concat (map rendered_ops strokes))) p
  = fold_left (fun below s => painted s p below) strokes (surface c p).
Proof.
  induction strokes as [|s l IH]; intros c Hall; [done|].
  apply Forall_cons_1 in Hall as [Hs Hl].
  cbn [map concat fold_left]. rewrite apply_ops_app, IH by done.
  by rewrite rendered_pixel.
Qed.

(** X11. What [drawOnCanvas] leaves on the canvas is a function of the
    drawing data alone. For strokes whose widths and colours the context
    takes, every pixel holds, whatever the canvas showed before, the ink
    of the last stroke of two points or more that covers it: the colour
    of a pen stroke, nothing after an eraser stroke, and nothing when no
    stroke covers it. Drawing the same data again changes nothing. *)
Theorem drawOnCanvas_picture (strokes : list Stroke) (data : jsstring)
    (c : canvas) (p : pixel) :
  Forall drawable strokes ->
  JSON_parse data = Ok (lines_value strokes) ->
  surface (apply_ops c (drawOnCanvas true (Some data)).1) p = picture strokes p /\
  surface (apply_ops (apply_ops c (drawOnCanvas true (Some data)).1)
             (drawOnCanvas true (Some data)).1) p
  = surface (apply_ops c (drawOnCanvas true (Some data)).1) p.
Proof.
  intros Hall Hd.
  assert (Hpic : forall c0 : canvas,
            surface (apply_ops c0 (drawOnCanvas true (Some data)).1) p = picture strokes p).
  { intros c0. rewrite (drawOnCanvas_typed _ _ Hd). cbn [fst].
    change (clearRect :: ?l) with ([clearRect] ++ l).
    rewrite !apply_ops_app, surface_reset.
    by rewrite rendered_pixels. }
  split; [apply Hpic|]. by rewrite !Hpic.
Qed.

End Picture.

(** ** Presentation mode *)

Section Presenting.
Context {NUM : JSNumber}.

Lemma map_indexed_ok {A B} (f : nat -> A -> result B) (g : nat -> A -> B) l :
  forall k, (forall i a, f i a = Ok (g i a)) ->
  map_indexed f k l = Ok (imap (fun i a => g (k + i)%nat a) l).
Proof.
  induction l as [|a l IH]; intros k Hf; [done|].
  cbn [map_indexed imap]. rewrite Hf, (IH (S k) Hf). cbn [bind].
  rewrite Nat.add_0_r. do 2 f_equal. apply imap_ext. intros i x _. cbn.
  f_equal. lia.
Qed.

(** X12. The pages of the presentation. For a note whose [content] and
    [drawingData] are arrays there is one page for each element of
    [content], in order, with the drawing stored at the same index, and
    with the empty drawing where [drawingData] has none there. A note
    without [content] gives no page. A note with pages whose
    [drawingData] is missing or [null], as an imported backup of the
    time before drawings can be, makes [paginateContent] throw a
    [TypeError]. *)
Theorem paginateContent_pages (note : value) :
  (forall pages cp strokes dp,
     get_field note (js "content") = Ok (Some (VArr pages cp)) ->
     get_field note (js "drawingData") = Ok (Some (VArr strokes dp)) ->
     exists shown,
       paginateContent note = Ok shown /\
       length shown = length pages /\
       forall i page, pages !! i = Some page ->
         shown !! i = Some (VObj [(js "content", page);
                                  (js "drawingData", or_empty (strokes !! i))])) /\
  (forall page pages cp d,
     get_field note (js "content") = Ok (Some (VArr (page :: pages) cp)) ->
     get_field note (js "drawingData") = Ok d -> d = None \/ d = Some VNull ->
     paginateContent note = Throw TypeError) /\
  (get_field note (js "content") = Ok None -> paginateContent note = Ok []).
Proof.
  split; [|split].
  - intros pages cp strokes dp Hc Hd.
    assert (Hnote : truthy note = true) by (by destruct note).
    unfold paginateContent. rewrite Hnote, Hc. cbn [negb bind truthy_opt truthy].
    rewrite (map_indexed_ok _
               (fun i page => VObj [(js "content", page);
                                    (js "drawingData", or_empty (strokes !! i))])).
    + eexists. split; [done|]. split; [by rewrite length_imap|].
      intros i page Hi. by rewrite list_lookup_imap, Hi.
    + intros i a. unfold page_of. by rewrite Hd.
  - intros page pages cp d Hc Hd Hnone.
    assert (Hnote : truthy note = true) by (by destruct note).
    unfold paginateContent. rewrite Hnote, Hc. cbn [negb bind truthy_opt truthy].
    cbn [map_indexed]. unfold page_of. rewrite Hd.
    by destruct Hnone as [-> | ->].
  - intros Hc. unfold paginateContent.
    destruct (truthy note); [|done]. cbn [negb]. by rewrite Hc.
Qed.

End Presenting.

Lemma handleKeyDown_in_range count key s :
  (0 < count)%Z -> (0 <= currentPage s < count)%Z ->
  (0 <= currentPage (handleKeyDown count key s) < count)%Z.
Proof.
  intros Hcount Hs. unfold handleKeyDown, goToNext, goToPrev.
  repeat (destruct (bool_decide _); cbn [currentPage]); lia.
Qed.

(** X13. Turning the pages of the presentation with the keyboard. While
    there is at least one page, the page shown stays a page of the
    presentation whatever keys are pressed; the left arrow undoes the
    right arrow except on the last page, where the right arrow does
    nothing; a key that is none of the two arrows and Escape changes
    nothing. With no page at all the right arrow sets the page shown
    to -1. *)
Theorem presentation_stays_on_a_page (count : Z) (keys : list jsstring)
    (s : Presentation) :
  ((0 < count)%Z -> (0 <= currentPage s < count)%Z ->
   (0 <= currentPage (fold_left (fun s key => handleKeyDown count key s) keys s)
    < count)%Z) /\
  ((0 <= currentPage s)%Z -> (currentPage s + 1 < count)%Z ->
   handleKeyDown count (js "ArrowLeft") (handleKeyDown count (js "ArrowRight") s) = s) /\
  ((currentPage s = count - 1)%Z -> handleKeyDown count (js "ArrowRight") s = s) /\
  (forall key, key <> js "ArrowRight" -> key <> js "ArrowLeft" -> key <> js "Escape" ->
     handleKeyDown count key s = s) /\
  ((0 <= currentPage s)%Z ->
   currentPage (handleKeyDown 0 (js "ArrowRight") s) = (-1)%Z).
Proof.
  assert (Hrl : bool_decide (js "ArrowRight" = js "ArrowLeft") = false) by done.
  assert (Hre : bool_decide (js "ArrowRight" = js "Escape") = false) by done.
  assert (Hlr : bool_decide (js "ArrowLeft" = js "ArrowRight") = false) by done.
  assert (Hle : bool_decide (js "ArrowLeft" = js "Escape") = false) by done.
  assert (Hrr : bool_decide (js "ArrowRight" = js "ArrowRight") = true) by done.
  assert (Hll : bool_decide (js "ArrowLeft" = js "ArrowLeft") = true) by done.
  split; [|split; [|split; [|split]]].
  - intros Hcount. revert s. induction keys as [|key keys IH]; intros s Hs; [done|].
    cbn [fold_left]. apply IH. by apply handleKeyDown_in_range.
  - intros H0 H1. destruct s as [p o]. unfold handleKeyDown, goToNext, goToPrev.
    cbn [currentPage open] in *. rewrite Hrl, Hre, Hlr, Hle, Hrr, Hll.
    cbn [currentPage open]. f_equal. lia.
  - intros Hlast. destruct s as [p o]. unfold handleKeyDown, goToNext.
    cbn [currentPage open] in *. rewrite Hrl, Hre, Hrr. f_equal. lia.
  - intros key H1 H2 H3. unfold handleKeyDown.
    by rewrite !bool_decide_eq_false_2 by done.
  - intros H0. unfold handleKeyDown, goToNext.
    rewrite Hrl, Hre, Hrr. cbn [currentPage]. lia.
Qed.

(** ** The font menu and the day of the week *)

Lemma segments_plain sep s : sep ∉ s -> segments sep s = (s, []).
Proof.
  induction s as [|c s IH]; [done|]. intros Hs.
  apply not_elem_of_cons in Hs as [Hc Hs]. cbn [segments]. rewrite (IH Hs).
  assert ((c =? sep) = false) as -> by (apply N.eqb_neq; congruence). done.
Qed.

Lemma segments_app sep a b :
  sep ∉ a -> segments sep (a ++ sep :: b) = (a, (segments sep b).1 :: (segments sep b).2).
Proof.
  induction a as [|c a IH]; intros Ha.
  - cbn [app segments]. destruct (segments sep b). by rewrite N.eqb_refl.
  - apply not_elem_of_cons in Ha as [Hc Ha]. cbn [app segments]. rewrite (IH Ha).
    assert ((c =? sep) = false) as -> by (apply N.eqb_neq; congruence). done.
Qed.

(** X14. The font menu and [handleApplyStyle] agree on the encoding
    [family,weight]. Splitting the value that the toolbar shows gives
    back the family and the weight it was built from, when neither
    holds a comma; and every option of the menu is split into a family
    and a weight from which the toolbar builds the value of that option
    again. *)
Theorem font_value_round_trip (styles : Styles) (activeStyles : ActiveStyles) :
  (44 ∉ or_else (activeFontFamily activeStyles) (fontFamily styles) ->
   44 ∉ or_else (activeFontWeight activeStyles) (fontWeight styles) ->
   span_style font (currentFontValue styles activeStyles)
   = {| activeFontSize := None;
        activeFontFamily := Some (or_else (activeFontFamily activeStyles)
                                    (fontFamily styles));
        activeFontWeight := Some (or_else (activeFontWeight activeStyles)
                                    (fontWeight styles)) |}) /\
  Forall (fun f => currentFontValue styles (span_style font f.2) = f.2) FONT_FAMILIES.
Proof.
  split.
  - intros Hf Hw. unfold span_style, currentFontValue, split_comma.
    rewrite (segments_app _ _ _ Hf), (segments_plain _ _ Hw). done.
  - unfold FONT_FAMILIES. repeat constructor.
Qed.

Ltac evaluate t := let v := eval vm_compute in t in change t with v.
Ltac evaluate_in t H := let v := eval vm_compute in t in change t with v in H.

Lemma matchedFamily_cases (q : jsstring -> bool) :
  find_first (fun f => match familyName f with
                       | Some name => q name
                       | None => false
                       end) FONT_FAMILIES
  = if q (js "Noto Sans KR") then FONT_FAMILIES !! 0%nat
    else if q (js "Nanum Myeongjo") then FONT_FAMILIES !! 3%nat
    else if q (js "Song Myung") then FONT_FAMILIES !! 5%nat
    else if q (js "Gowun Batang") then FONT_FAMILIES !! 6%nat
    else None.
Proof.
  unfold FONT_FAMILIES. cbn [find_first lookup list_lookup].
  repeat match goal with
         | |- context [familyName ?f] =>
             let v := eval vm_compute in (familyName f) in
             change (familyName f) with v
         end.
  evaluate (js "Noto Sans KR").
  evaluate (js "Nanum Myeongjo").
  evaluate (js "Song Myung").
  evaluate (js "Gowun Batang").
  repeat match goal with
         | |- context [q ?n] => destruct (q n) eqn:?
         end; done.
Qed.

(** X15. What the font menu shows for a selection. When the computed
    font family of the selected text names one of the families of the
    menu (possibly between double quotes, among fallback families), the
    active styles become a family of the menu with the weight 400 and the
    computed font size, whatever the computed weight is: the menu then
    shows the option of regular weight of that family, an option that
    exists, and never one of the light or bold options. *)
Theorem selection_shows_regular_weight (computedStyle : ComputedStyle)
    (prev : ActiveStyles) (styles : Styles) (name : jsstring) :
  Some name ∈ map familyName FONT_FAMILIES ->
  name ∈ computedFamilies computedStyle ->
  exists label family,
    (label, family ++ js ",400") ∈ FONT_FAMILIES /\
    handleSelectionChange (InEditor computedStyle) prev
    = {| activeFontSize := Some (computedFontSize computedStyle);
         activeFontFamily := Some family;
         activeFontWeight := Some (js "400") |} /\
    currentFontValue styles (handleSelectionChange (InEditor computedStyle) prev)
    = family ++ js ",400".
Proof.
  intros Hmenu Hcomputed.
  assert (Hmatch : exists label family,
            (label, family ++ js ",400") ∈ FONT_FAMILIES /\
            matchedFamily computedStyle = Some (label, family ++ js ",400") /\
            family <> [] /\ 44 ∉ family).
  { unfold matchedFamily. rewrite matchedFamily_cases.
    assert (Hone : bool_decide (js "Noto Sans KR" ∈ computedFamilies computedStyle)
                   || bool_decide (js "Nanum Myeongjo" ∈ computedFamilies computedStyle)
                   || bool_decide (js "Song Myung" ∈ computedFamilies computedStyle)
                   || bool_decide (js "Gowun Batang" ∈ computedFamilies computedStyle)
                   = true).
    { evaluate_in (map familyName FONT_FAMILIES) Hmenu.
      evaluate (js "Noto Sans KR").
      evaluate (js "Nanum Myeongjo").
      evaluate (js "Song Myung").
      evaluate (js "Gowun Batang").
      repeat (apply elem_of_cons in Hmenu as [Hmenu|Hmenu];
              [injection Hmenu as ->; rewrite (bool_decide_eq_true_2 _ Hcomputed);
               by rewrite ?orb_true_r|]).
      by apply elem_of_nil in Hmenu. }
    destruct (bool_decide (js "Noto Sans KR" ∈ _));
      [exists (FONT_FAMILIES !!! 0%nat).1, (js "Noto Sans KR");
       repeat split; try done; [compute_done|compute_done]|].
    destruct (bool_decide (js "Nanum Myeongjo" ∈ _));
      [exists (FONT_FAMILIES !!! 3%nat).1, (js "Nanum Myeongjo");
       repeat split; try done; [compute_done|compute_done]|].
    destruct (bool_decide (js "Song Myung" ∈ _));
      [exists (FONT_FAMILIES !!! 5%nat).1, (js "Song Myung");
       repeat split; try done; [compute_done|compute_done]|].
    destruct (bool_decide (js "Gowun Batang" ∈ _)); [|done].
    exists (FONT_FAMILIES !!! 6%nat).1, (js "Gowun Batang").
    repeat split; try done; compute_done. }
  destruct Hmatch as (label & family & Hin & Hm & Hne & Hcomma).
  exists label, family. split; [done|].
  assert (Hsplit : split_comma (label, family ++ js ",400").2
                   = [family; js "400"]).
  { cbn [snd]. unfold split_comma. change (js ",400") with (44 :: js "400").
    by rewrite (segments_app _ _ _ Hcomma). }
  assert (Hnew : handleSelectionChange (InEditor computedStyle) prev
                 = {| activeFontSize := Some (computedFontSize computedStyle);
                      activeFontFamily := Some family;
                      activeFontWeight := Some (js "400") |}).
  { unfold handleSelectionChange. rewrite Hm, Hsplit.
    cbn [lookup list_lookup activeFontFamily activeFontWeight activeFontSize].
    case_bool_decide as Hd; [done|].
    destruct prev as [ps pf pw]. cbn in Hd.
    destruct (decide (pf = Some family)) as [->|]; [|tauto].
    destruct (decide (pw = Some (js "400"))) as [->|]; [|tauto].
    destruct (decide (ps = Some (computedFontSize computedStyle))) as [->|]; [|tauto].
    done. }
  split; [done|]. rewrite Hnew. unfold currentFontValue.
  cbn [activeFontFamily activeFontWeight or_else].
  by destruct family.
Qed.

Section Calendar.
Context {DATES : Dates}.

Lemma week_day_range t : (0 <= week_day t < 7)%Z.
Proof. unfold week_day. apply Z.mod_pos_bound. lia. Qed.

(** X16. The day shown beside the date. For a date string that the
    platform reads as the time value [t], [getDayOfWeek] names the day
    of the week of [t] read as UTC, which for a date written
    YYYY-MM-DD is the day of that date, whatever the local time zone is,
    provided the zone has the same offset at [t] and at the adjusted
    time. The name is one of the seven. The empty string gives the empty
    string; a string that is not a date gives [undefined], not the empty
    string. *)
Theorem getDayOfWeek_names_the_day (dateString : jsstring) (t : Z) :
  dateString <> [] ->
  parse_date dateString = Some t ->
  (-8640000000000000 <= t + timezoneOffset t * 60000 <= 8640000000000000)%Z ->
  timezoneOffset (t + timezoneOffset t * 60000) = timezoneOffset t ->
  getDayOfWeek dateString = days !! Z.to_nat (week_day t) /\
  (exists name, getDayOfWeek dateString = Some name /\ name ∈ days) /\
  getDayOfWeek [] = Some [] /\
  (forall s, s <> [] -> parse_date s = None -> getDayOfWeek s = None).
Proof.
  intros Hne Hparse Hrange Hzone.
  assert (Hday : getDayOfWeek dateString = days !! Z.to_nat (week_day t)).
  { unfold getDayOfWeek. destruct dateString; [done|]. cbn [is_empty].
    rewrite Hparse. unfold time_clip. rewrite bool_decide_eq_true_2 by done.
    unfold getDay. rewrite Hzone. do 2 f_equal. f_equal. lia. }
  split; [done|]. split; [|split].
  - rewrite Hday. pose proof (week_day_range t) as Hr.
    destruct (days !! Z.to_nat (week_day t)) as [name|] eqn:E.
    + exists name. split; [done|]. by apply list_elem_of_lookup_2 in E.
    + apply lookup_ge_None in E. cbn [days length] in E. lia.
  - done.
  - intros s Hs Hnone. unfold getDayOfWeek. destruct s; [done|]. cbn [is_empty].
    by rewrite Hnone.
Qed.

End Calendar.

(** ** The list of notes *)

Section Listing.
Context {DATES : Dates} {CASING : Casing}.

Lemma includes_empty s : includes s [] = true.
Proof. by destruct s. Qed.

Lemma insert_note_perm a l : insert_note a l ≡ₚ a :: l.
Proof.
  induction l as [|b l IH]; cbn [insert_note]; [done|].
  destruct (not_after a b); [done|]. rewrite IH. apply Permutation_swap.
Qed.

Lemma sort_notes_perm l : sort_notes l ≡ₚ l.
Proof.
  induction l as [|a l IH]; [done|]. cbn [sort_notes foldr].
  fold (sort_notes l). by rewrite insert_note_perm, IH.
Qed.

Lemma not_after_dated a b ta tb :
  time_of a = Some ta -> time_of b = Some tb ->
  not_after a b = true <-> (tb <= ta)%Z.
Proof.
  intros Ha Hb. unfold not_after. rewrite Ha, Hb.
  split; [apply bool_decide_eq_true_1|apply bool_decide_eq_true_2].
Qed.

Lemma insert_note_sorted a l :
  is_Some (time_of a) -> Forall (fun n => is_Some (time_of n)) l ->
  newest_first l -> newest_first (insert_note a l).
Proof.
  intros [ta Ha] Hall. induction Hall as [|b l [tb Hb] Hl IH]; intros Hs.
  - cbn. split; [constructor|done].
  - cbn [insert_note]. destruct Hs as [Hb_first Hs].
    destruct (not_after a b) eqn:Hab.
    + cbn [newest_first]. split; [|by split].
      constructor; [done|].
      apply (not_after_dated a b ta tb Ha Hb) in Hab.
      rewrite List.Forall_forall in Hb_first, Hl.
      apply List.Forall_forall. intros c Hc.
      destruct (Hl c Hc) as [tc Htc].
      apply (not_after_dated a c ta tc Ha Htc).
      pose proof (Hb_first c Hc) as Hbc.
      apply (not_after_dated b c tb tc Hb Htc) in Hbc. lia.
    + cbn [newest_first]. split; [|by apply IH].
      rewrite insert_note_perm. constructor; [|done].
      apply (not_after_dated b a tb ta Hb Ha).
      assert (~ (tb <= ta)%Z); [|lia].
      intros Hle. apply (not_after_dated a b ta tb Ha Hb) in Hle. congruence.
Qed.

Lemma sort_notes_sorted l :
  Forall (fun n => is_Some (time_of n)) l -> newest_first (sort_notes l).
Proof.
  induction 1 as [|a l Ha Hl IH]; [done|]. cbn [sort_notes foldr].
  fold (sort_notes l). apply insert_note_sorted; [done| |done].
  by rewrite sort_notes_perm.
Qed.

Lemma find_note_some n l :
  n ∈ l -> exists m, find_note (id n) l = Some m /\ id m = id n.
Proof.
  induction l as [|b l IH]; intros Hin; [by apply elem_of_nil in Hin|].
  cbn [find_note]. destruct (bool_decide (id b = id n)) eqn:E.
  - apply bool_decide_eq_true in E. by exists b.
  - apply elem_of_cons in Hin as [->|Hin]; [|by apply IH].
    by rewrite bool_decide_eq_true_2 in E.
Qed.

(** X19. The list of notes. When every note has a valid date, the notes
    listed for a search term are exactly the notes of the collection
    whose title, passage or pages contain the term, letter case aside,
    each as often as it is in the collection, ordered from the newest
    date to the oldest; every note listed can be opened, since selecting
    its identifier finds a note with that identifier; and with the empty
    search term every note of the collection is listed. *)
Theorem filteredNotes_lists_matches (searchTerm : jsstring) (notes : list SermonNote) :
  Forall (fun n => is_Some (time_of n)) notes ->
  exists listed,
    filteredNotes searchTerm notes = Some listed /\
    listed ≡ₚ List.filter (matches searchTerm) notes /\
    (forall n, n ∈ listed <-> n ∈ notes /\ matches searchTerm n = true) /\
    newest_first listed /\
    (forall n, n ∈ listed -> exists m, find_note (id n) notes = Some m /\ id m = id n) /\
    (toLowerCase [] = [] -> searchTerm = [] -> listed ≡ₚ notes).
Proof.
  intros Hdated.
  assert (Hfound : Forall (fun n => is_Some (time_of n))
                     (List.filter (matches searchTerm) notes)).
  { apply List.Forall_forall. intros n [Hn _]%filter_In.
    rewrite List.Forall_forall in Hdated. by apply Hdated. }
  exists (sort_notes (List.filter (matches searchTerm) notes)).
  assert (Hin : forall n, n ∈ sort_notes (List.filter (matches searchTerm) notes)
                          <-> n ∈ notes /\ matches searchTerm n = true).
  { intros n. rewrite sort_notes_perm, !list_elem_of_In. apply filter_In. }
  split; [|split; [|split; [|split; [|split]]]].
  - unfold filteredNotes.
    assert (forallb (fun n => bool_decide (is_Some (time_of n)))
              (List.filter (matches searchTerm) notes) = true) as ->; [|done].
    apply forallb_forall. intros n Hn. apply bool_decide_eq_true_2.
    rewrite List.Forall_forall in Hfound. by apply Hfound.
  - apply sort_notes_perm.
  - exact Hin.
  - by apply sort_notes_sorted.
  - intros n [Hn _]%Hin. by apply find_note_some.
  - intros Hlower ->. rewrite sort_notes_perm.
    assert (Hall : forall n, matches [] n = true).
    { intros n. unfold matches. by rewrite Hlower, includes_empty. }
    clear -Hall. induction notes as [|n l IH]; [done|].
    cbn [List.filter]. by rewrite Hall, IH.
Qed.

End Listing.

(** ** Applying a style to the selection *)

Lemma split_length s : forall kids before rest,
  extractContents s kids = Some (before, rest) ->
  length before = match s with At k => k | Inside j _ => S j end.
Proof.
  destruct s as [k|j s]; intros kids before rest; cbn [extractContents].
  - destruct (k <=? length kids)%nat eqn:E; [|done]. intros [= <- <-].
    apply Nat.leb_le in E. rewrite length_take. lia.
  - destruct (kids !! j) as [[data|tag attrs children]|] eqn:Hj; [| |done].
    + destruct s as [k|]; [|done].
      destruct (k <=? length data)%nat; [|done]. intros [= <- <-].
      apply lookup_lt_Some in Hj. rewrite length_app, length_take. simpl. lia.
    + destruct (extractContents s children) as [[stay' frag']|]; [|done].
      intros [= <- <-].
      apply lookup_lt_Some in Hj. rewrite length_app, length_take. simpl. lia.
Qed.

(** Splitting a tree at one of its points depends on what comes before
    the point and on the child the point lies in only. *)
Lemma split_prefix s kids upto before selected :
  extractContents s upto = Some (before, selected) ->
  match s with
  | At k => take k upto = take k kids /\ (k <= length kids)%nat
  | Inside j _ => take j upto = take j kids /\ upto !! j = kids !! j
  end ->
  exists rest, extractContents s kids = Some (before, rest).
Proof.
  destruct s as [k|j s]; cbn [extractContents].
  - destruct (k <=? length upto)%nat; [|done]. intros [= <- <-] [Ht Hk].
    apply Nat.leb_le in Hk. rewrite Hk, Ht. by eexists.
  - intros H [Ht Hj]. rewrite <- Hj.
    destruct (upto !! j) as [[data|tag attrs children]|]; [| |done].
    + destruct s as [k|]; [|done].
      destruct (k <=? length data)%nat; [|done].
      injection H as <- <-. rewrite Ht. by eexists.
    + destruct (extractContents s children) as [[stay' frag']|]; [|done].
      injection H as <- <-. rewrite Ht. by eexists.
Qed.

Lemma split_collapsed s kids before rest after :
  extractContents s kids = Some (before, rest) ->
  extractContents (collapsed_at s) (before ++ after) = Some (before, after).
Proof.
  intros Hs. pose proof (split_length _ _ _ _ Hs) as Hlen.
  assert (Hat : forall k, length before = k ->
            extractContents (At k) (before ++ after) = Some (before, after)).
  { intros k <-. cbn [extractContents].
    replace (length before <=? length (before ++ after))%nat with true
      by (symmetry; apply Nat.leb_le; rewrite length_app; lia).
    by rewrite take_app_length, drop_app_length. }
  destruct s; by apply Hat.
Qed.

Lemma extract_across_split s e kids remaining fragment at_ :
  match s, e with
  | Inside a _, Inside b _ => a <> b
  | _, _ => True
  end ->
  extract_across s e kids = Some (remaining, fragment, at_) ->
  exists before rest upto after,
    extractContents s kids = Some (before, rest) /\
    extractContents e kids = Some (upto, after) /\
    text_of upto = text_of before ++ text_of fragment /\
    remaining = before ++ after /\
    extractContents at_ remaining = Some (before, after).
Proof.
  intros Hne. unfold extract_across.
  destruct (match s, e with
            | At i, Inside j _ => bool_decide (i <= j)%nat
            | _, _ => true
            end) eqn:Hguard; [|done].
  destruct (extractContents e kids) as [[upto after]|] eqn:He; [|done].
  cbn [mbind option_bind].
  destruct (extractContents s upto) as [[before selected]|] eqn:Hs; [|done].
  cbn [mbind option_bind]. intros [= <- <- <-].
  assert (Hrest : exists rest, extractContents s kids = Some (before, rest)).
  { apply (split_prefix s kids upto before selected Hs).
    pose proof (split_length _ _ _ _ He) as Hupto.
    destruct s as [i|a s'], e as [j|b e'].
    - cbn [extractContents] in He, Hs.
      destruct (j <=? length kids)%nat eqn:Ej; [|done]. injection He as <- <-.
      destruct (i <=? length (take j kids))%nat eqn:Ei; [|done].
      apply Nat.leb_le in Ej, Ei. rewrite length_take in Ei.
      split; [|lia]. rewrite take_take. f_equal. lia.
    - apply bool_decide_eq_true in Hguard.
      cbn [extractContents] in He.
      destruct (kids !! b) as [child|] eqn:Hb; [|done].
      apply lookup_lt_Some in Hb.
      assert (Hshape : exists x, upto = take b kids ++ [x]).
      { destruct child as [data|tag attrs children].
        - destruct e' as [k|]; [|done].
          destruct (k <=? length data)%nat; [|done]. injection He as <- <-. by eexists.
        - destruct (extractContents e' children) as [[stay' frag']|]; [|done].
          injection He as <- <-. by eexists. }
      destruct Hshape as [x ->]. split; [|lia].
      rewrite take_app_le by (rewrite length_take; lia).
      rewrite take_take. f_equal. lia.
    - cbn [extractContents] in He.
      destruct (j <=? length kids)%nat eqn:Ej; [|done]. injection He as <- <-.
      cbn [extractContents] in Hs.
      destruct (take j kids !! a) as [child|] eqn:Ha; [|by destruct (take j kids !! a)].
      pose proof (lookup_lt_Some _ _ _ Ha) as Hlt. rewrite length_take in Hlt.
      split.
      + rewrite take_take. f_equal. lia.
      + rewrite <- Ha. by rewrite lookup_take_lt by lia.
    - cbn [extractContents] in He.
      destruct (kids !! b) as [child|] eqn:Hb; [|done].
      apply lookup_lt_Some in Hb.
      assert (Hshape : exists x, upto = take b kids ++ [x]).
      { destruct child as [data|tag attrs children].
        - destruct e' as [k|]; [|done].
          destruct (k <=? length data)%nat; [|done]. injection He as <- <-. by eexists.
        - destruct (extractContents e' children) as [[stay' frag']|]; [|done].
          injection He as <- <-. by eexists. }
      destruct Hshape as [x ->].
      cbn [extractContents] in Hs.
      destruct ((take b kids ++ [x]) !! a) as [child'|] eqn:Ha;
        [|by destruct ((take b kids ++ [x]) !! a)].
      pose proof (lookup_lt_Some _ _ _ Ha) as Hlt.
      rewrite length_app, length_take in Hlt. simpl in Hlt.
      assert (a < b)%nat by lia.
      split.
      + rewrite take_app_le by (rewrite length_take; lia).
        rewrite take_take. f_equal. lia.
      + rewrite <- Ha. rewrite lookup_app_l by (rewrite length_take; lia).
        by rewrite lookup_take_lt by lia. }
  destruct Hrest as [rest Hrest].
  exists before, rest, upto, after. split; [done|]. split; [done|].
  split; [by rewrite (extractContents_text _ _ _ _ Hs)|]. split; [done|].
  by apply (split_collapsed s kids before rest).
Qed.

Lemma text_before_element j b kids tag attrs children pre :
  kids !! j = Some (Element tag attrs children) ->
  text_before b children = Some pre ->
  text_before (Inside j b) kids = Some (text_of (take j kids) ++ pre).
Proof.
  unfold text_before. cbn [extractContents]. intros -> Hpre.
  destruct (extractContents b children) as [[stay frag]|]; [|done].
  injection Hpre as <-. cbn [mbind option_bind fmap option_fmap option_map fst].
  rewrite text_of_app, text_of_cons. cbn [textContent text_of map concat].
  by rewrite app_nil_r.
Qed.

Lemma text_after_element j b kids tag attrs children post :
  kids !! j = Some (Element tag attrs children) ->
  text_after b children = Some post ->
  text_after (Inside j b) kids = Some (post ++ text_of (drop (S j) kids)).
Proof.
  unfold text_after. cbn [extractContents]. intros -> Hpost.
  destruct (extractContents b children) as [[stay frag]|]; [|done].
  injection Hpost as <-. cbn [mbind option_bind fmap option_fmap option_map snd].
  by rewrite text_of_cons.
Qed.

Lemma text_around_text j k kids data :
  kids !! j = Some (Text data) -> (k <= length data)%nat ->
  text_before (Inside j (At k)) kids = Some (text_of (take j kids) ++ take k data) /\
  text_after (Inside j (At k)) kids = Some (drop k data ++ text_of (drop (S j) kids)).
Proof.
  unfold text_before, text_after. cbn [extractContents]. intros -> Hk.
  apply Nat.leb_le in Hk. rewrite Hk.
  cbn [fmap option_fmap option_map fst snd].
  rewrite text_of_app, !text_of_cons. cbn [textContent text_of map concat].
  by rewrite app_nil_r.
Qed.

Lemma text_of_middle kids j n :
  kids !! j = Some n ->
  text_of kids = text_of (take j kids) ++ textContent n ++ text_of (drop (S j) kids).
Proof.
  intros Hj. rewrite <- (take_drop_middle kids j n Hj) at 1.
  by rewrite text_of_app, text_of_cons.
Qed.

Lemma extract_across_text s e kids remaining fragment at_ :
  match s, e with
  | Inside a _, Inside b _ => a <> b
  | _, _ => True
  end ->
  extract_across s e kids = Some (remaining, fragment, at_) ->
  exists pre post,
    text_before s kids = Some pre /\ text_after e kids = Some post /\
    text_of kids = pre ++ text_of fragment ++ post /\
    text_before at_ remaining = Some pre /\ text_after at_ remaining = Some post.
Proof.
  intros Hne Hx.
  destruct (extract_across_split _ _ _ _ _ _ Hne Hx)
    as (before & rest & upto & after & Hs & He & Hupto & -> & Hat).
  exists (text_of before), (text_of after).
  unfold text_before, text_after. rewrite Hs, He, Hat. cbn.
  repeat split; try done.
  rewrite <- (extractContents_text _ _ _ _ He), Hupto. by rewrite <- app_assoc.
Qed.

(** What is extracted is what lies between the two points; what stays is
    what lies before the first and after the second, and the range is
    collapsed between the two. *)
Lemma extract_between_text s : forall e kids remaining fragment at_,
  extract_between s e kids = Some (remaining, fragment, at_) ->
  exists pre post,
    text_before s kids = Some pre /\ text_after e kids = Some post /\
    text_of kids = pre ++ text_of fragment ++ post /\
    text_before at_ remaining = Some pre /\ text_after at_ remaining = Some post.
Proof.
  induction s as [k|a s IH]; intros e kids remaining fragment at_.
  - cbn [extract_between]. by apply extract_across_text.
  - destruct e as [j|b e]; cbn [extract_between].
    + by apply extract_across_text.
    + case_bool_decide as Hab; [|by apply extract_across_text].
      subst b. destruct (kids !! a) as [[data|tag attrs children]|] eqn:Ha; [| |done].
      * destruct s as [so|]; [|done]. destruct e as [eo|]; [|done].
        case_bool_decide as Hrange; [|done]. intros [= <- <- <-].
        destruct Hrange as [Hso Heo].
        destruct (text_around_text a so kids data Ha) as [Hpre _]; [lia|].
        destruct (text_around_text a eo kids data Ha) as [_ Hpost]; [lia|].
        pose proof (lookup_lt_Some _ _ _ Ha) as Hlt.
        exists (text_of (take a kids) ++ take so data),
               (drop eo data ++ text_of (drop (S a) kids)).
        split; [done|]. split; [done|]. split.
        { assert (Hdata : data = take so data ++ take (eo - so) (drop so data)
                                 ++ drop eo data).
          { rewrite <- (take_drop so data) at 1. f_equal.
            rewrite <- (take_drop (eo - so) (drop so data)) at 1. f_equal.
            rewrite drop_drop. f_equal. lia. }
          rewrite (text_of_middle kids a (Text data) Ha). cbn [textContent].
          rewrite text_of_cons. cbn [textContent text_of map concat].
          rewrite app_nil_r, <- !app_assoc. f_equal.
          rewrite Hdata at 1. by rewrite <- !app_assoc. }
        assert (Hnew : <[a := Text (take so data ++ drop eo data)]> kids !! a
                       = Some (Text (take so data ++ drop eo data))).
        { by apply list_lookup_insert_eq. }
        destruct (text_around_text a so _ _ Hnew) as [Hpre' Hpost'].
        { rewrite length_app, length_take. lia. }
        rewrite Hpre', Hpost'.
        rewrite take_insert_ge, drop_insert_lt by lia.
        rewrite take_app_le, drop_app_ge by (rewrite length_take; lia).
        rewrite length_take, take_take.
        replace (so `min` so)%nat with so by lia.
        replace (so - so `min` length data)%nat with 0%nat by lia.
        done.
      * destruct (extract_between s e children) as [[[children' frag] at']|] eqn:Hx;
          [|done].
        cbn [mbind option_bind]. intros [= <- <- <-].
        destruct (IH _ _ _ _ _ Hx) as (pre & post & Hpre & Hpost & Htext & Hpre' & Hpost').
        pose proof (lookup_lt_Some _ _ _ Ha) as Hlt.
        exists (text_of (take a kids) ++ pre), (post ++ text_of (drop (S a) kids)).
        pose proof (text_before_element a s kids tag attrs children pre Ha Hpre) as H1.
        pose proof (text_after_element a e kids tag attrs children post Ha Hpost) as H2.
        split; [done|]. split; [done|]. split.
        { rewrite (text_of_middle kids a _ Ha). cbn [textContent].
          fold (text_of children). rewrite Htext. by rewrite <- !app_assoc. }
        assert (Hnew : <[a := Element tag attrs children']> kids !! a
                       = Some (Element tag attrs children')).
        { by apply list_lookup_insert_eq. }
        rewrite (text_before_element a at' _ tag attrs children' pre Hnew Hpre').
        rewrite (text_after_element a at' _ tag attrs children' post Hnew Hpost').
        by rewrite take_insert_ge, drop_insert_lt by lia.
Qed.

Lemma insertNode_text at_ : forall n kids kids' pre post,
  insertNode at_ n kids = Some kids' ->
  text_before at_ kids = Some pre -> text_after at_ kids = Some post ->
  text_of kids' = pre ++ textContent n ++ post.
Proof.
  induction at_ as [k|j at_ IH]; intros n kids kids' pre post.
  - unfold text_before, text_after. cbn [insertNode extractContents].
    destruct (k <=? length kids)%nat; [|done].
    cbn [fmap option_fmap option_map fst snd].
    intros [= <-] [= <-] [= <-]. by rewrite text_of_app, text_of_cons.
  - cbn [insertNode].
    destruct (kids !! j) as [[data|tag attrs children]|] eqn:Hj; [| |done].
    + destruct at_ as [k|]; [|done].
      destruct (k <=? length data)%nat eqn:Hk; [|done]. intros [= <-].
      apply Nat.leb_le in Hk.
      destruct (text_around_text j k kids data Hj Hk) as [-> ->].
      intros [= <-] [= <-].
      rewrite !text_of_app, !text_of_cons. cbn [textContent].
      by rewrite <- !app_assoc.
    + destruct (insertNode at_ n children) as [children'|] eqn:Hins; [|done].
      cbn [mbind option_bind]. intros [= <-] Hpre Hpost.
      unfold text_before, text_after in Hpre, Hpost.
      cbn [extractContents] in Hpre, Hpost. rewrite Hj in Hpre, Hpost.
      destruct (extractContents at_ children) as [[stay frag]|] eqn:Hsplit; [|done].
      cbn [mbind option_bind fmap option_fmap option_map fst snd] in Hpre, Hpost.
      injection Hpre as <-. injection Hpost as <-.
      pose proof (lookup_lt_Some _ _ _ Hj) as Hlt.
      rewrite (text_of_middle (<[j := Element tag attrs children']> kids) j
                 (Element tag attrs children')) by (by apply list_lookup_insert_eq).
      rewrite take_insert_ge, drop_insert_lt by lia.
      cbn [textContent]. fold (text_of children').
      rewrite (IH n children children' (text_of stay) (text_of frag) Hins).
      * rewrite text_of_app, !text_of_cons. cbn [textContent text_of map concat].
        by rewrite app_nil_r, <- !app_assoc.
      * unfold text_before. by rewrite Hsplit.
      * unfold text_after. by rewrite Hsplit.
Qed.

Lemma insertNode_some at_ : forall n kids,
  is_Some (extractContents at_ kids) -> is_Some (insertNode at_ n kids).
Proof.
  induction at_ as [k|j at_ IH]; intros n kids; cbn [insertNode extractContents].
  - by destruct (k <=? length kids)%nat.
  - destruct (kids !! j) as [[data|tag attrs children]|]; [| |done].
    + destruct at_ as [k|]; [|done]. by destruct (k <=? length data)%nat.
    + intros Hsplit.
      destruct (IH n children) as [children' ->]; [|by eexists].
      destruct (extractContents at_ children); [by eexists|].
      by destruct Hsplit.
Qed.

Lemma split_suffix s kids upto before rest :
  extractContents s kids = Some (before, rest) ->
  match s with
  | At k => take k upto = take k kids /\ (k <= length upto)%nat
  | Inside j _ => take j upto = take j kids /\ upto !! j = kids !! j
  end ->
  is_Some (extractContents s upto).
Proof.
  destruct s as [k|j s]; cbn [extractContents].
  - intros _ [_ Hk]. apply Nat.leb_le in Hk. rewrite Hk. by eexists.
  - intros H [Ht Hj]. rewrite Hj.
    destruct (kids !! j) as [[data|tag attrs children]|]; [| |done].
    + destruct s as [k|]; [|done].
      destruct (k <=? length data)%nat; [by eexists|done].
    + destruct (extractContents s children) as [[stay' frag']|]; [by eexists|done].
Qed.

Lemma split_shape e kids upto after :
  extractContents e kids = Some (upto, after) ->
  match e with
  | At j => upto = take j kids /\ (j <= length kids)%nat
  | Inside b _ => (b < length kids)%nat /\ exists x, upto = take b kids ++ [x]
  end.
Proof.
  destruct e as [j|b e]; cbn [extractContents].
  - destruct (j <=? length kids)%nat eqn:Ej; [|done]. intros [= <- <-].
    by apply Nat.leb_le in Ej.
  - destruct (kids !! b) as [child|] eqn:Hb; [|done].
    apply lookup_lt_Some in Hb. intros He. split; [done|].
    destruct child as [data|tag attrs children].
    + destruct e as [k|]; [|done].
      destruct (k <=? length data)%nat; [|done]. injection He as <- <-. by eexists.
    + destruct (extractContents e children) as [[stay' frag']|]; [|done].
      injection He as <- <-. by eexists.
Qed.

Lemma extract_across_some s e kids :
  is_Some (extractContents s kids) -> is_Some (extractContents e kids) ->
  match s, e with
  | At i, At j => (i <= j)%nat
  | At i, Inside j _ => (i <= j)%nat
  | Inside a _, At j => (a < j)%nat
  | Inside a _, Inside b _ => (a < b)%nat
  end ->
  is_Some (extract_across s e kids).
Proof.
  intros [[before rest] Hs] [[upto after] He] Horder. unfold extract_across.
  assert (Hguard : match s, e with
                   | At i, Inside j _ => bool_decide (i <= j)%nat
                   | _, _ => true
                   end = true).
  { destruct s, e; try done. by apply bool_decide_eq_true_2. }
  rewrite Hguard, He. cbn [mbind option_bind].
  pose proof (split_shape _ _ _ _ He) as Hshape.
  destruct (split_suffix s kids upto before rest Hs) as [[before' selected] ->];
    [|by eexists].
  destruct s as [i|a s'], e as [j|b e'].
  - destruct Hshape as [-> Hj]. rewrite take_take, length_take.
    split; [f_equal; lia|lia].
  - destruct Hshape as (Hb & x & ->).
    rewrite take_app_le by (rewrite length_take; lia).
    rewrite take_take, length_app, length_take. split; [f_equal; lia|simpl; lia].
  - destruct Hshape as [-> Hj]. rewrite take_take.
    split; [f_equal; lia|]. by rewrite lookup_take_lt by lia.
  - destruct Hshape as (Hb & x & ->).
    rewrite take_app_le by (rewrite length_take; lia).
    rewrite take_take. split; [f_equal; lia|].
    rewrite lookup_app_l by (rewrite length_take; lia).
    by rewrite lookup_take_lt by lia.
Qed.

Lemma extract_between_some s : forall e kids,
  in_order s e kids = true -> is_Some (extract_between s e kids).
Proof.
  induction s as [i|a s IH]; intros e kids; destruct e as [j|b e];
    cbn [in_order extract_between].
  - intros [Hi Hj]%bool_decide_eq_true. apply extract_across_some; [| |done].
    + cbn [extractContents]. replace (i <=? length kids)%nat with true; [by eexists|].
      symmetry. apply Nat.leb_le. lia.
    + cbn [extractContents]. replace (j <=? length kids)%nat with true; [by eexists|].
      symmetry. by apply Nat.leb_le.
  - intros [Hi He]%andb_true_iff. apply bool_decide_eq_true in Hi, He.
    apply extract_across_some; [|done|done].
    destruct He as [[upto after] He]. destruct (split_shape _ _ _ _ He) as [Hb _].
    cbn [extractContents]. replace (i <=? length kids)%nat with true; [by eexists|].
    symmetry. apply Nat.leb_le. lia.
  - intros [[Ha Hj]%bool_decide_eq_true Hs%bool_decide_eq_true]%andb_true_iff.
    apply extract_across_some; [done| |done].
    cbn [extractContents]. replace (j <=? length kids)%nat with true; [by eexists|].
    symmetry. by apply Nat.leb_le.
  - case_bool_decide as Hab.
    + subst b. destruct (kids !! a) as [[data|tag attrs children]|]; [| |done].
      * destruct s as [so|]; [|done]. destruct e as [eo|]; [|done].
        intros Hr. rewrite Hr. by eexists.
      * intros Hin. destruct (IH _ _ Hin) as [[[children' frag] at'] ->]. by eexists.
    + intros [[Hlt Hs]%andb_true_iff He]%andb_true_iff.
      apply bool_decide_eq_true in Hlt, Hs, He. by apply extract_across_some.
Qed.

Section Styling.
Context {NUM : JSNumber} {HTML : Serializer} {STYLIST : Stylist}.

(** X20. Applying a font or a size to a selection of the editor wraps
    the selection in one new span and changes no character of the
    page. For a range between two points of the editor, the first not
    behind the second, the handler succeeds; the span holds the
    characters that lay between the two points, it stands between the
    characters that lay before the first point and those that lay after
    the second, and the text of the page reads as before. The HTML of
    the editor is stored as the content of the page. Without a
    selection in the editor nothing changes. *)
Theorem handleApplyStyle_wraps_selection (type : StyleKind) (v : jsstring)
    (s e : boundary) (pageIndex : nat) (kids : list node)
    (st : AppState SermonNote) (cur : SermonNote) :
  currentNote st = Some cur -> s <> e -> in_order s e kids = true ->
  (exists out pre post remaining fragment at_,
     handleApplyStyle type v (SelectedRange s e) pageIndex kids st = Some out /\
     text_of (styled_dom out) = text_of kids /\
     styled_state out = handleContentChange pageIndex (innerHTML (styled_dom out)) st /\
     text_before s kids = Some pre /\ text_after e kids = Some post /\
     text_of kids = pre ++ text_of fragment ++ post /\
     insertNode at_
       (Element (js "span") (style_attributes (span_style type v)) fragment) remaining
     = Some (styled_dom out) /\
     text_before at_ remaining = Some pre /\ text_after at_ remaining = Some post) /\
  handleApplyStyle type v NothingSelected pageIndex kids st
  = Some {| styled_state := st; styled_dom := kids |} /\
  handleApplyStyle type v SelectedElsewhere pageIndex kids st
  = Some {| styled_state := st; styled_dom := kids |} /\
  handleApplyStyle type v (SelectedRange s s) pageIndex kids st
  = Some {| styled_state := st; styled_dom := kids |}.
Proof.
  intros Hcur Hne Horder. split.
  - destruct (extract_between_some s e kids Horder) as [[[remaining fragment] at_] Hx].
    destruct (extract_between_text s e kids remaining fragment at_ Hx)
      as (pre & post & Hpre & Hpost & Htext & Hpre' & Hpost').
    destruct (insertNode_some at_
                (Element (js "span") (style_attributes (span_style type v)) fragment)
                remaining) as [kids' Hins].
    { unfold text_before in Hpre'.
      destruct (extractContents at_ remaining); [by eexists|done]. }
    exists {| styled_state := handleContentChange pageIndex (innerHTML kids') st;
              styled_dom := kids' |}, pre, post, remaining, fragment, at_.
    split.
    { unfold handleApplyStyle, extractRange. rewrite Hcur.
      rewrite !bool_decide_eq_false_2 by done. rewrite Hx.
      cbn [mbind option_bind]. by rewrite Hins. }
    cbn [styled_dom styled_state]. split.
    { rewrite (insertNode_text _ _ _ _ _ _ Hins Hpre' Hpost'). cbn [textContent].
      fold (text_of fragment). by rewrite Htext. }
    done.
  - unfold handleApplyStyle. rewrite Hcur.
    by rewrite bool_decide_eq_true_2.
Qed.

End Styling.

(** ** The properties at work on the examples *)

(** The collection of one fresh note is restored from what was saved. *)
Lemma load_restores_autosave_witness :
  Forall json_clean (notes one_note) /\
  Forall (fun n => aligned n = true) (notes one_note) /\
  loadNotes (js "1700000000001") (js "2024-05-06") (autosave false (notes one_note))
  = Ok (one_note, false).
Proof.
  assert (Hclean : Forall json_clean (notes one_note)).
  { constructor; [by apply clean_sound|constructor]. }
  assert (Haligned : Forall (fun n => aligned n = true) (notes one_note)).
  { by repeat constructor. }
  split; [exact Hclean|]. split; [exact Haligned|].
  exact (load_restores_autosave int_round_trip (js "1700000000001") (js "2024-05-06")
           (notes one_note) Hclean Haligned).
Defined.

(** The backup of the fresh note is imported over any collection. *)
Lemma import_restores_export_witness :
  exists text,
    exportNotes (notes one_note) = Download (js "sermon-notes-backup.json") text /\
    importNotes (js "1700000000001") (js "2024-05-06") text
      (fresh_collection (js "1700000000001") (js "2024-05-06"))
    = Ok (one_note, Imported 1).
Proof.
  refine (proj1 (import_restores_export int_round_trip (js "1700000000001")
                   (js "2024-05-06") (createNewNote (js "1700000000000") (js "2024-05-05"))
                   [] _ _ _ _ _)).
  - constructor; [by apply clean_sound|constructor].
  - by repeat constructor.
  - reflexivity.
  - reflexivity.
Defined.

(** One [null] among the stored notes, and the stored collection is
    given up. *)
Lemma loadNotes_falls_back_witness :
  loadNotes (js "1700000000001") (js "2024-05-06") (Some backup_with_null)
  = Ok (fresh_collection (js "1700000000001") (js "2024-05-06"), true).
Proof.
  refine (proj1 (proj2 (proj2 (loadNotes_falls_back (js "1700000000001")
                                 (js "2024-05-06") backup_with_null _)))
            [VObj [(js "id", VStr (js "1")); (js "title", VStr (js "t"))]; VNull] []
            _ _ _).
  - by vm_compute.
  - by vm_compute.
  - repeat constructor; by vm_compute.
  - apply Exists_cons_tl, Exists_cons_hd. reflexivity.
Defined.

(** The note of the legacy backup gets two empty drawings, once. *)
Lemma migrate_settles_witness :
  exists note',
    migrate legacy_note = Ok note' /\
    get_field note' (js "drawingData") = Ok (Some (VArr [VStr []; VStr []] [])) /\
    migrate note' = Ok note'.
Proof.
  eexists. split; [by vm_compute|]. split; [by vm_compute|].
  refine (proj1 (migrate_settles legacy_note _ _)). by vm_compute.
Defined.

(** Typing on the only page of a note, then asking for a new note. *)
Lemma store_ok_preserved_witness :
  store_ok (editing (one_page (js "a"))) /\
  store_ok (handleNewNote (js "1700000000001") (js "2024-05-06")
              (handleContentChange 0 (js "ab") (editing (one_page (js "a"))))).1.
Proof.
  assert (Hok : store_ok (editing (one_page (js "a")))).
  { split; [repeat constructor; simpl; lia|].
    eexists. split; [reflexivity|]. split; [split; simpl; lia|simpl; lia]. }
  split; [exact Hok|].
  refine (store_ok_preserved _ _ Hok _).
  eapply steps_more; [apply (step_input _ (js "ab"))|].
  eapply steps_more; [apply (step_new _ (js "1700000000001") (js "2024-05-06"))|].
  apply steps_none.
Defined.

(** The edited note is in the collection that is saved. *)
Lemma edits_reach_collection_witness :
  exists updated,
    currentNote (handleContentChange 0 (js "ab") (editing (one_page (js "a"))))
    = Some updated /\
    content updated = [Some (js "ab")] /\
    updated ∈ notes (handleContentChange 0 (js "ab") (editing (one_page (js "a")))).
Proof.
  destruct (edits_reach_collection (editing (one_page (js "a")))
              (handleContentChange 0 (js "ab") (editing (one_page (js "a"))))
              (one_page (js "a")) 0 field_title (js "ab") eq_refl (or_introl eq_refl))
    as (updated & Hcur & _ & Hin & _).
  exists updated. split; [exact Hcur|]. split.
  - injection Hcur as <-. reflexivity.
  - apply Hin. exists (one_page (js "a")). split; [left|reflexivity].
Defined.

(** Selecting the only note of the collection, from its second page. *)
Lemma handleSelectNote_opens_first_witness :
  handleSelectNote (js "1700000000000")
    {| notes := [one_page (js "a")]; currentNote := Some (one_page (js "a"));
       activePageIndex := 1%nat |}
  = editing (one_page (js "a")).
Proof.
  refine (proj1 (handleSelectNote_opens_first _ (js "1700000000000"))
            [] (one_page (js "a")) [] _ _ _).
  - reflexivity.
  - reflexivity.
  - intros m Hm. by apply elem_of_nil in Hm.
Defined.

(** Clearing the drawing of a page that holds the red stroke. *)
Lemma clearDrawing_blanks_page_witness :
  exists cur',
    currentNote (clearDrawing true
                   (handleDrawingChange 0 (serialize (lines_value [red_stroke]))
                      (editing (one_page (js "a"))))) = Some cur' /\
    slot_or_empty (drawingData cur') 0 = [] /\
    content cur' = [Some (js "a")].
Proof.
  destruct (clearDrawing_blanks_page
              (handleDrawingChange 0 (serialize (lines_value [red_stroke]))
                 (editing (one_page (js "a")))) _ eq_refl)
    as (_ & cur' & Hcur & _ & Hslot & _ & _ & Hcontent & _).
  exists cur'. split; [exact Hcur|]. split; [exact Hslot|]. exact Hcontent.
Defined.


(** The eraser stroke drawn last leaves the pixel empty; drawn first, it
    leaves the red ink. *)
Lemma drawOnCanvas_picture_witness :
  surface (apply_ops used_canvas
             (drawOnCanvas true
                (Some (serialize (lines_value [red_stroke; eraser_stroke])))).1) tt
  = None /\
  surface (apply_ops used_canvas
             (drawOnCanvas true
                (Some (serialize (lines_value [eraser_stroke; red_stroke; dot])))).1) tt
  = Some (Some (VStr (js "#dc3545"))).
Proof.
  split.
  - refine (proj1 (drawOnCanvas_picture [red_stroke; eraser_stroke] _ used_canvas tt _ _)).
    + by repeat constructor.
    + by vm_compute.
  - refine (proj1 (drawOnCanvas_picture [eraser_stroke; red_stroke; dot] _ used_canvas
                     tt _ _)).
    + by repeat constructor.
    + by vm_compute.
Defined.

(** The note of the legacy backup cannot be presented; after the
    migration it has two pages. *)
Lemma paginateContent_pages_witness :
  paginateContent legacy_note = Throw TypeError /\
  exists note' shown,
    migrate legacy_note = Ok note' /\ paginateContent note' = Ok shown /\
    length shown = 2%nat.
Proof.
  split.
  - refine (proj1 (proj2 (paginateContent_pages legacy_note)) _ _ _ None _ _ _);
      [reflexivity|reflexivity|by left].
  - eexists.
    destruct (proj1 (paginateContent_pages
                (VObj [(js "id", VStr (js "1")); (js "title", VStr (js "t"));
                       (js "content", VArr [VStr (js "a"); VStr (js "b")] []);
                       (js "drawingData", VArr [VStr []; VStr []] [])]))
                [VStr (js "a"); VStr (js "b")] [] [VStr []; VStr []] [] eq_refl eq_refl)
      as (shown & Hshown & Hlen & _).
    exists shown. split; [by vm_compute|]. split; [exact Hshown|exact Hlen].
Defined.

(** Three presses of the right arrow on the first of two pages. *)
Lemma presentation_stays_on_a_page_witness :
  (0 <= currentPage
          (fold_left (fun s key => handleKeyDown 2 key s)
             [js "ArrowRight"; js "ArrowRight"; js "ArrowRight"]
             {| currentPage := 0; open := true |}) < 2)%Z.
Proof.
  refine (proj1 (presentation_stays_on_a_page 2 _ {| currentPage := 0; open := true |})
            _ _).
  - lia.
  - simpl. lia.
Defined.

(** The value of the menu for the default styles. *)
Lemma font_value_round_trip_witness :
  span_style font
    (currentFontValue (styles (one_page []))
       {| activeFontSize := None; activeFontFamily := None; activeFontWeight := None |})
  = {| activeFontSize := None; activeFontFamily := Some (js "Noto Sans KR");
       activeFontWeight := Some (js "400") |}.
Proof.
  refine (proj1 (font_value_round_trip (styles (one_page []))
                   {| activeFontSize := None; activeFontFamily := None;
                      activeFontWeight := None |}) _ _).
  - compute_done.
  - compute_done.
Defined.

(** Bold text in the default family: the menu shows the regular
    weight. *)
Lemma selection_shows_regular_weight_witness :
  computedFontWeight quoted_family = js "700" /\
  currentFontValue (styles (one_page []))
    (handleSelectionChange (InEditor quoted_family)
       {| activeFontSize := None; activeFontFamily := None; activeFontWeight := None |})
  = js "Noto Sans KR,400".
Proof.
  split; [reflexivity|].
  destruct (selection_shows_regular_weight quoted_family
              {| activeFontSize := None; activeFontFamily := None;
                 activeFontWeight := None |}
              (styles (one_page [])) (js "Noto Sans KR"))
    as (label & family & _ & Hnew & Hvalue).
  - compute_done.
  - compute_done.
  - apply (f_equal activeFontFamily) in Hnew. vm_compute in Hnew.
    injection Hnew as <-. exact Hvalue.
Defined.

(** The fifth of May 2024 was a Sunday (일), also nine hours ahead of
    UTC. *)
Lemma getDayOfWeek_names_the_day_witness :
  getDayOfWeek (js "2024-05-05") = Some [51068].
Proof.
  refine (proj1 (getDayOfWeek_names_the_day (js "2024-05-05") 1714867200000 _ _ _ _)).
  - done.
  - by vm_compute.
  - simpl. lia.
  - reflexivity.
Defined.

(** Two gestures on the empty page of a note. *)
Lemma gestures_accumulate_witness :
  exists store' cur',
    fold_each draw_on_page [pen_line; wipe] (editing (one_page (js "a"))) = Ok store' /\
    currentNote store' = Some cur' /\
    deserialize (slot_or_empty (drawingData cur') 0)
    = lines_value [stroke_of pen_line; stroke_of wipe].
Proof.
  destruct (gestures_accumulate int_round_trip [pen_line; wipe]
              (editing (one_page (js "a"))) (one_page (js "a")) [])
    as (store' & cur' & Hrun & Hcur & _ & _ & Hread).
  - reflexivity.
  - reflexivity.
  - constructor.
  - repeat constructor.
  - exists store', cur'. split; [exact Hrun|]. split; [exact Hcur|]. exact Hread.
Defined.

(** Typing a second letter on the only page of a note. *)
Lemma typing_keeps_the_editor_witness :
  exists cur',
    currentNote (handleContentChange 0 (js "ab") (editing (one_page (js "a"))))
    = Some cur' /\
    sync_editor (slot_or_empty (content cur') 0) (Some (js "ab")) = None.
Proof.
  destruct (typing_keeps_the_editor (editing (one_page (js "a"))) (one_page (js "a"))
              (js "ab") eq_refl)
    as (cur' & Hcur & _ & Hsync & _).
  - simpl. lia.
  - exists cur'. split; [exact Hcur|exact Hsync].
Defined.

(** The list of two notes, without a search term and with one: the
    later note comes first. *)
Lemma filteredNotes_lists_matches_witness :
  (exists listed,
     filteredNotes [] [christmas_note; one_page (js "a")] = Some listed /\
     listed = [one_page (js "a"); christmas_note] /\ newest_first listed) /\
  (exists listed,
     filteredNotes (js "GRA") [christmas_note; one_page (js "a")] = Some listed /\
     listed = [christmas_note] /\ newest_first listed).
Proof.
  split.
  - destruct (filteredNotes_lists_matches [] [christmas_note; one_page (js "a")])
      as (listed & Hlisted & _ & _ & Hsorted & _).
    + repeat constructor; by eexists.
    + exists listed. split; [exact Hlisted|]. split; [|exact Hsorted].
      vm_compute in Hlisted. by injection Hlisted as <-.
  - destruct (filteredNotes_lists_matches (js "GRA") [christmas_note; one_page (js "a")])
      as (listed & Hlisted & _ & _ & Hsorted & _).
    + repeat constructor; by eexists.
    + exists listed. split; [exact Hlisted|]. split; [|exact Hsorted].
      vm_compute in Hlisted. by injection Hlisted as <-.
Defined.

(** The first word of a page is given a larger font. *)
Lemma handleApplyStyle_wraps_selection_witness :
  exists out,
    handleApplyStyle size (js "24px") (SelectedRange (Inside 0 (At 0)) (Inside 0 (At 5)))
      0 [Text (js "hello world")] (editing (one_page (js "hello world"))) = Some out /\
    styled_dom out = [Text []; formatted (js "hello"); Text (js " world")] /\
    text_of (styled_dom out) = js "hello world".
Proof.
  destruct (handleApplyStyle_wraps_selection size (js "24px") (Inside 0 (At 0))
              (Inside 0 (At 5)) 0 [Text (js "hello world")]
              (editing (one_page (js "hello world"))) (one_page (js "hello world")))
    as [(out & pre & post & remaining & fragment & at_ & Hout & Htext & _) _].
  - reflexivity.
  - discriminate.
  - reflexivity.
  - exists out. split; [exact Hout|]. split; [|exact Htext].
    vm_compute in Hout. by injection Hout as <-.
Defined.
